(** * The retry output of lib/output/retry.go

    A shallow embedding of the [Retry] output type: its configuration and
    constructor, the lifecycle methods [Consume], [CloseAsync] and
    [WaitForClose], and the goroutines started by [Consume] (the coordinator
    [loop], one worker per dispatched transaction, and the callers of
    [CloseAsync]) as an interleaving transition system over the shared
    variables of the Go program. *)

From Stdlib Require Import ZArith String List Bool Lia.
From stdpp Require Import base list strings gmap.
Import ListNotations.
Local Open Scope Z_scope.

(** ** Basic types *)

(** [time.Duration] is an int64 count of nanoseconds. *)
Definition Duration := Z.
Definition Millisecond : Duration := 1000000.
Definition Second : Duration := 1000000000.

(** [backoff.Stop]: the duration by which a backoff instance says that no
    further retry is to be made. *)
Definition Stop : Duration := -1.

(** A Go [error] value, identified by its message; [nil] is [None] of
    [option error]. *)
Definition error := string.

(** The two sentinel errors of package [types] that retry.go returns. *)
Definition ErrAlreadyStarted : error := "type has already been started"%string.
Definition ErrTimeout : error := "action timed out"%string.

(** A channel used only as a signal or as a stream end: open or closed. *)
Inductive Chan := Open | Closed.

Definition is_closed (c : Chan) : bool :=
  match c with Closed => true | Open => false end.

(** A message payload is a list of parts; [Len] is [Payload.Len()]. *)
Definition Message := list string.
Definition Len (m : Message) : Z := Z.of_nat (length m).

(** [types.Transaction]: a payload and the channel its response goes to.
    Channels of responses are identified by a number. *)
Record Transaction := NewTransaction { Payload : Message; ResponseChan : nat }.

(** ** Configuration *)

Module retries.

(** [retries.Backoff] and [retries.Config], the inlined retry settings. *)
Record Backoff := mkBackoff {
  InitialInterval : string;
  MaxInterval : string;
  MaxElapsedTime : string }.

Record Config := mkConfig {
  MaxRetries : Z;
  Backoff_ : Backoff }.

Definition set_MaxRetries (n : Z) (c : Config) : Config :=
  mkConfig n (Backoff_ c).
Definition set_InitialInterval (v : string) (c : Config) : Config :=
  mkConfig (MaxRetries c)
    (mkBackoff v (MaxInterval (Backoff_ c)) (MaxElapsedTime (Backoff_ c))).
Definition set_MaxInterval (v : string) (c : Config) : Config :=
  mkConfig (MaxRetries c)
    (mkBackoff (InitialInterval (Backoff_ c)) v (MaxElapsedTime (Backoff_ c))).
Definition set_MaxElapsedTime (v : string) (c : Config) : Config :=
  mkConfig (MaxRetries c)
    (mkBackoff (InitialInterval (Backoff_ c)) (MaxInterval (Backoff_ c)) v).

End retries.

(** [output.Config] (its [Type] and [Retry] fields) and [RetryConfig], which
    refer to each other: a retry output holds the configuration of its child
    output. [Output] is a pointer, [None] when nil. *)
Inductive Config : Type :=
  mkConfig (Type_ : string) (Retry_ : RetryConfig)
with RetryConfig : Type :=
  mkRetryConfig (Output : option Config) (Config_ : retries.Config).

Definition Type_ (c : Config) : string := let (t, _) := c in t.
Definition Retry_ (c : Config) : RetryConfig := let (_, r) := c in r.
Definition Output (r : RetryConfig) : option Config := let (o, _) := r in o.
Definition Config_ (r : RetryConfig) : retries.Config := let (_, c) := r in c.

Section NewRetryConfig.

(** [retries.NewConfig()] lives in package lib/util/retries; its value is
    taken as given. *)
Variable retries_NewConfig : retries.Config.

(** [NewRetryConfig]: the overrides are applied to the local [rConf], and
    the returned struct is built from a second call of
    [retries.NewConfig()]. *)
Definition NewRetryConfig : RetryConfig :=
  let rConf := retries_NewConfig in
  let rConf := retries.set_MaxRetries 0 rConf in
  let rConf := retries.set_InitialInterval "100ms" rConf in
  let rConf := retries.set_MaxInterval "1s" rConf in
  let rConf := retries.set_MaxElapsedTime "0s" rConf in
  mkRetryConfig None retries_NewConfig.

(** What the function would return if the overrides were used. *)
Definition overridden_defaults : retries.Config :=
  retries.set_MaxElapsedTime "0s"
    (retries.set_MaxInterval "1s"
      (retries.set_InitialInterval "100ms"
        (retries.set_MaxRetries 0 retries_NewConfig))).

End NewRetryConfig.

(** ** The collaborators of the retry output *)

(** The child output ([types.Output]) as the retry output uses it: the four
    methods called on [r.wrapped], acting on the child's state. *)
Class OutputType (W : Type) := {
  wConsume : W -> W * option error;
  wConnected : W -> bool;
  wCloseAsync : W -> W;
  wWaitForClose : W -> Duration -> W * option error }.

(** [backoff.BackOff]: a stateful instance whose [NextBackOff] returns the
    next wait, or [Stop]. *)
Class BackOffType (B : Type) := {
  NextBackOff : B -> Duration * B }.

(** The counters and the gauge that [loop] obtains from [r.stats]. *)
Record Metrics := mkMetrics {
  mRunning : Z;
  mCount : Z;
  mSuccess : Z;
  mPartsSuccess : Z;
  mError : Z;
  mEndOfRetries : Z }.

Definition no_metrics : Metrics := mkMetrics 0 0 0 0 0 0.

Definition incr_mRunning (n : Z) (m : Metrics) : Metrics :=
  mkMetrics (mRunning m + n) (mCount m) (mSuccess m) (mPartsSuccess m)
    (mError m) (mEndOfRetries m).
Definition incr_mCount (n : Z) (m : Metrics) : Metrics :=
  mkMetrics (mRunning m) (mCount m + n) (mSuccess m) (mPartsSuccess m)
    (mError m) (mEndOfRetries m).
Definition incr_mSuccess (n : Z) (m : Metrics) : Metrics :=
  mkMetrics (mRunning m) (mCount m) (mSuccess m + n) (mPartsSuccess m)
    (mError m) (mEndOfRetries m).
Definition incr_mPartsSuccess (n : Z) (m : Metrics) : Metrics :=
  mkMetrics (mRunning m) (mCount m) (mSuccess m) (mPartsSuccess m + n)
    (mError m) (mEndOfRetries m).
Definition incr_mError (n : Z) (m : Metrics) : Metrics :=
  mkMetrics (mRunning m) (mCount m) (mSuccess m) (mPartsSuccess m)
    (mError m + n) (mEndOfRetries m).
Definition incr_mEndOfRetries (n : Z) (m : Metrics) : Metrics :=
  mkMetrics (mRunning m) (mCount m) (mSuccess m) (mPartsSuccess m)
    (mError m) (mEndOfRetries m + n).

(** ** The [Retry] struct and its methods *)

Section RetryOutput.

Context {W B : Type} {OW : OutputType W} {OB : BackOffType B}.

(** The fields of [Retry]. The channel [transactionsIn] is nil ([None])
    until [Consume] stores the upstream channel; of the channels the
    struct owns, what matters is whether they have been closed. *)
Record Retry := mkRetry {
  running : Z;
  conf : RetryConfig;
  wrapped : W;
  backoffCtor : unit -> B;
  stats : Metrics;
  transactionsIn : option nat;
  transactionsOut : Chan;
  closeChan : Chan;
  closedChan : Chan }.

Definition set_running (v : Z) (r : Retry) : Retry :=
  mkRetry v (conf r) (wrapped r) (backoffCtor r) (stats r)
    (transactionsIn r) (transactionsOut r) (closeChan r) (closedChan r).
Definition set_wrapped (v : W) (r : Retry) : Retry :=
  mkRetry (running r) (conf r) v (backoffCtor r) (stats r)
    (transactionsIn r) (transactionsOut r) (closeChan r) (closedChan r).
Definition set_stats (v : Metrics) (r : Retry) : Retry :=
  mkRetry (running r) (conf r) (wrapped r) (backoffCtor r) v
    (transactionsIn r) (transactionsOut r) (closeChan r) (closedChan r).
Definition set_transactionsIn (v : option nat) (r : Retry) : Retry :=
  mkRetry (running r) (conf r) (wrapped r) (backoffCtor r) (stats r)
    v (transactionsOut r) (closeChan r) (closedChan r).
Definition set_transactionsOut (v : Chan) (r : Retry) : Retry :=
  mkRetry (running r) (conf r) (wrapped r) (backoffCtor r) (stats r)
    (transactionsIn r) v (closeChan r) (closedChan r).
Definition set_closeChan (v : Chan) (r : Retry) : Retry :=
  mkRetry (running r) (conf r) (wrapped r) (backoffCtor r) (stats r)
    (transactionsIn r) (transactionsOut r) v (closedChan r).
Definition set_closedChan (v : Chan) (r : Retry) : Retry :=
  mkRetry (running r) (conf r) (wrapped r) (backoffCtor r) (stats r)
    (transactionsIn r) (transactionsOut r) (closeChan r) v.

Section Constructor.

(** [New] (the constructor of any output, constructor.go) and
    [retries.Config.GetCtor] are outside retry.go: both are taken as
    given, each returning a value or an error. The manager and the
    logger play no part and are left out. *)
Variable New : Config -> W + error.
Variable GetCtor : retries.Config -> (unit -> B) + error.

(** [fmt.Errorf("failed to create output '%v': %v", ty, err)]. *)
Definition failed_to_create (ty : string) (err : error) : error :=
  String.append "failed to create output '"
    (String.append ty (String.append "': " err)).

Definition NewRetry (c : Config) (st : Metrics) : Retry + error :=
  match Output (Retry_ c) with
  | None => inr "cannot create retry output without a child"%string
  | Some child =>
      match New child with
      | inr err => inr (failed_to_create (Type_ child) err)
      | inl w =>
          match GetCtor (Config_ (Retry_ c)) with
          | inr err => inr err
          | inl boffCtor =>
              inl (mkRetry 1 (Retry_ c) w boffCtor st None Open Open Open)
          end
      end
  end.

End Constructor.

(** [Consume]: refuses when [transactionsIn] is already set, otherwise
    wires the child to [transactionsOut], stores the upstream channel and
    starts [loop]. The result is the struct after the call, whether
    [go r.loop()] was executed, and the returned error. *)
Definition Consume (ts : option nat) (r : Retry) : Retry * bool * option error :=
  match transactionsIn r with
  | Some _ => (r, false, Some ErrAlreadyStarted)
  | None =>
      let (w', err) := wConsume (wrapped r) in
      match err with
      | Some e => (set_wrapped w' r, false, Some e)
      | None => (set_transactionsIn ts (set_wrapped w' r), true, None)
      end
  end.

Definition Connected (r : Retry) : bool := wConnected (wrapped r).

(** [atomic.CompareAndSwapInt32(&r.running, old, new)]. *)
Definition CompareAndSwap_running (old new : Z) (r : Retry) : Retry * bool :=
  if running r =? old then (set_running new r, true) else (r, false).

(** [close(r.closeChan)]; closing a closed channel panics ([None]). *)
Definition close_closeChan (r : Retry) : option Retry :=
  match closeChan r with
  | Open => Some (set_closeChan Closed r)
  | Closed => None
  end.

(** [CloseAsync] run without interruption; [None] is a panic. *)
Definition CloseAsync (r : Retry) : option Retry :=
  let (r', swapped) := CompareAndSwap_running 1 0 r in
  if swapped then close_closeChan r' else Some r'.

(** [WaitForClose]: one select over [closedChan] and the timer of
    [time.After(timeout)]. [elapsed] is the time since the timer was
    created at the instant the select is evaluated: the timer case is
    ready when the timeout has passed, the other when [closedChan] is
    closed. With no case ready the call is still blocked ([None]); with
    both ready Go picks one at random, here [pick_timer]. The result is
    the returned error. *)
Definition WaitForClose (r : Retry) (timeout elapsed : Duration)
    (pick_timer : bool) : option (option error) :=
  match is_closed (closedChan r), timeout <=? elapsed with
  | true, true => Some (if pick_timer then Some ErrTimeout else None)
  | true, false => Some None
  | false, true => Some (Some ErrTimeout)
  | false, false => None
  end.

(** ** The goroutines of [loop] *)

(** [resOut], the response a worker is about to return upstream: nil,
    [response.NewAck()] or [response.NewNoack()]. *)
Inductive ResOut := ResNil | ResAck | ResNoack.

(** Where a worker goroutine stands: at the head of [retryLoop], in one of
    its four selects, or returned. *)
Inductive WorkerPc :=
| WLoop
| WAwait
| WSleep (nextBackoff : Duration)
| WResubmit
| WRespond
| WDone.

(** The arguments and local variables of a worker. *)
Record Worker := mkWorker {
  ts : Transaction;
  resChan : nat;
  backOff : option B;
  resOut : ResOut;
  inErrLoop : bool;
  wpc : WorkerPc }.

Definition set_wpc (pc : WorkerPc) (w : Worker) : Worker :=
  mkWorker (ts w) (resChan w) (backOff w) (resOut w) (inErrLoop w) pc.
Definition set_resOut (v : ResOut) (w : Worker) : Worker :=
  mkWorker (ts w) (resChan w) (backOff w) v (inErrLoop w) (wpc w).
Definition set_backOff (v : option B) (w : Worker) : Worker :=
  mkWorker (ts w) (resChan w) v (resOut w) (inErrLoop w) (wpc w).
Definition set_inErrLoop (v : bool) (w : Worker) : Worker :=
  mkWorker (ts w) (resChan w) (backOff w) (resOut w) v (wpc w).

(** Where the coordinator ([loop]) stands: the running gauge not yet
    incremented, the head of the outer loop, the counter test of the
    gate, about to enter the select of the gate, the three selects,
    [wg.Wait()], then the four stages of the deferred function, and
    returned. *)
Inductive CoordPc :=
| CStart
| CLoop
| CGate
| CGateEnter
| CGateWait
| CAcquire
| CDispatch (tran : Transaction)
| CWgWait
| CDefCloseOut
| CDefCloseAsync
| CDefWait
| CDefFinish
| CExited.

(** A call of [CloseAsync]: before the compare-and-swap, between a
    successful swap and [close(r.closeChan)], or returned. *)
Inductive CloserPc := ClCas | ClClose | ClReturned.

(** The run-time panics the code can run into: a send on a closed
    channel, a close of a closed channel, and the call of [Error] on a nil
    [types.Response]. *)
Inductive Panic := SendOnClosedChannel | CloseOfClosedChannel | NilResponse.

(** The struct, the variables [loop] shares with its workers
    ([errLooped] and the wait group), and every goroutine. [errLooped] is
    an int64 that stays between zero and the number of workers, so its
    wrap-around never comes into play. *)
Record System := mkSystem {
  retry : Retry;
  errLooped : Z;
  wg : Z;
  coord : CoordPc;
  workers : list Worker;
  closers : list CloserPc;
  panicked : option Panic }.

Definition set_retry (v : Retry) (s : System) : System :=
  mkSystem v (errLooped s) (wg s) (coord s) (workers s) (closers s) (panicked s).
Definition set_errLooped (v : Z) (s : System) : System :=
  mkSystem (retry s) v (wg s) (coord s) (workers s) (closers s) (panicked s).
Definition set_wg (v : Z) (s : System) : System :=
  mkSystem (retry s) (errLooped s) v (coord s) (workers s) (closers s) (panicked s).
Definition set_coord (v : CoordPc) (s : System) : System :=
  mkSystem (retry s) (errLooped s) (wg s) v (workers s) (closers s) (panicked s).
Definition set_workers (v : list Worker) (s : System) : System :=
  mkSystem (retry s) (errLooped s) (wg s) (coord s) v (closers s) (panicked s).
Definition set_closers (v : list CloserPc) (s : System) : System :=
  mkSystem (retry s) (errLooped s) (wg s) (coord s) (workers s) v (panicked s).
Definition set_panicked (v : option Panic) (s : System) : System :=
  mkSystem (retry s) (errLooped s) (wg s) (coord s) (workers s) (closers s) v.

Definition upd_stats (f : Metrics -> Metrics) (s : System) : System :=
  set_retry (set_stats (f (stats (retry s))) (retry s)) s.
Definition put_worker (i : nat) (w : Worker) (s : System) : System :=
  set_workers (<[i := w]> (workers s)) s.
Definition put_closer (j : nat) (c : CloserPc) (s : System) : System :=
  set_closers (<[j := c]> (closers s)) s.

(** The system right after a successful [Consume]: [loop] has been
    started and nothing else has happened. *)
Definition started (r : Retry) : System :=
  mkSystem r 0 0 CStart [] [] None.

(** What a goroutine does in one step, as seen from outside. *)
Inductive WAct :=
| WFailure (e : error)
| WSuccess
| WIncr
| WDecr
| WEndOfRetries
| WResubmitted (p : Message)
| WResponded (ch : nat) (res : ResOut).

Inductive Action :=
| AWorker (i : nat) (a : WAct)
| APull (t : Transaction)
| ADispatch (p : Message) (rc : nat)
| AGateRead (v : Z)
| AGateTimeout (d : Duration)
| ACloseOut
| AWrappedCloseAsync
| AWrappedWait (d : Duration) (err : option error)
| AClosedSignal
| ACas (j : nat) (swapped : bool)
| ACloseCancel (j : nat)
| APanic (p : Panic).

(** How a blocked select of a worker is resolved, or an internal step.
    [WRecv res] is a non-nil response received on [resChan], [res] being
    what its [Error] method returns; [WRecvNil] is a nil response (also
    what a receive from a closed [resChan] gives). *)
Inductive WEvent :=
| WTau
| WRecv (res : option error)
| WRecvNil
| WTimer
| WSent
| WTaken
| WClosed.

(** The same for the coordinator. [CRecv None] is a receive from the
    closed upstream channel. *)
Inductive CEvent :=
| CTau
| CTimeout
| CRecv (t : option Transaction)
| CSent
| CClosed.

Inductive Event :=
| ECoord (e : CEvent)
| EWorker (i : nat) (e : WEvent)
| ECall
| ECloser (j : nat).

(** The effect on the coordinator of a non-blocking send on
    [errInterruptChan]: received only when the coordinator waits in the
    select of the gate, which then goes back to the test of the counter;
    dropped otherwise. *)
Definition interrupted (pc : CoordPc) : CoordPc :=
  match pc with CGateWait => CGate | _ => pc end.

(** A worker returns: its deferred function runs [wg.Done()] and, when
    the worker was in its error loop, decrements [errLooped] and offers an
    interrupt. The deferred function never blocks and is run within the
    step that returns. [acts] is what the step did before returning. *)
Definition worker_exit (i : nat) (w : Worker) (acts : list Action)
    (s : System) : System * list Action :=
  let s := put_worker i (set_wpc WDone w) (set_wg (wg s - 1) s) in
  if inErrLoop w then
    let s := set_errLooped (errLooped s - 1) s in
    let s := set_coord (interrupted (coord s)) s in
    (s, acts ++ [AWorker i WDecr])
  else (s, acts).

(** One step of worker [i]. A case of a select can be taken only when it
    is ready: the [closeChan] cases need the channel closed, the others
    are resolved by the environment (the child output answering or
    receiving, the timer, the reader of the response). The child may
    answer with a nil response, on which [res.Error()] panics. Payloads
    are non-nil messages and upstream keeps the response channels open,
    so that [ts.Payload.Len()] and the final send do not panic. *)
Definition worker_step (i : nat) (e : WEvent) (s : System)
    : option (System * list Action) :=
  match workers s !! i with
  | None => None
  | Some w =>
    match wpc w, e with
    | WLoop, WTau =>
        (* for atomic.LoadInt32(&r.running) == 1 *)
        if running (retry s) =? 1
        then Some (put_worker i (set_wpc WAwait w) s, [])
        else Some (put_worker i (set_wpc WRespond w) s, [])
    | WAwait, WRecv (Some err) =>
        (* res.Error() != nil *)
        let s1 := if inErrLoop w then s else set_errLooped (errLooped s + 1) s in
        let s2 := upd_stats (incr_mError 1) s1 in
        let b := match backOff w with
                 | None => backoffCtor (retry s) tt
                 | Some b => b
                 end in
        let (nextBackoff, b') := NextBackOff b in
        let w1 := set_backOff (Some b') (set_inErrLoop true w) in
        let acts := AWorker i (WFailure err)
                    :: (if inErrLoop w then [] else [AWorker i WIncr]) in
        if nextBackoff =? Stop then
          Some (put_worker i (set_wpc WRespond (set_resOut ResNoack w1))
                  (upd_stats (incr_mEndOfRetries 1) s2),
                acts ++ [AWorker i WEndOfRetries])
        else
          Some (put_worker i (set_wpc (WSleep nextBackoff) w1) s2, acts)
    | WAwait, WRecv None =>
        let s1 := upd_stats (incr_mSuccess 1) s in
        let s2 := upd_stats (incr_mPartsSuccess (Len (Payload (ts w)))) s1 in
        Some (put_worker i (set_wpc WRespond (set_resOut ResAck w)) s2,
              [AWorker i WSuccess])
    | WAwait, WRecvNil =>
        (* res.Error() on a nil interface value *)
        Some (set_panicked (Some NilResponse) s, [APanic NilResponse])
    | WSleep _, WTimer =>
        Some (put_worker i (set_wpc WResubmit w) s, [])
    | WResubmit, WSent =>
        (* r.transactionsOut <- types.NewTransaction(ts.Payload, resChan) *)
        match transactionsOut (retry s) with
        | Closed => Some (set_panicked (Some SendOnClosedChannel) s,
                          [APanic SendOnClosedChannel])
        | Open => Some (put_worker i (set_wpc WLoop w) s,
                        [AWorker i (WResubmitted (Payload (ts w)))])
        end
    | WRespond, WTaken =>
        (* ts.ResponseChan <- resOut *)
        Some (worker_exit i w
                [AWorker i (WResponded (ResponseChan (ts w)) (resOut w))] s)
    | WAwait, WClosed | WSleep _, WClosed
    | WResubmit, WClosed | WRespond, WClosed =>
        (* case <-r.closeChan: return *)
        if is_closed (closeChan (retry s))
        then Some (worker_exit i w [] s) else None
    | _, _ => None
    end
  end.

(** The timer of the gate: [time.After(time.Millisecond * 100)]. *)
Definition gate_timeout : Duration := Millisecond * 100.

(** One step of the coordinator. Every [return] of [loop], and the end of
    the function after [wg.Wait()], leads to the deferred function
    ([CDefCloseOut]). *)
Definition coord_step (e : CEvent) (s : System) : option (System * list Action) :=
  match coord s, e with
  | CStart, CTau =>
      Some (set_coord CLoop (upd_stats (incr_mRunning 1) s), [])
  | CLoop, CTau =>
      (* for atomic.LoadInt32(&r.running) == 1 *)
      if running (retry s) =? 1
      then Some (set_coord CGate s, [])
      else Some (set_coord CWgWait s, [])
  | CGate, CTau =>
      (* for atomic.LoadInt64(&errLooped) > 0 *)
      if errLooped s >? 0
      then Some (set_coord CGateEnter s, [AGateRead (errLooped s)])
      else Some (set_coord CAcquire s, [AGateRead (errLooped s)])
  | CGateEnter, CTau =>
      (* the select of the gate starts waiting on its three channels *)
      Some (set_coord CGateWait s, [])
  | CGateWait, CTimeout =>
      Some (set_coord CGate s, [AGateTimeout gate_timeout])
  | CAcquire, CRecv (Some tran) =>
      match transactionsIn (retry s) with
      | None => None
      | Some _ =>
          Some (set_coord (CDispatch tran) (upd_stats (incr_mCount 1) s),
                [APull tran])
      end
  | CAcquire, CRecv None =>
      match transactionsIn (retry s) with
      | None => None
      | Some _ => Some (set_coord CDefCloseOut s, [])
      end
  | CDispatch tran, CSent =>
      (* rChan is the fresh channel made for this transaction; the
         worker is started with wg.Add(1) *)
      let rChan := length (workers s) in
      match transactionsOut (retry s) with
      | Closed => Some (set_panicked (Some SendOnClosedChannel) s,
                        [APanic SendOnClosedChannel])
      | Open =>
          let w := mkWorker tran rChan None ResNil false WLoop in
          Some (set_coord CLoop
                  (set_workers (workers s ++ [w]) (set_wg (wg s + 1) s)),
                [ADispatch (Payload tran) rChan])
      end
  | CGateWait, CClosed | CAcquire, CClosed | CDispatch _, CClosed =>
      (* case <-r.closeChan: return *)
      if is_closed (closeChan (retry s))
      then Some (set_coord CDefCloseOut s, []) else None
  | CWgWait, CTau =>
      (* wg.Wait() *)
      if wg s =? 0 then Some (set_coord CDefCloseOut s, []) else None
  | CDefCloseOut, CTau =>
      (* close(r.transactionsOut) *)
      match transactionsOut (retry s) with
      | Closed => Some (set_panicked (Some CloseOfClosedChannel) s,
                        [APanic CloseOfClosedChannel])
      | Open =>
          Some (set_coord CDefCloseAsync
                  (set_retry (set_transactionsOut Closed (retry s)) s),
                [ACloseOut])
      end
  | CDefCloseAsync, CTau =>
      (* r.wrapped.CloseAsync() *)
      Some (set_coord CDefWait
              (set_retry (set_wrapped (wCloseAsync (wrapped (retry s))) (retry s)) s),
            [AWrappedCloseAsync])
  | CDefWait, CTau =>
      (* err = r.wrapped.WaitForClose(time.Second), repeated while
         err != nil *)
      let (w', err) := wWaitForClose (wrapped (retry s)) Second in
      let s' := set_retry (set_wrapped w' (retry s)) s in
      Some (set_coord (match err with Some _ => CDefWait | None => CDefFinish end) s',
            [AWrappedWait Second err])
  | CDefFinish, CTau =>
      (* mRunning.Decr(1); close(r.closedChan) *)
      match closedChan (retry s) with
      | Closed => Some (set_panicked (Some CloseOfClosedChannel) s,
                        [APanic CloseOfClosedChannel])
      | Open =>
          let s1 := upd_stats (incr_mRunning (-1)) s in
          Some (set_coord CExited
                  (set_retry (set_closedChan Closed (retry s1)) s1),
                [AClosedSignal])
      end
  | _, _ => None
  end.

(** One step of the [j]-th call of [CloseAsync]. *)
Definition closer_step (j : nat) (s : System) : option (System * list Action) :=
  match closers s !! j with
  | Some ClCas =>
      let (r', swapped) := CompareAndSwap_running 1 0 (retry s) in
      Some (put_closer j (if swapped then ClClose else ClReturned) (set_retry r' s),
            [ACas j swapped])
  | Some ClClose =>
      match close_closeChan (retry s) with
      | None => Some (set_panicked (Some CloseOfClosedChannel) s,
                      [APanic CloseOfClosedChannel])
      | Some r' => Some (put_closer j ClReturned (set_retry r' s), [ACloseCancel j])
      end
  | _ => None
  end.

(** One step of the whole program. [ECall] is a new call of
    [CloseAsync] arriving; a panic ends the program. *)
Definition step (e : Event) (s : System) : option (System * list Action) :=
  match panicked s with
  | Some _ => None
  | None =>
      match e with
      | ECoord ce => coord_step ce s
      | EWorker i we => worker_step i we s
      | ECall => Some (set_closers (closers s ++ [ClCas]) s, [])
      | ECloser j => closer_step j s
      end
  end.

(** Running a schedule, collecting what was done. *)
Fixpoint run (es : list Event) (s : System) (tr : list Action)
    : option (System * list Action) :=
  match es with
  | [] => Some (s, tr)
  | e :: es' =>
      match step e s with
      | None => None
      | Some (s', acts) => run es' s' (tr ++ acts)
      end
  end.

(** [execution s0 s tr]: the program can get from [s0] to [s], doing
    [tr]. *)
Inductive execution (s0 : System) : System -> list Action -> Prop :=
| exec_start : execution s0 s0 []
| exec_step s tr e s' acts :
    execution s0 s tr ->
    step e s = Some (s', acts) ->
    execution s0 s' (tr ++ acts).

End RetryOutput.

Arguments Retry : clear implicits.
Arguments Worker : clear implicits.
Arguments System : clear implicits.

(** ** Reading an execution *)

(** Number of actions of [tr] that satisfy [p]. *)
Fixpoint count (p : Action -> bool) (tr : list Action) : nat :=
  match tr with
  | [] => 0%nat
  | a :: tr' => ((if p a then 1 else 0) + count p tr')%nat
  end.

Definition by_worker (i : nat) (p : WAct -> bool) (a : Action) : bool :=
  match a with
  | AWorker j x => Nat.eqb j i && p x
  | _ => false
  end.

(** Failure and success responses received by worker [i], its additions
    to [errLooped], its increments of the end-of-retries counter and its
    resubmissions. *)
Definition failures (i : nat) : list Action -> nat :=
  count (by_worker i (fun x => match x with WFailure _ => true | _ => false end)).
Definition successes (i : nat) : list Action -> nat :=
  count (by_worker i (fun x => match x with WSuccess => true | _ => false end)).
Definition increments (i : nat) : list Action -> nat :=
  count (by_worker i (fun x => match x with WIncr => true | _ => false end)).
Definition decrements (i : nat) : list Action -> nat :=
  count (by_worker i (fun x => match x with WDecr => true | _ => false end)).
Definition end_of_retries (i : nat) : list Action -> nat :=
  count (by_worker i (fun x => match x with WEndOfRetries => true | _ => false end)).
Definition resubmissions (i : nat) : list Action -> nat :=
  count (by_worker i (fun x => match x with WResubmitted _ => true | _ => false end)).

(** First deliveries, by the coordinator, of the transaction whose
    response channel is [i]. *)
Definition dispatches (i : nat) : list Action -> nat :=
  count (fun a => match a with ADispatch _ rc => Nat.eqb rc i | _ => false end).

(** The responses worker [i] wrote to the response channel of its
    transaction, in order. *)
Fixpoint responses (i : nat) (tr : list Action) : list ResOut :=
  match tr with
  | [] => []
  | AWorker j (WResponded _ res) :: tr' =>
      if Nat.eqb j i then res :: responses i tr' else responses i tr'
  | _ :: tr' => responses i tr'
  end.

(** Transactions received from upstream. *)
Definition pulls : list Action -> nat :=
  count (fun a => match a with APull _ => true | _ => false end).

(** Successful swaps of [running] and closes of [closeChan]. *)
Definition swaps : list Action -> nat :=
  count (fun a => match a with ACas _ true => true | _ => false end).
Definition cancels : list Action -> nat :=
  count (fun a => match a with ACloseCancel _ => true | _ => false end).

(** The steps of the deferred function of [loop], in order. *)
Definition is_shutdown (a : Action) : bool :=
  match a with
  | ACloseOut | AWrappedCloseAsync | AWrappedWait _ _ | AClosedSignal => true
  | _ => false
  end.
Definition shutdown_steps (tr : list Action) : list Action :=
  List.filter is_shutdown tr.

(** The shape the deferred function gives to [shutdown_steps]: the close of
    the child's input, the stop request, the polls that reported an error,
    the poll that reported closed, and the closed signal. *)
Definition shutdown_sequence (errs : list error) : list Action :=
  ACloseOut :: AWrappedCloseAsync
    :: map (fun e => AWrappedWait Second (Some e)) errs
    ++ [AWrappedWait Second None; AClosedSignal].

(** ** Backoff instances seen through their calls *)

Section BackOffCalls.

Context {B : Type} {OB : BackOffType B}.

(** The instance after [n] calls of [NextBackOff], and what call number
    [n + 1] returns. *)
Fixpoint after_calls (n : nat) (b : B) : B :=
  match n with
  | O => b
  | S n' => snd (NextBackOff (after_calls n' b))
  end.

Definition nth_backoff (n : nat) (b : B) : Duration :=
  fst (NextBackOff (after_calls n b)).


End BackOffCalls.

(** ** Sample collaborators *)

(** A child output that refuses to be wired twice and reports closed only
    after a number of polls. *)
Record SlowChild := mkSlowChild {
  wired : bool;
  stopping : bool;
  polls_left : nat }.

#[export] Instance SlowChild_output : OutputType SlowChild := {
  wConsume w :=
    if wired w then (w, Some ErrAlreadyStarted)
    else (mkSlowChild true (stopping w) (polls_left w), None);
  wConnected w := wired w;
  wCloseAsync w := mkSlowChild (wired w) true (polls_left w);
  wWaitForClose w _ :=
    match polls_left w with
    | O => (w, None)
    | S n => (mkSlowChild (wired w) (stopping w) n, Some ErrTimeout)
    end }.

(** A child output that accepts any number of wirings. *)
Record LaxChild := mkLaxChild { wirings : nat }.

#[export] Instance LaxChild_output : OutputType LaxChild := {
  wConsume w := (mkLaxChild (S (wirings w)), None);
  wConnected w := true;
  wCloseAsync w := w;
  wWaitForClose w _ := (w, None) }.

(** A backoff instance that waits a fixed interval and, for a positive
    [maxTries], stops after [maxTries] calls, as [backoff.WithMaxRetries]
    does; with [maxTries] zero it never stops. *)
Record MaxRetriesBackOff := mkMaxRetries {
  interval : Duration;
  maxTries : nat;
  numTries : nat }.

#[export] Instance MaxRetries_backoff : BackOffType MaxRetriesBackOff := {
  NextBackOff b :=
    if (0 <? maxTries b)%nat then
      if (maxTries b <=? numTries b)%nat then (Stop, b)
      else (interval b, mkMaxRetries (interval b) (maxTries b) (S (numTries b)))
    else (interval b, b) }.

(** A retry output over a [SlowChild], allowing two retries, as [NewRetry]
    builds it, once wired to upstream channel 7. *)
Definition sample_retry : Retry SlowChild MaxRetriesBackOff :=
  mkRetry 1 (mkRetryConfig None (retries.mkConfig 2 (retries.mkBackoff "100ms" "1s" "0s")))
    (mkSlowChild true false 1)
    (fun _ => mkMaxRetries (100 * Millisecond) 2 0)
    no_metrics (Some 7%nat) Open Open Open.

Definition sample_tran : Transaction := NewTransaction ["hello"%string] 3.

(** A constructor of child outputs that always succeeds, and a stand-in
    for [GetCtor] that rejects the initial interval "soon", which is no
    duration, and otherwise allows [MaxRetries] retries, without bound
    when [MaxRetries] is zero. *)
Definition sample_New (c : Config) : SlowChild + error :=
  inl (mkSlowChild false false 0).

Definition sample_GetCtor (c : retries.Config)
    : (unit -> MaxRetriesBackOff) + error :=
  if String.eqb (retries.InitialInterval (retries.Backoff_ c)) "soon"
  then inr "invalid backoff initial interval"%string
  else inl (fun _ => mkMaxRetries (100 * Millisecond)
                       (Z.to_nat (retries.MaxRetries c)) 0).

Definition sample_child_conf : Config :=
  mkConfig "stdout"
    (mkRetryConfig None (retries.mkConfig 0 (retries.mkBackoff "500ms" "3s" "0s"))).

(** A configuration with a child output and a malformed backoff. *)
Definition bad_backoff_conf : Config :=
  mkConfig "retry"
    (mkRetryConfig (Some sample_child_conf)
       (retries.mkConfig 0 (retries.mkBackoff "soon" "1s" "0s"))).

Definition is_error {A : Type} (x : A + error) : Prop :=
  match x with inr _ => True | inl _ => False end.

(** ** Invariants of executions *)

(** Sum of [f] over a list. *)
Fixpoint total {A : Type} (f : A -> nat) (l : list A) : nat :=
  match l with
  | [] => 0%nat
  | x :: l' => (f x + total f l')%nat
  end.

(** A call of [CloseAsync] that has swapped [running] and not yet closed
    [closeChan]. *)
Definition closing (c : CloserPc) : nat :=
  match c with ClClose => 1%nat | _ => 0%nat end.

(** The coordinator has not left the body of [loop]. *)
Definition in_loop (pc : CoordPc) : bool :=
  match pc with
  | CStart | CLoop | CGate | CGateEnter | CGateWait | CAcquire
  | CDispatch _ | CWgWait => true
  | _ => false
  end.

Definition poll_failed (e : error) : Action := AWrappedWait Second (Some e).

(** What the deferred function of [loop] has done when the coordinator is
    at [pc]. *)
Definition shutdown_stage (pc : CoordPc) (steps : list Action) : Prop :=
  match pc with
  | CDefCloseAsync => steps = [ACloseOut]
  | CDefWait =>
      exists errs, steps = ACloseOut :: AWrappedCloseAsync :: map poll_failed errs
  | CDefFinish =>
      exists errs, steps = ACloseOut :: AWrappedCloseAsync :: map poll_failed errs
                           ++ [AWrappedWait Second None]
  | CExited => exists errs, steps = shutdown_sequence errs
  | _ => steps = []
  end.

Section Invariants.

Context {W B : Type} {OW : OutputType W} {OB : BackOffType B}.

(** A struct as [NewRetry] returns it: running, no channel closed. *)
Definition fresh (r : Retry W B) : Prop :=
  running r = 1 /\ transactionsOut r = Open
  /\ closeChan r = Open /\ closedChan r = Open.

(** The running flag, the cancellation channel and the calls of
    [CloseAsync]: nobody has swapped yet, or one call has swapped and is
    about to close the channel, or it has closed it. *)
Definition lifecycle_inv (s : System W B) (tr : list Action) : Prop :=
  (running (retry s) = 1 /\ closeChan (retry s) = Open
   /\ swaps tr = 0%nat /\ cancels tr = 0%nat
   /\ Forall (fun c => c = ClCas) (closers s))
  \/ (running (retry s) = 0 /\ closeChan (retry s) = Open
      /\ swaps tr = 1%nat /\ cancels tr = 0%nat
      /\ total closing (closers s) = 1%nat)
  \/ (running (retry s) = 0 /\ closeChan (retry s) = Closed
      /\ swaps tr = 1%nat /\ cancels tr = 1%nat
      /\ total closing (closers s) = 0%nat).

(** The coordinator and the two channels it closes. *)
Definition coord_inv (s : System W B) (tr : list Action) : Prop :=
  shutdown_stage (coord s) (shutdown_steps tr)
  /\ transactionsOut (retry s)
     = (if in_loop (coord s) then Open
        else match coord s with CDefCloseOut => Open | _ => Closed end)
  /\ closedChan (retry s)
     = (match coord s with CExited => Closed | _ => Open end)
  /\ panicked s <> Some CloseOfClosedChannel.

(** The child reports closed at poll number [k + 1], and not before. *)
Fixpoint closes_after (k : nat) (w : W) : Prop :=
  match k with
  | O => snd (wWaitForClose w Second) = None
  | S k' => snd (wWaitForClose w Second) <> None
            /\ closes_after k' (fst (wWaitForClose w Second))
  end.

Definition is_done (pc : WorkerPc) : bool :=
  match pc with WDone => true | _ => false end.
Definition is_ack (res : ResOut) : bool :=
  match res with ResAck => true | _ => false end.
Definition is_noack (res : ResOut) : bool :=
  match res with ResNoack => true | _ => false end.
Definition one_if (b : bool) : nat := if b then 1%nat else 0%nat.

(** A worker that counts in [errLooped]: in its error loop and not
    returned. *)
Definition err_flag (w : Worker B) : nat :=
  one_if (inErrLoop w && negb (is_done (wpc w))).

(** A worker that has left [retryLoop]: a nil [resOut] means the running
    flag was seen cleared, and every failure but the one that exhausted
    the budget was followed by a resubmission. *)
Definition settled (run : Z) (i : nat) (w : Worker B) (tr : list Action) : Prop :=
  (resOut w = ResNil -> run <> 1)
  /\ (resubmissions i tr + one_if (is_noack (resOut w)))%nat = failures i tr.

Definition worker_stage (run : Z) (cc : Chan) (i : nat) (w : Worker B)
    (tr : list Action) : Prop :=
  match wpc w with
  | WLoop | WAwait =>
      resOut w = ResNil /\ responses i tr = []
      /\ resubmissions i tr = failures i tr
  | WSleep _ | WResubmit =>
      resOut w = ResNil /\ responses i tr = []
      /\ S (resubmissions i tr) = failures i tr
  | WRespond => responses i tr = [] /\ settled run i w tr
  | WDone =>
      (responses i tr = [] /\ cc = Closed)
      \/ (responses i tr = [resOut w] /\ settled run i w tr)
  end.

(** What the execution so far says about worker [i], whose backoff
    instances are made from [b0], when the running flag is [run] and the
    cancellation channel is [cc]. *)
Record worker_inv (b0 : B) (run : Z) (cc : Chan) (i : nat) (w : Worker B)
    (tr : list Action) : Prop := mk_worker_inv {
  wi_dispatch : dispatches i tr = 1%nat;
  wi_flag : inErrLoop w = negb (Nat.eqb (failures i tr) 0);
  wi_incr : increments i tr = one_if (inErrLoop w);
  wi_decr : decrements i tr = one_if (inErrLoop w && is_done (wpc w));
  wi_backoff : backOff w = match failures i tr with
                           | O => None
                           | S _ => Some (after_calls (failures i tr) b0)
                           end;
  wi_waits : forall j, (S j < failures i tr)%nat -> nth_backoff j b0 <> Stop;
  wi_last : forall j, failures i tr = S j ->
                      (nth_backoff j b0 = Stop <-> resOut w = ResNoack);
  wi_noack : failures i tr = 0%nat -> resOut w <> ResNoack;
  wi_succ : successes i tr = one_if (is_ack (resOut w));
  wi_eor : end_of_retries i tr = one_if (is_noack (resOut w));
  wi_stage : worker_stage run cc i w tr }.

(** Nothing in [tr] concerns worker [i] or its transaction. *)
Definition untouched (i : nat) (tr : list Action) : Prop :=
  (forall p, count (by_worker i p) tr = 0%nat)
  /\ responses i tr = [] /\ dispatches i tr = 0%nat.

Definition workers_inv (r0 : Retry W B) (s : System W B) (tr : list Action) : Prop :=
  backoffCtor (retry s) = backoffCtor r0
  /\ errLooped s = Z.of_nat (total err_flag (workers s))
  /\ (forall i w, workers s !! i = Some w ->
        worker_inv (backoffCtor r0 tt) (running (retry s)) (closeChan (retry s)) i w tr)
  /\ (forall i, (length (workers s) <= i)%nat -> untouched i tr).


End Invariants.

(** ** Schedules *)

(** The events of a worker whose delivery fails and is resubmitted once:
    the loop head, the failure response, the backoff timer, the
    resubmission accepted by the child. *)
Definition failing_round (i : nat) (err : error) : list Event :=
  [EWorker i WTau; EWorker i (WRecv (Some err)); EWorker i WTimer; EWorker i WSent].

Fixpoint failing_rounds (n : nat) (i : nat) (err : error) : list Event :=
  match n with
  | O => []
  | S n' => failing_round i err ++ failing_rounds n' i err
  end.

(** [n] failed deliveries with resubmission, one more failure, and the
    response taken by upstream. *)
Definition always_failing (n : nat) (i : nat) (err : error) : list Event :=
  failing_rounds n i err
  ++ [EWorker i WTau; EWorker i (WRecv (Some err)); EWorker i WTaken].

(** The coordinator starts, passes the gate, receives [t] and hands it to
    the child, starting worker 0. *)
Definition dispatch_first (t : Transaction) : list Event :=
  [ECoord CTau; ECoord CTau; ECoord CTau; ECoord (CRecv (Some t)); ECoord CSent].

(** The deferred function of [loop] against a child that needs [k] failed
    polls. *)
Definition deferred_steps (k : nat) : list Event :=
  repeat (ECoord CTau) (4 + k).

(** One transaction is dispatched; while its worker waits for the child's
    response, [CloseAsync] is called; worker and coordinator wind up. *)
Definition cancelled_schedule : list Event :=
  dispatch_first sample_tran
  ++ [EWorker 0 WTau; ECall; ECloser 0; ECloser 0; EWorker 0 WClosed;
      ECoord CTau; ECoord CTau]
  ++ deferred_steps 1.

(** One transaction is dispatched and always fails; upstream is then
    closed and the coordinator winds up. *)
Definition exhausted_schedule : list Event :=
  dispatch_first sample_tran
  ++ always_failing 2 0 "boom"%string
  ++ [ECoord CTau; ECoord CTau; ECoord (CRecv None)]
  ++ deferred_steps 1.

(** The coordinator passes the gate a second time; the first delivery then
    fails. *)
Definition late_failure_schedule : list Event :=
  dispatch_first sample_tran
  ++ [ECoord CTau; ECoord CTau; EWorker 0 WTau; EWorker 0 (WRecv (Some "boom"%string))].

(** Two calls of [CloseAsync], interleaved. *)
Definition two_calls_schedule : list Event :=
  [ECoord CTau; ECall; ECall; ECloser 1; ECloser 0; ECloser 1].

(** The state and the actions a schedule leads to from the sample output
    (the start itself if the schedule cannot run). *)
Definition outcome (es : list Event)
    : System SlowChild MaxRetriesBackOff * list Action :=
  match run es (started sample_retry) [] with
  | Some p => p
  | None => (started sample_retry, [])
  end.

(** A worker as the coordinator starts it for [sample_tran], and the
    system right after that. *)
Definition first_worker : Worker MaxRetriesBackOff :=
  mkWorker sample_tran 0 None ResNil false WLoop.

Definition after_dispatch : System SlowChild MaxRetriesBackOff * list Action :=
  outcome (dispatch_first sample_tran).

(** One transaction is dispatched; a call of [CloseAsync] clears the
    running flag; before it closes the cancellation channel the worker
    tests the flag, leaves its loop and has its nil [resOut] taken by
    upstream. *)
Definition nil_response_schedule : list Event :=
  dispatch_first sample_tran
  ++ [ECall; ECloser 0; EWorker 0 WTau; EWorker 0 WTaken].

Definition second_tran : Transaction := NewTransaction ["again"%string] 4.

(** The first delivery fails once and then succeeds; the worker returns
    while the coordinator, having read the counter as 1, has not yet
    started waiting in the gate, so that the interrupt is dropped. *)
Definition missed_interrupt_schedule : list Event :=
  dispatch_first sample_tran
  ++ [ECoord CTau; EWorker 0 WTau; EWorker 0 (WRecv (Some "boom"%string));
      ECoord CTau;
      EWorker 0 WTimer; EWorker 0 WSent; EWorker 0 WTau; EWorker 0 (WRecv None);
      EWorker 0 WTaken;
      ECoord CTau].

(** Upstream is closed while the first delivery is being retried: the
    coordinator closes the child's input, and the worker then resubmits. *)
Definition upstream_closed_schedule : list Event :=
  dispatch_first sample_tran
  ++ [ECoord CTau; ECoord CTau; ECoord (CRecv None); ECoord CTau;
      EWorker 0 WTau; EWorker 0 (WRecv (Some "boom"%string));
      EWorker 0 WTimer; EWorker 0 WSent].

(** Increments of the metric counters, over all workers. *)
Definition all_failures : list Action -> nat :=
  count (fun a => match a with AWorker _ (WFailure _) => true | _ => false end).
Definition all_successes : list Action -> nat :=
  count (fun a => match a with AWorker _ WSuccess => true | _ => false end).
Definition all_end_of_retries : list Action -> nat :=
  count (fun a => match a with AWorker _ WEndOfRetries => true | _ => false end).

(** ** Marshalling the configuration *)

(** What the [interface{}] field [Output] of [dummyRetryConfig] can hold:
    the pointer to the child configuration, possibly nil, or the empty
    struct. *)
Inductive OutputValue :=
| OutputPointer (p : option Config)
| OutputEmptyStruct.

Record dummyRetryConfig := mkDummy {
  dummy_Output : OutputValue;
  dummy_Config : retries.Config }.

(** [MarshalYAML]: returns the dummy, in which a nil [Output] has been
    replaced by the empty struct, and a nil error. *)
Definition MarshalYAML (r : RetryConfig) : dummyRetryConfig * option error :=
  let dummy := mkDummy (OutputPointer (Output r)) (Config_ r) in
  let dummy := match Output r with
               | None => mkDummy OutputEmptyStruct (dummy_Config dummy)
               | Some _ => dummy
               end in
  (dummy, None).

Section Marshalling.

(** The value type of decoded JSON ([interface{}]), with the empty struct,
    and the functions of encoding/json and of the package that retry.go
    calls: [json.Marshal] of a dummy and of a [RetryConfig],
    [json.Unmarshal] into an empty map, and [SanitiseConfig]. *)
Variable V : Type.
Variable empty_struct : V.
Variable json_Marshal_dummy : dummyRetryConfig -> string + error.
Variable json_Marshal : RetryConfig -> string + error.
Variable json_Unmarshal : string -> gmap string V + error.
Variable SanitiseConfig : Config -> V + error.

(** [MarshalJSON]: encodes the same dummy. *)
Definition MarshalJSON (r : RetryConfig) : string + error :=
  let dummy := mkDummy (OutputPointer (Output r)) (Config_ r) in
  let dummy := match Output r with
               | None => mkDummy OutputEmptyStruct (dummy_Config dummy)
               | Some _ => dummy
               end in
  json_Marshal_dummy dummy.

(** The [sanitiseConfigFunc] registered by [init]: the retry settings go
    through JSON into a map, whose "output" entry is then set to the
    sanitised child configuration, or to the empty struct without a
    child. *)
Definition sanitiseConfigFunc (conf : Config) : gmap string V + error :=
  match json_Marshal (Retry_ conf) with
  | inr err => inr err
  | inl confBytes =>
      match json_Unmarshal confBytes with
      | inr err => inr err
      | inl confMap =>
          let outputSanit :=
            match Output (Retry_ conf) with
            | None => inl empty_struct
            | Some child => SanitiseConfig child
            end in
          match outputSanit with
          | inr err => inr err
          | inl v => inl (<["output"%string := v]> confMap)
          end
      end
  end.

End Marshalling.

(** Stand-ins for the JSON functions: the encoding is the initial
    interval, the decoding a map with that one entry; a child of type
    "broken" cannot be sanitised. *)
Definition sample_json_Marshal (r : RetryConfig) : string + error :=
  inl (retries.InitialInterval (retries.Backoff_ (Config_ r))).
Definition sample_json_Unmarshal (b : string) : gmap string string + error :=
  inl (<["output"%string := "null"%string]> {["initial_interval"%string := b]}).
Definition sample_SanitiseConfig (c : Config) : string + error :=
  if String.eqb (Type_ c) "broken" then inr "unknown type"%string
  else inl (Type_ c).

Definition sample_retry_conf : Config :=
  mkConfig "retry"
    (mkRetryConfig (Some sample_child_conf)
       (retries.mkConfig 3 (retries.mkBackoff "100ms" "1s" "0s"))).

(** ** More readings of a system and of an execution *)

Section Readings.

Context {B : Type}.

(** A worker that has not returned, which is what the wait group
    counts. *)
Definition live_flag (w : Worker B) : nat := one_if (negb (is_done (wpc w))).

(** The parts of the payload of a worker whose delivery succeeded. *)
Definition acked_parts (w : Worker B) : nat :=
  if is_ack (resOut w) then length (Payload (ts w)) else 0%nat.

End Readings.

(** What the running gauge shows at [pc]: 1 from its increment at the
    start of [loop] to its decrement at the end of the deferred
    function. *)
Definition gauge (pc : CoordPc) : Z :=
  match pc with CStart | CExited => 0 | _ => 1 end.

(** The transactions received from upstream, in order. *)
Fixpoint pulled (tr : list Action) : list Transaction :=
  match tr with
  | [] => []
  | APull t :: tr' => t :: pulled tr'
  | _ :: tr' => pulled tr'
  end.

(** The payloads sent to the child with response channel [i]: the first
    delivery and the resubmissions, in order. *)
Fixpoint deliveries (i : nat) (tr : list Action) : list Message :=
  match tr with
  | [] => []
  | ADispatch p rc :: tr' =>
      if Nat.eqb rc i then p :: deliveries i tr' else deliveries i tr'
  | AWorker j (WResubmitted p) :: tr' =>
      if Nat.eqb j i then p :: deliveries i tr' else deliveries i tr'
  | _ :: tr' => deliveries i tr'
  end.

(** The responses written by worker [i], with the channel each was
    written to. *)
Fixpoint written (i : nat) (tr : list Action) : list (nat * ResOut) :=
  match tr with
  | [] => []
  | AWorker j (WResponded ch res) :: tr' =>
      if Nat.eqb j i then (ch, res) :: written i tr' else written i tr'
  | _ :: tr' => written i tr'
  end.

(** What was done after the running flag was swapped to 0 (nothing if it
    has not been). *)
Fixpoint after_swap (tr : list Action) : list Action :=
  match tr with
  | [] => []
  | ACas _ true :: tr' => tr'
  | _ :: tr' => after_swap tr'
  end.

(** ** Where transactions and responses go *)

Section Routing.

Context {W B : Type} {OW : OutputType W} {OB : BackOffType B}.

(** The transactions pulled and not handed to a worker: the one being
    dispatched, none elsewhere in the loop, at most one once the loop has
    been left. *)
Definition pending (pc : CoordPc) (rest : list Transaction) : Prop :=
  match pc with
  | CDispatch t => rest = [t]
  | _ => if in_loop pc then rest = [] else (length rest <= 1)%nat
  end.

(** Worker [i] listens on response channel [i]; everything delivered for
    it carries the payload of its transaction; resubmissions follow
    failures; and what it has written, once returned, is its [resOut] on
    the response channel of its transaction. *)
Definition routed (i : nat) (w : Worker B) (tr : list Action) : Prop :=
  resChan w = i
  /\ Forall (fun p => p = Payload (ts w)) (deliveries i tr)
  /\ (resubmissions i tr <= failures i tr <= S (resubmissions i tr))%nat
  /\ match wpc w with
     | WDone => written i tr = []
                \/ written i tr = [(ResponseChan (ts w), resOut w)]
     | _ => written i tr = []
     end.

Definition routing_inv (s : System W B) (tr : list Action) : Prop :=
  wg s = Z.of_nat (total live_flag (workers s))
  /\ (exists rest, pulled tr = map ts (workers s) ++ rest
                   /\ pending (coord s) rest)
  /\ (forall i w, workers s !! i = Some w -> routed i w tr)
  /\ (forall i, (length (workers s) <= i)%nat ->
         deliveries i tr = [] /\ written i tr = []).

End Routing.

(** The places of the coordinator from which no further transaction is
    pulled once the running flag is cleared: past the acquire select of
    the current iteration. *)
Definition past_acquire (pc : CoordPc) : Prop :=
  match pc with
  | CStart | CGate | CGateEnter | CGateWait | CAcquire => False
  | _ => True
  end.

(** The coordinator waits for upstream; the running flag is cleared; a
    transaction is then still pulled. *)
Definition late_pull_schedule : list Event :=
  [ECoord CTau; ECoord CTau; ECoord CTau; ECall; ECloser 0;
   ECoord (CRecv (Some sample_tran))].

(** Upstream is closed before any transaction has come. *)
Definition upstream_end_schedule : list Event :=
  [ECoord CTau; ECoord CTau; ECoord CTau; ECoord (CRecv None)].

(** One transaction is dispatched and [CloseAsync] runs to its end while
    the worker waits for the child's response. *)
Definition cancel_pending_schedule : list Event :=
  dispatch_first sample_tran ++ [EWorker 0 WTau; ECall; ECloser 0; ECloser 0].

(** The output that [NewRetry] builds from the sample configuration, the
    same output closed and then wired, and an output whose child refuses
    to be wired. *)
Definition built_retry : Retry SlowChild MaxRetriesBackOff :=
  mkRetry 1 (Retry_ sample_retry_conf) (mkSlowChild false false 0)
    (fun _ => mkMaxRetries (100 * Millisecond) 3 0)
    no_metrics None Open Open Open.
Definition closed_then_wired : Retry SlowChild MaxRetriesBackOff :=
  set_transactionsIn (Some 7%nat)
    (set_wrapped (mkSlowChild true false 0)
       (set_closeChan Closed (set_running 0 built_retry))).
Definition refused_retry : Retry SlowChild MaxRetriesBackOff :=
  set_transactionsIn None sample_retry.

(** ** Workers that return *)

Section Returning.

Context {W B : Type} {OW : OutputType W} {OB : BackOffType B}.

(** Running the events [es] from [s], worker [i], which was [w], returns
    with [res] as its [resOut]: [errLooped] goes down by what the worker
    counted in it, and over the whole execution the worker has then
    subtracted from the counter as often as it has added to it, once if
    it has received a failure and never otherwise. *)
Definition returns_by (i : nat) (es : list Event) (s : System W B)
    (tr : list Action) (w : Worker B) (res : ResOut) : Prop :=
  exists s' tr' w',
    run es s tr = Some (s', tr')
    /\ workers s' !! i = Some w' /\ wpc w' = WDone /\ resOut w' = res
    /\ errLooped s' = errLooped s - Z.of_nat (err_flag w)
    /\ decrements i tr' = increments i tr'
    /\ increments i tr' = Nat.min 1 (failures i tr').

(** The events of worker [i], and those of the calls of [CloseAsync]. *)
Definition of_worker (i : nat) (e : Event) : Prop := exists x, e = EWorker i x.
Definition of_calls (e : Event) : Prop := exists j, e = ECloser j.

End Returning.

(** One transaction has failed twice and been resubmitted twice; its
    worker waits for the third response. *)
Definition retrying_schedule : list Event :=
  dispatch_first sample_tran ++ failing_rounds 2 0 "boom"%string ++ [EWorker 0 WTau].

(** The loop has started and two calls of [CloseAsync] have arrived. *)
Definition two_calls_pending : list Event := [ECoord CTau; ECall; ECall].

(** ** An output closed before it is wired *)

Section EarlyClose.

Context {W B : Type} {OW : OutputType W} {OB : BackOffType B}.

(** [n] calls of [CloseAsync], one after the other; [None] is a panic. *)
Fixpoint CloseAsync_times (n : nat) (r : Retry W B) : option (Retry W B) :=
  match n with
  | O => Some r
  | S n' => match CloseAsync r with
            | Some r' => CloseAsync_times n' r'
            | None => None
            end
  end.

(** What holds throughout a [loop] that was started with the running flag
    cleared and the cancellation channel closed. *)
Definition stopped_inv (s : System W B) (tr : list Action) : Prop :=
  running (retry s) = 0 /\ closeChan (retry s) = Closed
  /\ workers s = [] /\ wg s = 0 /\ panicked s = None
  /\ pulls tr = 0%nat
  /\ Forall (fun c => c <> ClClose) (closers s)
  /\ match coord s with
     | CStart | CLoop | CWgWait | CDefCloseOut =>
         transactionsOut (retry s) = Open /\ closedChan (retry s) = Open
     | CDefCloseAsync | CDefWait | CDefFinish => closedChan (retry s) = Open
     | CExited => True
     | _ => False
     end.

(** The steps of such a [loop]: the gauge, the test of the flag,
    [wg.Wait()], and the deferred function against a child that needs
    [k] failed polls. *)
Definition stopped_loop_steps (k : nat) : list Event :=
  repeat (ECoord CTau) 3 ++ deferred_steps k.

End EarlyClose.

(** * Properties *)

(** ** Configuration and construction *)

(** C10. [NewRetryConfig] returns a nil [Output] and, as its retry
    settings, the value of [retries.NewConfig()] itself, whatever that value
    is; the overrides (max retries 0, intervals 100ms and 1s, elapsed time
    0s) are only written to the discarded local. *)
Theorem NewRetryConfig_returns_library_defaults (d : retries.Config) :
  NewRetryConfig d = mkRetryConfig None d
  /\ Output (NewRetryConfig d) = None
  /\ Config_ (NewRetryConfig d) = d
  /\ overridden_defaults d =
       retries.mkConfig 0 (retries.mkBackoff "100ms" "1s" "0s").
Proof.
  repeat split.
Qed.

(** With defaults that differ from the overrides, the result differs from
    what the overrides describe. *)
Example NewRetryConfig_not_overridden :
  let d := retries.mkConfig 0 (retries.mkBackoff "500ms" "3s" "0s") in
  Config_ (NewRetryConfig d) <> overridden_defaults d.
Proof.
  cbv. discriminate.
Qed.

Section ConstructionProperties.

Context {W B : Type} {OW : OutputType W} {OB : BackOffType B}.
Variable New : Config -> W + error.
Variable GetCtor : retries.Config -> (unit -> B) + error.

(** C8, amended. [NewRetry] fails exactly when the child configuration is
    absent, or the child fails to construct, or the backoff settings are
    rejected by [GetCtor]. When the child fails, the error is the child's
    error wrapped with the child's type name; a [GetCtor] error is
    returned as it is; and on success the output is running, unwired and
    has none of its channels closed. *)
Theorem NewRetry_failure_cases (c : Config) (st : Metrics) :
  (is_error (NewRetry New GetCtor c st) <->
     Output (Retry_ c) = None
     \/ (exists child e, Output (Retry_ c) = Some child /\ New child = inr e)
     \/ (exists child w e, Output (Retry_ c) = Some child /\ New child = inl w
                           /\ GetCtor (Config_ (Retry_ c)) = inr e))
  /\ match Output (Retry_ c) with
     | None => NewRetry New GetCtor c st
               = inr "cannot create retry output without a child"%string
     | Some child =>
         match New child with
         | inr e => NewRetry New GetCtor c st
                    = inr (failed_to_create (Type_ child) e)
         | inl w =>
             match GetCtor (Config_ (Retry_ c)) with
             | inr e => NewRetry New GetCtor c st = inr e
             | inl ctor =>
                 NewRetry New GetCtor c st
                 = inl (mkRetry 1 (Retry_ c) w ctor st None Open Open Open)
             end
         end
     end.
Proof.
  unfold NewRetry.
  destruct (Output (Retry_ c)) as [child|] eqn:Ho.
  - destruct (New child) as [w|e] eqn:Hn.
    + destruct (GetCtor (Config_ (Retry_ c))) as [ctor|e] eqn:Hg; simpl.
      * split; [|reflexivity]. split; [tauto|].
        intros [Hc|[(ch & e & Hc & Hf)|(ch & w' & e & Hc & _ & Hf)]];
          try discriminate.
        inversion Hc; subst ch. congruence.
      * split; [|reflexivity]. split; [|tauto].
        intros _. right. right. exists child, w, e. auto.
    + simpl. split; [|reflexivity]. split; [|tauto].
      intros _. right. left. exists child, e. auto.
  - simpl. split; [|reflexivity]. split; auto.
Qed.

(** ** Wiring *)

(** C7, amended. After a first [Consume] that succeeded and stored a
    non-nil channel, a second [Consume] returns the already-started
    error, starts no second loop, does not reach the child, and leaves
    the whole struct, stored upstream channel and child included, as the
    first call left it. After a first [Consume] that succeeded with a nil
    channel the guard does not fire: the second call is passed to the
    child and its outcome is the child's; when the child accepts, the
    call succeeds, stores the new channel and starts a second loop. *)
Theorem Consume_twice_already_started (r r1 : Retry W B) (ts1 ts2 : option nat) :
  Consume ts1 r = (r1, true, None) ->
  transactionsIn r1 = ts1
  /\ wConsume (wrapped r) = (wrapped r1, None)
  /\ (ts1 <> None -> Consume ts2 r1 = (r1, false, Some ErrAlreadyStarted))
  /\ (ts1 = None ->
      Consume ts2 r1
      = match wConsume (wrapped r1) with
        | (w2, Some e) => (set_wrapped w2 r1, false, Some e)
        | (w2, None) => (set_transactionsIn ts2 (set_wrapped w2 r1), true, None)
        end).
Proof.
  unfold Consume. intros H1.
  destruct (transactionsIn r) eqn:Hin; [discriminate|].
  destruct (wConsume (wrapped r)) as [w' [e|]] eqn:Hw; [discriminate|].
  inversion H1; subst r1; clear H1. simpl.
  split; [reflexivity|]. split; [reflexivity|]. split.
  - destruct ts1 as [ch|]; [reflexivity|congruence].
  - intros ->. destruct (wConsume w') as [w2 [e|]]; reflexivity.
Qed.

(** ** Waiting for the end *)

(** C6, amended. When [WaitForClose] returns, it returns the timeout
    error only if the timeout had elapsed and nil only if the closed
    signal had fired; with the signal not fired it returns the timeout
    error, and with the signal fired and the timeout not yet elapsed it
    returns nil. *)
Theorem WaitForClose_result (r : Retry W B) (timeout elapsed : Duration)
    (pick : bool) (res : option error) :
  WaitForClose r timeout elapsed pick = Some res ->
  match res with
  | Some e => e = ErrTimeout /\ timeout <= elapsed
  | None => closedChan r = Closed
  end
  /\ (closedChan r = Open -> res = Some ErrTimeout)
  /\ (elapsed < timeout -> res = None).
Proof.
  unfold WaitForClose.
  destruct (closedChan r); simpl;
    destruct (Z.leb_spec timeout elapsed); try destruct pick;
    intros Hr; inversion Hr; subst; repeat split;
    try lia; try congruence; try discriminate.
Qed.

End ConstructionProperties.

(** C8, as stated, fails: with a child that is present and constructs,
    [NewRetry] still fails when the backoff settings are rejected. *)
Lemma NewRetry_fails_on_backoff_settings :
  is_error (NewRetry sample_New sample_GetCtor bad_backoff_conf no_metrics)
  /\ ~ (Output (Retry_ bad_backoff_conf) = None
        \/ exists child e, Output (Retry_ bad_backoff_conf) = Some child
                           /\ sample_New child = inr e).
Proof.
  split; [exact I|].
  intros [Hc|(child & e & _ & Hc)]; discriminate.
Qed.

(** The second call of C7 on the sample output, wired to channel 7. *)
Lemma Consume_twice_already_started_witness :
  Consume (Some 9%nat) sample_retry = (sample_retry, false, Some ErrAlreadyStarted).
Proof.
  refine (proj1 (proj2 (proj2
            (Consume_twice_already_started
               (set_transactionsIn None
                  (set_wrapped (mkSlowChild false false 1) sample_retry))
               sample_retry (Some 7%nat) (Some 9%nat) _))) _).
  - reflexivity.
  - discriminate.
Defined.

(** C7, as stated, fails: a first call with a nil channel succeeds and
    leaves the guard open, and with a child that accepts a second wiring
    the second call succeeds as well, stores its channel and starts a
    second loop. *)
Lemma Consume_nil_channel_lax_child :
  let r := mkRetry 1 (mkRetryConfig None (retries.mkConfig 0 (retries.mkBackoff "" "" "")))
             (mkLaxChild 0) (fun _ => mkMaxRetries 0 0 0) no_metrics None Open Open Open in
  let r1 := set_wrapped (mkLaxChild 1) r in
  Consume None r = (r1, true, None)
  /\ Consume (Some 5%nat) r1
     = (set_transactionsIn (Some 5%nat) (set_wrapped (mkLaxChild 2) r1), true, None).
Proof.
  split; reflexivity.
Qed.

(** The wrapped error carries the child's type name and the child's
    error. *)
Example failed_to_create_text :
  failed_to_create "stdout"%string "no such device"%string
  = "failed to create output 'stdout': no such device"%string.
Proof.
  reflexivity.
Qed.

(** C6, as stated, fails: the closed signal has fired, and a call whose
    timer is already due (a zero timeout) may still return the timeout
    error. *)
Lemma WaitForClose_timeout_after_closed :
  closedChan (set_closedChan Closed sample_retry) = Closed
  /\ WaitForClose (set_closedChan Closed sample_retry) 0 0 true
     = Some (Some ErrTimeout).
Proof.
  split; reflexivity.
Qed.

Lemma WaitForClose_result_witness :
  (closedChan (set_closedChan Closed sample_retry) = Closed)
  /\ (closedChan (set_closedChan Closed sample_retry) = Open -> None = Some ErrTimeout)
  /\ (0 < Second -> @None error = None).
Proof.
  apply (WaitForClose_result (set_closedChan Closed sample_retry) Second 0 false None).
  reflexivity.
Defined.

(** ** Executions *)

Lemma count_app (p : Action -> bool) (a b : list Action) :
  count p (a ++ b) = (count p a + count p b)%nat.
Proof.
  induction a as [|x a IH]; simpl; [reflexivity|]. rewrite IH. lia.
Qed.

Lemma responses_app (i : nat) (a b : list Action) :
  responses i (a ++ b) = responses i a ++ responses i b.
Proof.
  induction a as [|x a IH]; simpl; [reflexivity|].
  destruct x as [j [| | | | | |ch res]| | | | | | | | | | |]; simpl; auto.
  destruct (Nat.eqb j i); simpl; congruence.
Qed.

Lemma shutdown_steps_app (a b : list Action) :
  shutdown_steps (a ++ b) = shutdown_steps a ++ shutdown_steps b.
Proof.
  unfold shutdown_steps. induction a as [|x a IH]; simpl; [reflexivity|].
  destruct (is_shutdown x); simpl; congruence.
Qed.

Lemma total_app {A : Type} (f : A -> nat) (a b : list A) :
  total f (a ++ b) = (total f a + total f b)%nat.
Proof.
  induction a as [|x a IH]; simpl; [reflexivity|]. rewrite IH. lia.
Qed.

Lemma total_insert {A : Type} (f : A -> nat) (l : list A) (i : nat) (x y : A) :
  l !! i = Some x ->
  (total f (<[i := y]> l) + f x = total f l + f y)%nat.
Proof.
  revert i. induction l as [|z l IH]; intros [|i] Hl; simpl in *; try discriminate.
  - inversion Hl; subst. lia.
  - specialize (IH i Hl). lia.
Qed.

Section ExecutionProperties.

Context {W B : Type} {OW : OutputType W} {OB : BackOffType B}.

(** A property that holds at the start and is kept by every step holds
    along every execution. *)
Lemma execution_invariant (I : System W B -> list Action -> Prop) (s0 : System W B) :
  I s0 [] ->
  (forall s tr e s' acts,
      execution s0 s tr -> I s tr -> step e s = Some (s', acts) -> I s' (tr ++ acts)) ->
  forall s tr, execution s0 s tr -> I s tr.
Proof.
  intros H0 Hstep s tr Hex. induction Hex; eauto.
Qed.

(** A schedule that runs is an execution. *)
Lemma run_execution (s0 : System W B) (es : list Event) :
  forall s tr s' tr',
    execution s0 s tr -> run es s tr = Some (s', tr') -> execution s0 s' tr'.
Proof.
  induction es as [|e es IH]; simpl; intros s tr s' tr' Hex Hrun.
  - inversion Hrun; subst. exact Hex.
  - destruct (step e s) as [[s1 acts]|] eqn:Hs; [|discriminate].
    eapply IH; [|exact Hrun]. econstructor; eauto.
Qed.

(** What a step of a worker leaves alone. *)
Lemma worker_step_frame (i : nat) (e : WEvent) (s s' : System W B) (acts : list Action) :
  worker_step i e s = Some (s', acts) ->
  running (retry s') = running (retry s)
  /\ closeChan (retry s') = closeChan (retry s)
  /\ closedChan (retry s') = closedChan (retry s)
  /\ transactionsOut (retry s') = transactionsOut (retry s)
  /\ transactionsIn (retry s') = transactionsIn (retry s)
  /\ backoffCtor (retry s') = backoffCtor (retry s)
  /\ closers s' = closers s
  /\ (panicked s' = panicked s \/ panicked s' = Some SendOnClosedChannel
      \/ panicked s' = Some NilResponse)
  /\ (coord s' = coord s \/ (coord s = CGateWait /\ coord s' = CGate))
  /\ swaps acts = 0%nat /\ cancels acts = 0%nat /\ pulls acts = 0%nat
  /\ shutdown_steps acts = [].
Proof.
  unfold worker_step, worker_exit. intros Hs.
  repeat case_match; simplify_eq; simpl;
    repeat split; auto; try (destruct (coord s); simpl; auto).
Qed.

Lemma swaps_app (a b : list Action) : swaps (a ++ b) = (swaps a + swaps b)%nat.
Proof. apply count_app. Qed.
Lemma cancels_app (a b : list Action) : cancels (a ++ b) = (cancels a + cancels b)%nat.
Proof. apply count_app. Qed.

Lemma lifecycle_inv_frame (s s' : System W B) (tr acts : list Action) :
  lifecycle_inv s tr ->
  running (retry s') = running (retry s) ->
  closeChan (retry s') = closeChan (retry s) ->
  closers s' = closers s ->
  swaps acts = 0%nat -> cancels acts = 0%nat ->
  lifecycle_inv s' (tr ++ acts).
Proof.
  unfold lifecycle_inv. intros Hi Hr Hc Hcl Hs Hcan.
  rewrite swaps_app, cancels_app, Hr, Hc, Hcl, Hs, Hcan, !Nat.add_0_r. exact Hi.
Qed.

Lemma total_lookup_le {A : Type} (f : A -> nat) (l : list A) (i : nat) (x : A) :
  l !! i = Some x -> (f x <= total f l)%nat.
Proof.
  revert i. induction l as [|z l IH]; intros [|i] Hl; simpl in *; try discriminate.
  - inversion Hl; subst. lia.
  - specialize (IH i Hl). lia.
Qed.

Lemma no_call_closing (cl : list CloserPc) :
  Forall (fun c => c = ClCas) cl -> total closing cl = 0%nat.
Proof.
  induction 1 as [|c cl Hc _ IH]; simpl; [reflexivity|]. subst c. exact IH.
Qed.

Lemma lifecycle_coord_step (s s' : System W B) (tr acts : list Action) (e : Event) :
  lifecycle_inv s tr -> coord_inv s tr ->
  step e s = Some (s', acts) ->
  lifecycle_inv s' (tr ++ acts) /\ coord_inv s' (tr ++ acts).
Proof.
  intros Hl Hc Hs. unfold step in Hs.
  destruct (panicked s) eqn:Hp; [discriminate|].
  destruct e as [ce|i we| |j].
  - (* the coordinator *)
    split.
    + eapply lifecycle_inv_frame; eauto;
        unfold coord_step in Hs; repeat case_match; simplify_eq; reflexivity.
    + destruct Hc as (Hst & Hout & Hcl & Hpn).
      unfold coord_inv, coord_step in *.
      repeat case_match; simplify_eq; simpl in *;
        rewrite ?shutdown_steps_app; simpl; rewrite ?app_nil_r;
        repeat split; auto; try congruence; try discriminate.
      * rewrite Hst. reflexivity.
      * rewrite Hst. exists []. reflexivity.
      * destruct Hst as [errs ->]. exists (errs ++ [e]).
        rewrite map_app. reflexivity.
      * destruct Hst as [errs ->]. exists errs. reflexivity.
      * destruct Hst as [errs ->]. exists errs. unfold shutdown_sequence.
        simpl. rewrite <- app_assoc. reflexivity.
  - (* a worker *)
    apply worker_step_frame in Hs.
    destruct Hs as (Hr & Hcc & Hcd & Hto & _ & _ & Hcl & Hpn & Hco & Hsw & Hca & _ & Hsh).
    split; [eapply lifecycle_inv_frame; eauto|].
    destruct Hc as (Hst & Hout & Hcld & Hp').
    unfold coord_inv. rewrite shutdown_steps_app, Hsh, app_nil_r, Hcd, Hto.
    destruct Hco as [-> | [Hw ->]].
    + repeat split; auto. destruct Hpn as [-> | [-> | ->]]; [auto|discriminate..].
    + rewrite Hw in *. repeat split; auto.
      destruct Hpn as [-> | [-> | ->]]; [auto|discriminate..].
  - (* a new call of CloseAsync *)
    inversion Hs; subst; clear Hs. rewrite app_nil_r. split; [|exact Hc].
    unfold lifecycle_inv in *; simpl.
    rewrite total_app; simpl. rewrite !Nat.add_0_r.
    destruct Hl as [(?&?&?&?&Hf)|Hl]; [|exact (or_intror Hl)].
    left. repeat split; auto. apply Forall_app; split; auto.
  - (* a call of CloseAsync goes on *)
    unfold closer_step, CompareAndSwap_running, close_closeChan in Hs.
    destruct (closers s !! j) as [c|] eqn:Hj; [|discriminate].
    pose proof (total_lookup_le closing _ _ _ Hj) as Hle.
    pose proof (total_insert closing _ _ _ ClClose Hj) as Hins1.
    pose proof (total_insert closing _ _ _ ClReturned Hj) as Hins2.
    assert (Hframe : forall (s1 : System W B) a,
               coord s1 = coord s ->
               closedChan (retry s1) = closedChan (retry s) ->
               transactionsOut (retry s1) = transactionsOut (retry s) ->
               is_shutdown a = false ->
               panicked s1 = None ->
               coord_inv s1 (tr ++ [a])).
    { intros s1 a E0 E1 E2 Ea Ep. destruct Hc as (Hst & Hout & Hcld & Hp').
      unfold coord_inv. rewrite shutdown_steps_app. simpl.
      rewrite Ea, app_nil_r, E0, E1, E2, Ep. repeat split; auto; discriminate. }
    unfold lifecycle_inv in *.
    destruct c; [| |discriminate]; simpl in Hs.
    + destruct (Z.eqb_spec (running (retry s)) 1) as [Hrun|Hrun];
        inversion Hs; subst; clear Hs;
        (split; [|apply Hframe; auto]);
        simpl; rewrite swaps_app, cancels_app; unfold swaps, cancels in *; simpl in *.
      * (* the swap succeeds *)
        destruct Hl as [(?&?&?&?&Hf)|[(?&?)|(?&?)]]; [|congruence|congruence].
        apply no_call_closing in Hf. right. left. repeat split; auto; lia.
      * (* the swap fails *)
        destruct Hl as [(?&?&?&?&Hf)|[(?&?&?&?&?)|(?&?&?&?&?)]];
          [lia | right; left | right; right];
          repeat split; auto; lia.
    + destruct (closeChan (retry s)) eqn:Hcc; inversion Hs; subst; clear Hs.
      * (* the channel is closed *)
        split; [|apply Hframe; auto].
        simpl; rewrite swaps_app, cancels_app; unfold swaps, cancels in *; simpl in *.
        destruct Hl as [(?&?&?&?&Hf)|[(?&?&?&?&?)|(?&?&?&?&?)]].
        -- apply no_call_closing in Hf. lia.
        -- right. right. repeat split; auto; lia.
        -- congruence.
      * (* close of the closed channel: excluded *)
        exfalso.
        destruct Hl as [(?&?&?&?&Hf)|[Hl|Hl]]; [congruence|intuition congruence|].
        destruct Hl as (?&?&?&?&?). simpl in Hle. lia.
Qed.

Lemma lifecycle_coord_invariant (r0 : Retry W B) (s : System W B) (tr : list Action) :
  fresh r0 -> execution (started r0) s tr ->
  lifecycle_inv s tr /\ coord_inv s tr.
Proof.
  intros (Hr & Ho & Hc & Hd) Hex.
  apply (execution_invariant (fun s tr => lifecycle_inv s tr /\ coord_inv s tr)
           (started r0)); [| |exact Hex].
  - split.
    + left. simpl. repeat split; auto.
    + unfold coord_inv; simpl. repeat split; auto; discriminate.
  - intros s1 tr1 e s2 acts _ [Hl Hco] Hs. eapply lifecycle_coord_step; eauto.
Qed.

(** *** Workers *)

Lemma untouched_app (i : nat) (tr acts : list Action) :
  untouched i acts ->
  (forall p, count (by_worker i p) (tr ++ acts) = count (by_worker i p) tr)
  /\ responses i (tr ++ acts) = responses i tr
  /\ dispatches i (tr ++ acts) = dispatches i tr.
Proof.
  intros (Hc & Hr & Hd). unfold dispatches in *. split; [|split].
  - intros p. rewrite count_app, Hc. lia.
  - rewrite responses_app, Hr. apply app_nil_r.
  - rewrite count_app, Hd. lia.
Qed.

Lemma worker_inv_frame (b0 : B) (run run' : Z) (cc cc' : Chan) (i : nat)
    (w : Worker B) (tr acts : list Action) :
  worker_inv b0 run cc i w tr ->
  (run <> 1 -> run' <> 1) -> (cc = Closed -> cc' = Closed) ->
  untouched i acts ->
  worker_inv b0 run' cc' i w (tr ++ acts).
Proof.
  intros [] Hrun Hcc Hq. apply untouched_app with (tr := tr) in Hq.
  destruct Hq as (Hc & Hr & Hd).
  unfold worker_stage, settled, failures, successes, increments, decrements,
    end_of_retries, resubmissions in *.
  constructor; unfold worker_stage, settled, failures, successes, increments,
    decrements, end_of_retries, resubmissions; rewrite ?Hc, ?Hr, ?Hd; auto.
  destruct (wpc w); intuition auto.
Qed.

Ltac unfold_counters :=
  unfold worker_stage, settled, failures, successes, increments, decrements,
    end_of_retries, resubmissions, dispatches in *.

Ltac fold_counters j tr :=
  fold (failures j tr) in *; fold (successes j tr) in *;
  fold (increments j tr) in *; fold (decrements j tr) in *;
  fold (end_of_retries j tr) in *; fold (resubmissions j tr) in *;
  fold (dispatches j tr) in *.

Lemma worker_step_own (b0 : B) (j : nat) (e : WEvent) (s s' : System W B)
    (acts tr : list Action) (w : Worker B) :
  worker_step j e s = Some (s', acts) ->
  workers s !! j = Some w ->
  backoffCtor (retry s) tt = b0 ->
  worker_inv b0 (running (retry s)) (closeChan (retry s)) j w tr ->
  (exists p, s' = set_panicked (Some p) s /\ acts = [APanic p])
  \/ (exists w',
        workers s' = <[j := w']> (workers s)
        /\ (forall i, i <> j -> untouched i acts)
        /\ worker_inv b0 (running (retry s)) (closeChan (retry s)) j w' (tr ++ acts)
        /\ errLooped s' + Z.of_nat (err_flag w) = errLooped s + Z.of_nat (err_flag w')).
Proof.
  intros Hs Hw Hb Hinv. unfold worker_step in Hs. rewrite Hw in Hs.
  destruct w as [t rc bo ro iel pc]. simpl in Hs.
  unfold worker_exit in Hs.
  destruct pc, e; try discriminate; simpl in Hs.
  2: { (* a response arrives *)
    destruct Hinv as [Hd Hf Hi Hde Hbo Hwa Hla Hno Hsu Heo (Hro & Hre & Hrs)].
    simpl in *. subst ro.
    destruct res as [err|].
    - (* a failure *)
      assert (Hcalls : match bo with
                       | Some b => b
                       | None => backoffCtor (retry s) ()
                       end = after_calls (failures j tr) b0).
      { rewrite Hbo, <- Hb. destruct (failures j tr); reflexivity. }
      rewrite Hcalls in Hs.
      destruct (NextBackOff (after_calls (failures j tr) b0)) as [d b'] eqn:Hnb.
      assert (Hd' : nth_backoff (failures j tr) b0 = d)
        by (unfold nth_backoff; rewrite Hnb; reflexivity).
      assert (Hb' : after_calls (S (failures j tr)) b0 = b')
        by (simpl; rewrite Hnb; reflexivity).
      assert (Hprev : forall j0, (S j0 < S (failures j tr))%nat ->
                                 nth_backoff j0 b0 <> Stop).
      { intros j0 Hlt. destruct (decide (S j0 = failures j tr)) as [Heq|Hneq].
        - intros Hstop. symmetry in Heq. apply (Hla _ Heq) in Hstop. discriminate.
        - apply Hwa. lia. }
      destruct (Z.eqb_spec d Stop) as [Hstop|Hstop]; destruct iel; simplify_eq;
        right; (eexists; split; [reflexivity|]);
        (split; [intros i Hne; apply Nat.eqb_neq in Hne; rewrite Nat.eqb_sym in Hne;
                 unfold untouched, dispatches; simpl; rewrite ?Hne; simpl; auto|]);
        (split; [|unfold err_flag, one_if; simpl; try lia]);
        (constructor; simpl; unfold_counters; simpl in *;
         rewrite ?count_app, ?responses_app; simpl; rewrite ?Nat.eqb_refl; simpl;
         rewrite ?Nat.add_0_r, ?app_nil_r, ?Nat.add_1_r; fold_counters j tr; auto);
        try lia; try discriminate;
        try (intros j0 Hj0; inversion Hj0; subst j0; intuition congruence).
    - (* a success *)
      simplify_eq; right; (eexists; split; [reflexivity|]);
        (split; [intros i Hne; apply Nat.eqb_neq in Hne; rewrite Nat.eqb_sym in Hne;
                 unfold untouched, dispatches; simpl; rewrite ?Hne; simpl; auto|]);
        (split; [|unfold err_flag, one_if; simpl; try lia]);
        (constructor; simpl; unfold_counters; simpl in *;
         rewrite ?count_app, ?responses_app; simpl; rewrite ?Nat.eqb_refl; simpl;
         rewrite ?Nat.add_0_r, ?app_nil_r, ?Nat.add_1_r; fold_counters j tr; auto);
        try lia; try discriminate.
      intros j0 Hj0. specialize (Hla j0 Hj0). split; intros Hx; [|discriminate].
      apply Hla in Hx. discriminate. }
  all: repeat case_match; simplify_eq;
    try (left; eexists; split; reflexivity); right;
    (eexists; split; [reflexivity|]);
    (split; [intros i Hne; apply Nat.eqb_neq in Hne; rewrite Nat.eqb_sym in Hne;
             unfold untouched, dispatches; simpl; rewrite ?Hne; simpl; auto|]).
  all: destruct Hinv as [Hd Hf Hi Hde Hbo Hwa Hla Hno Hsu Heo Hst]; simpl in *.
  all: split; [|unfold err_flag, one_if; simpl; try lia].
  all: try (constructor; simpl; unfold_counters; simpl in *;
    rewrite ?count_app, ?responses_app; simpl; rewrite ?Nat.eqb_refl; simpl;
    rewrite ?Nat.add_0_r, ?app_nil_r, ?Nat.add_1_r; fold_counters j tr; auto).
  all: repeat match goal with
              | H : _ /\ _ |- _ => destruct H
              | H : is_closed ?c = true |- _ =>
                  destruct c eqn:?; simpl in H; [discriminate|clear H]
              | H : (_ =? 1) = false |- _ => apply Z.eqb_neq in H
              | H : responses _ _ = [] |- _ => rewrite H in *; clear H
              | H : ?x = ResNil |- _ => subst x
              end; simpl in *;
    try solve [intuition (try congruence; try lia; try discriminate)].
Qed.

Lemma untouched_quiet (i : nat) (a : Action) :
  match a with AWorker _ _ | ADispatch _ _ => False | _ => True end ->
  untouched i [a].
Proof.
  destruct a; simpl; intros Hq; try contradiction; repeat split.
Qed.

Lemma untouched_quiet_dispatch (i rc : nat) (p : Message) :
  i <> rc -> untouched i [ADispatch p rc].
Proof.
  intros Hne. apply Nat.eqb_neq in Hne. rewrite Nat.eqb_sym in Hne.
  unfold untouched, dispatches. simpl. rewrite Hne. repeat split.
Qed.

Lemma untouched_nil (i : nat) : untouched i [].
Proof. repeat split. Qed.

(** The coordinator touches the workers only by starting one. *)
Lemma coord_step_workers (e : CEvent) (s s' : System W B) (acts : list Action) :
  coord_step e s = Some (s', acts) ->
  running (retry s') = running (retry s)
  /\ closeChan (retry s') = closeChan (retry s)
  /\ backoffCtor (retry s') = backoffCtor (retry s)
  /\ errLooped s' = errLooped s
  /\ ((workers s' = workers s /\ forall i, untouched i acts)
      \/ exists tran,
           workers s' = workers s
                          ++ [mkWorker tran (length (workers s)) None ResNil false WLoop]
           /\ acts = [ADispatch (Payload tran) (length (workers s))]).
Proof.
  unfold coord_step. intros Hs.
  repeat case_match; simplify_eq; simpl; repeat split; auto;
    try (left; split; [reflexivity|intros i; repeat split]);
    try (right; eexists; split; reflexivity).
Qed.

Lemma closer_step_workers (j : nat) (s s' : System W B) (acts : list Action) :
  closer_step j s = Some (s', acts) ->
  (running (retry s) <> 1 -> running (retry s') <> 1)
  /\ (closeChan (retry s) = Closed -> closeChan (retry s') = Closed)
  /\ backoffCtor (retry s') = backoffCtor (retry s)
  /\ errLooped s' = errLooped s
  /\ workers s' = workers s /\ forall i, untouched i acts.
Proof.
  unfold closer_step, CompareAndSwap_running, close_closeChan. intros Hs.
  repeat case_match; simplify_eq; simpl; repeat split; auto; try congruence.
Qed.

Lemma workers_inv_step (r0 : Retry W B) (s s' : System W B)
    (tr acts : list Action) (e : Event) :
  workers_inv r0 s tr -> step e s = Some (s', acts) ->
  workers_inv r0 s' (tr ++ acts).
Proof.
  intros (Hb & He & Hw & Hu) Hs. unfold step in Hs.
  destruct (panicked s) eqn:Hp; [discriminate|].
  assert (Hquiet : forall s1 : System W B,
             (running (retry s) <> 1 -> running (retry s1) <> 1) ->
             (closeChan (retry s) = Closed -> closeChan (retry s1) = Closed) ->
             backoffCtor (retry s1) = backoffCtor (retry s) ->
             errLooped s1 = errLooped s ->
             workers s1 = workers s ->
             (forall i, untouched i acts) ->
             workers_inv r0 s1 (tr ++ acts)).
  { intros s1 Hr Hc Hb1 He1 Hw1 Hq. unfold workers_inv.
    rewrite Hb1, He1, Hw1. split; [|split; [|split]]; auto.
    - intros i w Hi. eapply worker_inv_frame; eauto.
    - intros i Hi. specialize (Hu i Hi). destruct Hu as (Hc1 & Hr1 & Hd1).
      destruct (untouched_app i tr acts (Hq i)) as (Hc2 & Hr2 & Hd2).
      repeat split; intros; rewrite ?Hc2, ?Hr2, ?Hd2; auto. }
  destruct e as [ce|j we| |j].
  - (* the coordinator *)
    apply coord_step_workers in Hs.
    destruct Hs as (Hr & Hc & Hb1 & He1 & [[Hw1 Hq]|[tran [Hw1 ->]]]).
    + apply Hquiet; auto; congruence.
    + (* a worker is started *)
      unfold workers_inv. rewrite Hb1, He1, Hw1, Hr, Hc, total_app, length_app.
      simpl. split; [|split; [|split]]; auto; [lia| |].
      * intros i w Hi. apply lookup_snoc_Some in Hi.
        destruct Hi as [[Hlt Hi]|[-> <-]].
        -- eapply worker_inv_frame; eauto. apply untouched_quiet_dispatch. lia.
        -- destruct (Hu (length (workers s))) as (Hc1 & Hr1 & Hd1); [lia|].
           constructor; simpl; unfold_counters; simpl;
             rewrite ?count_app, ?responses_app, ?Hc1, ?Hr1, ?Hd1; simpl;
             rewrite ?Nat.eqb_refl; auto; try lia; try discriminate.
      * intros i Hi. destruct (Hu i) as (Hc1 & Hr1 & Hd1); [lia|].
        destruct (untouched_app i tr [ADispatch (Payload tran) (length (workers s))])
          as (Hc2 & Hr2 & Hd2); [apply untouched_quiet_dispatch; lia|].
        repeat split; intros; rewrite ?Hc2, ?Hr2, ?Hd2; auto.
  - (* a worker *)
    destruct (workers s !! j) as [w|] eqn:Hj;
      [|unfold worker_step in Hs; rewrite Hj in Hs; discriminate].
    pose proof (worker_step_frame _ _ _ _ _ Hs) as
      (Hr & Hc & _ & _ & _ & Hb1 & _ & _ & _ & _ & _ & _ & _).
    destruct (worker_step_own (backoffCtor r0 tt) _ _ _ _ _ tr w Hs Hj)
      as [(p & -> & ->)|(w' & Hw1 & Hq & Hinv & He1)];
      [rewrite Hb; reflexivity|apply Hw; exact Hj| |].
    + apply Hquiet; auto. intros i. repeat split.
    + pose proof (lookup_lt_Some _ _ _ Hj) as Hlt.
      pose proof (total_insert err_flag _ _ _ w' Hj) as Htot.
      unfold workers_inv. rewrite Hb1, Hw1, Hr, Hc, length_insert.
      split; [|split; [|split]]; auto.
      * lia.
      * intros i wi Hi. apply list_lookup_insert_Some in Hi.
        destruct Hi as [(<- & <- & _)|[Hne Hi]]; [exact Hinv|].
        eapply worker_inv_frame; eauto.
      * intros i Hi. destruct (Hu i Hi) as (Hc1 & Hr1 & Hd1).
        destruct (untouched_app i tr acts) as (Hc2 & Hr2 & Hd2); [apply Hq; lia|].
        repeat split; intros; rewrite ?Hc2, ?Hr2, ?Hd2; auto.
  - inversion Hs; subst; clear Hs. apply Hquiet; auto. intros i. apply untouched_nil.
  - apply closer_step_workers in Hs.
    destruct Hs as (Hr & Hc & Hb1 & He1 & Hw1 & Hq). apply Hquiet; auto.
Qed.

Lemma workers_invariant (r0 : Retry W B) (s : System W B) (tr : list Action) :
  execution (started r0) s tr -> workers_inv r0 s tr.
Proof.
  intros Hex.
  apply (execution_invariant (workers_inv r0) (started r0)); [| |exact Hex].
  - unfold workers_inv; simpl. split; [|split; [|split]]; auto.
    + intros i w Hi. rewrite lookup_nil in Hi. discriminate.
    + intros i _. repeat split.
  - intros s1 tr1 e s2 acts _ Hi Hs. eapply workers_inv_step; eauto.
Qed.

(** ** Responses to upstream *)

(** What has been written on the response channel of a worker's
    transaction: at most one response, none while the worker is still
    going; one ack or noack when the worker has returned with the running
    flag still 1; and none from a returned worker only when the
    cancellation channel is closed. *)
Lemma responses_so_far (r0 : Retry W B) (s : System W B)
    (tr : list Action) (i : nat) (w : Worker B) :
  fresh r0 -> execution (started r0) s tr -> workers s !! i = Some w ->
  (length (responses i tr) <= 1)%nat
  /\ (wpc w <> WDone -> responses i tr = [])
  /\ (wpc w = WDone -> running (retry s) = 1 ->
      responses i tr = [ResAck] \/ responses i tr = [ResNoack])
  /\ (wpc w = WDone -> responses i tr = [] -> closeChan (retry s) = Closed).
Proof.
  intros Hfresh Hex Hi.
  destruct (lifecycle_coord_invariant r0 s tr Hfresh Hex) as [Hl _].
  destruct (workers_invariant r0 s tr Hex) as (_ & _ & Hw & _).
  destruct (Hw i w Hi) as [_ _ _ _ _ _ _ _ _ _ Hst].
  unfold worker_stage, settled in Hst.
  destruct (wpc w) eqn:Hpc.
  1-5: destruct Hst as (Hst1 & Hst2);
    try (destruct Hst2 as (Hst2 & _)); try rewrite Hst1; try rewrite Hst2;
    simpl; repeat split; auto; try lia; intros; discriminate.
  destruct Hst as [(Hre & Hcc)|(Hre & Hnil & _)]; rewrite Hre; simpl;
    (split; [lia|split; [congruence|split]]); try (intros _ Hrun).
  - exfalso. destruct Hl as [(_ & Ho & _)|[(Hr & _)|(Hr & _)]]; congruence.
  - auto.
  - destruct (resOut w); auto. exfalso. apply Hnil; auto.
  - discriminate.
Qed.

(** ** The counter of workers in their error loop *)

(** [errLooped] is the number of workers that are in their error loop
    and have not returned; each worker has added 1 to it once if it has
    received a failure and subtracted 1 once if it has returned after
    that. *)
Lemma errLooped_so_far (r0 : Retry W B) (s : System W B) (tr : list Action) :
  execution (started r0) s tr ->
  0 <= errLooped s
  /\ errLooped s = Z.of_nat (total err_flag (workers s))
  /\ forall i w, workers s !! i = Some w ->
       increments i tr = Nat.min 1 (failures i tr)
       /\ decrements i tr = (if is_done (wpc w) then increments i tr else 0%nat)
       /\ err_flag w = (increments i tr - decrements i tr)%nat.
Proof.
  intros Hex.
  destruct (workers_invariant r0 s tr Hex) as (_ & He & Hw & _).
  split; [lia|]. split; [exact He|].
  intros i w Hi. destruct (Hw i w Hi) as [_ Hf Hin Hde _ _ _ _ _ _ _].
  unfold err_flag, one_if. rewrite Hin, Hde, Hf. unfold one_if.
  destruct (failures i tr) as [|[|k]]; destruct (is_done (wpc w)); simpl; auto.
Qed.

(** ** Shutdown *)

(** The swaps and closes done so far by the calls of [CloseAsync]: at
    most one of each, the close after the swap, no close of the closed
    channel; one swap as soon as a call is past its compare-and-swap, one
    close once every call has returned; and a call that finds the flag
    cleared changes nothing in the struct. *)
Lemma calls_so_far (r0 : Retry W B) (s : System W B) (tr : list Action) :
  fresh r0 -> execution (started r0) s tr ->
  (swaps tr <= 1)%nat /\ (cancels tr <= swaps tr)%nat
  /\ panicked s <> Some CloseOfClosedChannel
  /\ (forall j c, closers s !! j = Some c -> c <> ClCas ->
        swaps tr = 1%nat /\ running (retry s) = 0)
  /\ (closers s <> [] -> Forall (fun c => c = ClReturned) (closers s) ->
        swaps tr = 1%nat /\ cancels tr = 1%nat
        /\ running (retry s) = 0 /\ closeChan (retry s) = Closed)
  /\ (forall j s' acts, running (retry s) <> 1 ->
        closers s !! j = Some ClCas -> step (ECloser j) s = Some (s', acts) ->
        retry s' = retry s /\ acts = [ACas j false]
        /\ closers s' = <[j := ClReturned]> (closers s)).
Proof.
  intros Hfresh Hex.
  destruct (lifecycle_coord_invariant r0 s tr Hfresh Hex) as [Hl (_ & _ & _ & Hp)].
  split; [|split; [|split; [|split; [|split]]]]; auto.
  - destruct Hl as [(_&_&->&_)|[(_&_&->&_)|(_&_&->&_)]]; lia.
  - destruct Hl as [(_&_&->&->&_)|[(_&_&->&->&_)|(_&_&->&->&_)]]; lia.
  - intros j c Hj Hc.
    destruct Hl as [(_&_&_&_&Hf)|[(?&_&?&_)|(?&_&?&_)]]; auto.
    exfalso. apply Hc. exact (proj1 (Forall_lookup _ _) Hf j c Hj).
  - intros Hne Hall.
    destruct Hl as [(_&_&_&_&Hf)|[(_&_&_&_&Hc)|(?&?&?&?&_)]]; auto; exfalso.
    + destruct (closers s) as [|c cl]; [congruence|].
      inversion Hf; inversion Hall; subst. congruence.
    + assert (total closing (closers s) = 0%nat); [|lia].
      clear -Hall. induction Hall as [|c cl -> _ IH]; simpl; auto.
  - intros j s' acts Hrun Hj Hs. unfold step in Hs.
    destruct (panicked s); [discriminate|].
    unfold closer_step, CompareAndSwap_running in Hs. rewrite Hj in Hs.
    destruct (Z.eqb_spec (running (retry s)) 1); [contradiction|].
    inversion Hs; subst. destruct s; auto.
Qed.

(** The steps of the deferred function done so far are the part of the
    shutdown sequence that matches the coordinator's position; the
    closed signal has fired exactly when the coordinator has returned;
    and every step that takes the coordinator out of the loop body takes
    it to the start of the deferred function. *)
Lemma shutdown_so_far (r0 : Retry W B) (s : System W B) (tr : list Action) :
  fresh r0 -> execution (started r0) s tr ->
  shutdown_stage (coord s) (shutdown_steps tr)
  /\ (closedChan (retry s) = Closed <-> coord s = CExited)
  /\ (closedChan (retry s) = Closed ->
      exists errs, shutdown_steps tr = shutdown_sequence errs)
  /\ (forall e s' acts, step e s = Some (s', acts) ->
        in_loop (coord s) = true -> in_loop (coord s') = false ->
        coord s' = CDefCloseOut /\ acts = []).
Proof.
  intros Hfresh Hex.
  destruct (lifecycle_coord_invariant r0 s tr Hfresh Hex) as [_ (Hst & _ & Hcl & _)].
  split; [exact Hst|]. split; [|split].
  - rewrite Hcl. destruct (coord s); split; congruence.
  - intros Hc. rewrite Hcl in Hc. destruct (coord s); try discriminate. exact Hst.
  - intros e s' acts Hs Hin Hout. unfold step in Hs.
    destruct (panicked s); [discriminate|]. destruct e as [ce|i we| |j].
    + unfold coord_step in Hs.
      repeat case_match; simplify_eq; simpl in *;
        try discriminate; try congruence; try (split; reflexivity).
      all: match goal with
           | Hc : coord _ = _ |- _ => rewrite Hc in *; simpl in *; discriminate
           end.
    + apply worker_step_frame in Hs.
      destruct Hs as (_&_&_&_&_&_&_&_&[Hc|[Hc1 Hc2]]&_); rewrite ?Hc, ?Hc2 in Hout;
        simpl in Hout; congruence.
    + inversion Hs; subst. simpl in Hout. congruence.
    + unfold closer_step, CompareAndSwap_running, close_closeChan in Hs.
      destruct (closers s !! j) as [[| |]|]; try discriminate;
        [destruct (running (retry s) =? 1)|destruct (closeChan (retry s))];
        inversion Hs; subst; simpl in Hout; congruence.
Qed.

End ExecutionProperties.

(** ** Marshalling *)

(** X1. [MarshalYAML] never fails and never returns a nil [Output]: a
    missing child is replaced by the empty struct and a present one is
    kept; the retry settings are carried over unchanged; and the
    configuration can be read back from the result, so that different
    configurations give different results. *)
Theorem MarshalYAML_no_nil_output (r : RetryConfig) :
  snd (MarshalYAML r) = None
  /\ dummy_Output (fst (MarshalYAML r)) <> OutputPointer None
  /\ (Output r = None <-> dummy_Output (fst (MarshalYAML r)) = OutputEmptyStruct)
  /\ (forall c, Output r = Some c <->
                 dummy_Output (fst (MarshalYAML r)) = OutputPointer (Some c))
  /\ dummy_Config (fst (MarshalYAML r)) = Config_ r
  /\ (forall r', fst (MarshalYAML r) = fst (MarshalYAML r') -> r = r').
Proof.
  destruct r as [[c|] rc]; simpl; repeat split; try congruence; try discriminate.
  - intros [[c'|] rc']; simpl; congruence.
  - intros [[c'|] rc']; simpl; congruence.
Qed.

Section MarshallingProperties.

Variable V : Type.
Variable empty_struct : V.
Variable json_Marshal_dummy : dummyRetryConfig -> string + error.
Variable json_Marshal : RetryConfig -> string + error.
Variable json_Unmarshal : string -> gmap string V + error.
Variable SanitiseConfig : Config -> V + error.

(** [MarshalJSON] encodes exactly the value [MarshalYAML] returns. *)
Remark MarshalJSON_encodes_the_yaml_value (r : RetryConfig) :
  MarshalJSON json_Marshal_dummy r = json_Marshal_dummy (fst (MarshalYAML r)).
Proof.
  reflexivity.
Qed.

(** X2. When [sanitiseConfigFunc] succeeds, the map it returns always has
    an "output" entry, whatever the JSON round trip had put there: the
    empty struct without a child, the sanitised child otherwise; every
    other entry is the one of the round trip. When it fails, the error is
    that of the first step that failed, in the order encode, decode,
    sanitise the child; a missing child is never passed to
    [SanitiseConfig]. *)
Theorem sanitiseConfigFunc_output_entry (conf : Config) :
  match sanitiseConfigFunc V empty_struct json_Marshal json_Unmarshal
          SanitiseConfig conf with
  | inl m =>
      exists b m0,
        json_Marshal (Retry_ conf) = inl b /\ json_Unmarshal b = inl m0
        /\ (forall k, k <> "output"%string -> m !! k = m0 !! k)
        /\ match Output (Retry_ conf) with
           | None => m !! "output"%string = Some empty_struct
           | Some child =>
               exists v, SanitiseConfig child = inl v
                         /\ m !! "output"%string = Some v
           end
  | inr e =>
      json_Marshal (Retry_ conf) = inr e
      \/ (exists b, json_Marshal (Retry_ conf) = inl b /\ json_Unmarshal b = inr e)
      \/ (exists b m0 child,
             json_Marshal (Retry_ conf) = inl b /\ json_Unmarshal b = inl m0
             /\ Output (Retry_ conf) = Some child /\ SanitiseConfig child = inr e)
  end.
Proof.
  unfold sanitiseConfigFunc.
  destruct (json_Marshal (Retry_ conf)) as [b|e] eqn:Hm; [|left; reflexivity].
  destruct (json_Unmarshal b) as [m0|e] eqn:Hu; [|right; left; eauto].
  destruct (Output (Retry_ conf)) as [child|] eqn:Ho.
  - destruct (SanitiseConfig child) as [v|e] eqn:Hs.
    + exists b, m0. repeat split; auto.
      * intros k Hk. apply lookup_insert_ne. congruence.
      * exists v. split; [reflexivity|]. apply lookup_insert_eq.
    + right. right. exists b, m0, child. auto.
  - exists b, m0. repeat split; auto.
    + intros k Hk. apply lookup_insert_ne. congruence.
    + apply lookup_insert_eq.
Qed.

End MarshallingProperties.

(** ** From the constructor to the running loop *)

Section StartProperties.

Context {W B : Type} {OW : OutputType W} {OB : BackOffType B}.

(** [CloseAsync] run without interruption on a running output clears the
    flag and closes the channel; run again it changes nothing. *)
Lemma CloseAsync_twice (r : Retry W B) :
  running r = 1 -> closeChan r = Open ->
  CloseAsync r = Some (set_closeChan Closed (set_running 0 r))
  /\ CloseAsync (set_closeChan Closed (set_running 0 r))
     = Some (set_closeChan Closed (set_running 0 r)).
Proof.
  intros Hr Hc. unfold CloseAsync, CompareAndSwap_running, close_closeChan.
  rewrite Hr. simpl. rewrite Hc. split; reflexivity.
Qed.

(** The two steps of a call, taken one after the other, are
    [CloseAsync]. *)
Lemma closer_steps_CloseAsync (s : System W B) (j : nat) (tr : list Action) :
  panicked s = None -> closers s !! j = Some ClCas ->
  match CloseAsync (retry s) with
  | Some r' =>
      exists es s' tr', run es s tr = Some (s', tr') /\ retry s' = r'
                        /\ closers s' !! j = Some ClReturned
                        /\ Forall (fun e => e = ECloser j) es
  | None =>
      exists s' tr', run [ECloser j; ECloser j] s tr = Some (s', tr')
                     /\ panicked s' = Some CloseOfClosedChannel
  end.
Proof.
  intros Hp Hj. pose proof (lookup_lt_Some _ _ _ Hj) as Hlt.
  unfold CloseAsync, CompareAndSwap_running, close_closeChan.
  destruct (running (retry s) =? 1) eqn:Hr.
  - destruct (closeChan (retry s)) eqn:Hc; simpl; rewrite Hc.
    + exists [ECloser j; ECloser j]. eexists _, _.
      unfold run, step, closer_step, CompareAndSwap_running, close_closeChan.
      rewrite Hp, Hj, Hr. simpl. rewrite Hp.
      rewrite list_lookup_insert_eq by exact Hlt. simpl. rewrite Hc.
      split; [reflexivity|]. simpl. split; [reflexivity|]. split.
      * apply list_lookup_insert_eq. rewrite length_insert. exact Hlt.
      * repeat constructor.
    + eexists _, _.
      unfold run, step, closer_step, CompareAndSwap_running, close_closeChan.
      rewrite Hp, Hj, Hr. simpl. rewrite Hp.
      rewrite list_lookup_insert_eq by exact Hlt. simpl. rewrite Hc.
      split; reflexivity.
  - exists [ECloser j]. eexists _, _.
    unfold run, step, closer_step, CompareAndSwap_running.
    rewrite Hp, Hj, Hr. split; [reflexivity|]. simpl. split; [reflexivity|]. split.
    + apply list_lookup_insert_eq. exact Hlt.
    + repeat constructor.
Qed.

(** X5. The counters of [r.stats] follow the actions: each is its value at the
    start plus the number of its increments. *)
Lemma metrics_follow_actions (r0 : Retry W B) (s : System W B) (tr : list Action) :
  execution (started r0) s tr ->
  mCount (stats (retry s)) = mCount (stats r0) + Z.of_nat (pulls tr)
  /\ mError (stats (retry s)) = mError (stats r0) + Z.of_nat (all_failures tr)
  /\ mSuccess (stats (retry s)) = mSuccess (stats r0) + Z.of_nat (all_successes tr)
  /\ mEndOfRetries (stats (retry s))
     = mEndOfRetries (stats r0) + Z.of_nat (all_end_of_retries tr).
Proof.
  intros Hex.
  apply (execution_invariant
           (fun s tr =>
              mCount (stats (retry s)) = mCount (stats r0) + Z.of_nat (pulls tr)
              /\ mError (stats (retry s)) = mError (stats r0) + Z.of_nat (all_failures tr)
              /\ mSuccess (stats (retry s))
                 = mSuccess (stats r0) + Z.of_nat (all_successes tr)
              /\ mEndOfRetries (stats (retry s))
                 = mEndOfRetries (stats r0) + Z.of_nat (all_end_of_retries tr))
           (started r0)); [| |exact Hex].
  - unfold pulls, all_failures, all_successes, all_end_of_retries. simpl. lia.
  - clear. intros s tr e s' acts _ (H1 & H2 & H3 & H4) Hs.
    unfold pulls, all_failures, all_successes, all_end_of_retries in *.
    rewrite !count_app.
    unfold step, coord_step, worker_step, worker_exit, closer_step,
      CompareAndSwap_running, close_closeChan in Hs.
    repeat case_match; simplify_eq; simpl; lia.
Qed.

(** X4. [Consume] starts the loop exactly when it returns no error. When
    the child refuses the wiring, the child's error is returned, the
    upstream channel is not stored and nothing else in the struct changes,
    so that the output is not taken for started: a later [Consume] is
    passed to the child again and, if the child then accepts, succeeds. *)
Theorem Consume_refused_leaves_unstarted (r r1 : Retry W B) (ts : option nat)
    (b : bool) (e : error) :
  transactionsIn r = None -> Consume ts r = (r1, b, Some e) ->
  b = false
  /\ wConsume (wrapped r) = (wrapped r1, Some e)
  /\ r1 = set_wrapped (wrapped r1) r
  /\ transactionsIn r1 = None
  /\ forall ts' w2,
       wConsume (wrapped r1) = (w2, None) ->
       Consume ts' r1 = (set_transactionsIn ts' (set_wrapped w2 r1), true, None).
Proof.
  unfold Consume. intros Hin Hc. rewrite Hin in Hc.
  destruct (wConsume (wrapped r)) as [w' [e'|]] eqn:Hw; [|discriminate].
  inversion Hc; subst; clear Hc. simpl.
  repeat split; auto. intros ts' w2 Hw2. rewrite Hw2, Hin. reflexivity.
Qed.

(** X6. The running gauge is one above its initial value exactly from the
    start of [loop] until the closed signal, and back at its initial value
    afterwards; and the counter of delivered parts is its initial value
    plus the sizes of the payloads of the workers whose delivery
    succeeded. *)
Theorem gauge_and_parts (r0 : Retry W B) (s : System W B) (tr : list Action) :
  execution (started r0) s tr ->
  mRunning (stats (retry s)) = mRunning (stats r0) + gauge (coord s)
  /\ mPartsSuccess (stats (retry s))
     = mPartsSuccess (stats r0) + Z.of_nat (total acked_parts (workers s)).
Proof.
  intros Hex.
  refine (execution_invariant
            (fun s _ =>
               mRunning (stats (retry s)) = mRunning (stats r0) + gauge (coord s)
               /\ mPartsSuccess (stats (retry s))
                  = mPartsSuccess (stats r0)
                    + Z.of_nat (total acked_parts (workers s)))
            (started r0) _ _ s tr Hex).
  - simpl. lia.
  - clear s tr Hex. intros s tr e s' acts Hex (H1 & H2) Hs.
    unfold step in Hs. destruct (panicked s); [discriminate|].
    destruct e as [ce|j we| |j].
    + unfold coord_step in Hs.
      repeat case_match; simplify_eq; simpl in *;
        rewrite ?total_app; simpl;
        try match goal with Hc : coord s = _ |- _ => rewrite Hc end;
        simpl; split; lia.
    + destruct (workers s !! j) as [w|] eqn:Hj;
        [|unfold worker_step in Hs; rewrite Hj in Hs; discriminate].
      destruct (workers_invariant r0 s tr Hex) as (_ & _ & Hinv & _).
      destruct (Hinv j w Hj) as [_ _ _ _ _ _ _ _ _ _ Hst].
      unfold worker_stage in Hst.
      pose proof (fun w' => total_insert acked_parts _ _ _ w' Hj) as Htot.
      unfold worker_step, worker_exit in Hs. rewrite Hj in Hs.
      destruct w as [t rc bo ro iel pc]. simpl in *.
      destruct pc, we; try discriminate; simpl in Hs;
        repeat case_match; simplify_eq; simpl;
        match goal with
        | |- context [<[j := ?w']> (workers s)] =>
            specialize (Htot w'); unfold acked_parts, Len in *; simpl in *
        | _ => idtac
        end;
        try (destruct Hst as (-> & _)); simpl in *;
        try (destruct (coord s)); simpl in *; split; try lia.
    + inversion Hs; subst. simpl. lia.
    + unfold closer_step, CompareAndSwap_running, close_closeChan in Hs.
      repeat case_match; simplify_eq; simpl; lia.
Qed.

End StartProperties.

(** ** The deferred function runs to its end *)

Section DeferredProperties.

Context {W B : Type} {OW : OutputType W} {OB : BackOffType B}.

Lemma run_cons_step (e : Event) (es : list Event) (s s1 : System W B)
    (tr acts : list Action) :
  step e s = Some (s1, acts) -> run (e :: es) s tr = run es s1 (tr ++ acts).
Proof.
  intros Hs. simpl. rewrite Hs. reflexivity.
Qed.

Lemma polls_complete (k : nat) :
  forall (s : System W B) (tr : list Action),
    panicked s = None -> coord s = CDefWait -> closedChan (retry s) = Open ->
    closes_after k (wrapped (retry s)) ->
    exists s' tr',
      run (repeat (ECoord CTau) (2 + k)) s tr = Some (s', tr')
      /\ coord s' = CExited /\ closedChan (retry s') = Closed.
Proof.
  induction k as [|k IH]; intros s tr Hp Hc Hcl Hk; simpl in Hk.
  - destruct (wWaitForClose (wrapped (retry s)) Second) as [w' err] eqn:Hw.
    simpl in Hk. subst err. simpl repeat.
    erewrite run_cons_step;
      [|unfold step, coord_step; rewrite Hp, Hc, Hw; reflexivity].
    erewrite run_cons_step;
      [|unfold step, coord_step; simpl; rewrite Hp, Hcl; reflexivity].
    eexists _, _. split; [reflexivity|]. split; reflexivity.
  - destruct Hk as [Herr Hk].
    destruct (wWaitForClose (wrapped (retry s)) Second) as [w' [e|]] eqn:Hw;
      [|simpl in Herr; congruence].
    simpl in Hk.
    change (repeat (ECoord CTau) (2 + S k))
      with (ECoord CTau :: repeat (ECoord CTau) (2 + k)).
    erewrite run_cons_step;
      [|unfold step, coord_step; rewrite Hp, Hc, Hw; reflexivity].
    apply IH; simpl; auto.
Qed.

(** X7. Once the coordinator has left the loop, and provided the child
    reports closed at some poll, the deferred function runs through and
    fires the closed signal. *)
Lemma deferred_function_completes (k : nat) (s : System W B) (tr : list Action) :
  panicked s = None -> coord s = CDefCloseOut ->
  transactionsOut (retry s) = Open -> closedChan (retry s) = Open ->
  closes_after k (wCloseAsync (wrapped (retry s))) ->
  exists s' tr',
    run (deferred_steps k) s tr = Some (s', tr')
    /\ coord s' = CExited /\ closedChan (retry s') = Closed.
Proof.
  intros Hp Hc Ho Hcl Hk. unfold deferred_steps.
  change (repeat (ECoord CTau) (4 + k))
    with (ECoord CTau :: ECoord CTau :: repeat (ECoord CTau) (2 + k)).
  erewrite run_cons_step;
    [|unfold step, coord_step; rewrite Hp, Hc, Ho; reflexivity].
  erewrite run_cons_step;
    [|unfold step, coord_step; simpl; rewrite Hp; reflexivity].
  apply polls_complete; simpl; auto.
Qed.

End DeferredProperties.

(** ** The backpressure gate *)

Section GateProperties.

Context {W B : Type} {OW : OutputType W} {OB : BackOffType B}.

(** C3, amended. A transaction is pulled from upstream only by the
    acquire select, and the coordinator gets to that select only from the
    test of the gate at a moment when [errLooped] is not greater than
    zero. When the test finds the counter greater than zero the
    coordinator pulls nothing and goes to wait; the wait can always end
    by its 100ms timer, and ends only by going back to the test (timer or
    interrupt) or, with the cancellation channel closed, by leaving the
    loop. From a wait with the counter back at zero, the timer, the test
    and a transaction offered by upstream lead to the pull. *)
Theorem gate_semantics (s : System W B) :
  (forall e s' acts, step e s = Some (s', acts) -> pulls acts <> 0%nat ->
      coord s = CAcquire /\ exists t, e = ECoord (CRecv (Some t)))
  /\ (forall e s' acts, step e s = Some (s', acts) ->
        coord s <> CAcquire -> coord s' = CAcquire ->
        coord s = CGate /\ errLooped s <= 0 /\ e = ECoord CTau)
  /\ (forall e s' acts, step e s = Some (s', acts) ->
        coord s = CGate -> errLooped s > 0 ->
        pulls acts = 0%nat
        /\ (e = ECoord CTau -> coord s' = CGateEnter)
        /\ (e <> ECoord CTau -> coord s' = CGate))
  /\ (panicked s = None -> coord s = CGateWait ->
      step (ECoord CTimeout) s
      = Some (set_coord CGate s, [AGateTimeout (100 * Millisecond)]))
  /\ (forall e s' acts, step e s = Some (s', acts) -> coord s = CGateWait ->
        pulls acts = 0%nat
        /\ (coord s' = CGateWait \/ coord s' = CGate
            \/ (coord s' = CDefCloseOut /\ closeChan (retry s) = Closed)))
  /\ (panicked s = None -> coord s = CGateWait -> errLooped s <= 0 ->
      transactionsIn (retry s) <> None ->
      forall t tr, exists s',
        run [ECoord CTimeout; ECoord CTau; ECoord (CRecv (Some t))] s tr
        = Some (s', tr ++ [AGateTimeout (100 * Millisecond);
                           AGateRead (errLooped s); APull t])
        /\ coord s' = CDispatch t).
Proof.
  split; [|split; [|split; [|split; [|split]]]].
  - intros e s' acts Hs Hp. unfold step in Hs.
    destruct (panicked s); [discriminate|]. destruct e as [ce|i we| |j].
    + unfold coord_step in Hs.
      repeat case_match; simplify_eq; simpl in *; try congruence; eauto.
    + apply worker_step_frame in Hs. exfalso. apply Hp. apply Hs.
    + inversion Hs; subst. contradiction.
    + unfold closer_step in Hs. repeat case_match; simplify_eq; contradiction.
  - intros e s' acts Hs Hne Heq. unfold step in Hs.
    destruct (panicked s); [discriminate|]. destruct e as [ce|i we| |j].
    + unfold coord_step in Hs.
      repeat case_match; simplify_eq; simpl in *; try congruence.
      repeat split; auto. lia.
    + apply worker_step_frame in Hs.
      destruct Hs as (_&_&_&_&_&_&_&_&[Hc|[Hc1 Hc2]]&_); congruence.
    + inversion Hs; subst. simpl in Heq. congruence.
    + unfold closer_step, CompareAndSwap_running, close_closeChan in Hs.
      destruct (closers s !! j) as [[| |]|]; try discriminate;
        [destruct (running (retry s) =? 1)|destruct (closeChan (retry s))];
        inversion Hs; subst; simpl in Heq; congruence.
  - intros e s' acts Hs Hg Hpos. unfold step in Hs.
    destruct (panicked s); [discriminate|]. destruct e as [ce|i we| |j].
    + unfold coord_step in Hs. rewrite Hg in Hs.
      destruct ce; try discriminate.
      destruct (Z.gtb_spec (errLooped s) 0); [|lia].
      inversion Hs; subst. repeat split; auto. congruence.
    + apply worker_step_frame in Hs.
      destruct Hs as (_&_&_&_&_&_&_&_&[Hc|[Hc1 Hc2]]&_&_&Hpl&_); [|congruence].
      repeat split; auto; try congruence; try discriminate.
    + inversion Hs; subst. repeat split; auto; try discriminate.
    + unfold closer_step, CompareAndSwap_running, close_closeChan in Hs.
      destruct (closers s !! j) as [[| |]|]; try discriminate;
        [destruct (running (retry s) =? 1)|destruct (closeChan (retry s))];
        inversion Hs; subst; simpl; repeat split; auto; try discriminate.
  - intros Hp Hc. unfold step, coord_step. rewrite Hp, Hc. reflexivity.
  - intros e s' acts Hs Hc. unfold step in Hs.
    destruct (panicked s); [discriminate|]. destruct e as [ce|i we| |j].
    + unfold coord_step in Hs. rewrite Hc in Hs.
      destruct ce; try discriminate.
      * inversion Hs; subst. simpl. auto.
      * destruct (closeChan (retry s)); simpl in Hs; [discriminate|].
        inversion Hs; subst. simpl. auto.
    + apply worker_step_frame in Hs.
      destruct Hs as (_&_&_&_&_&_&_&_&[Hc1|[Hc1 Hc2]]&_&_&Hpl&_);
        (split; [exact Hpl|]); [left|right; left]; congruence.
    + inversion Hs; subst. simpl. auto.
    + unfold closer_step, CompareAndSwap_running, close_closeChan in Hs.
      destruct (closers s !! j) as [[| |]|]; try discriminate;
        [destruct (running (retry s) =? 1)|destruct (closeChan (retry s))];
        inversion Hs; subst; simpl; auto.
  - intros Hp Hc Hz Hin t tr.
    destruct (transactionsIn (retry s)) as [ch|] eqn:Hti; [|congruence].
    eexists. unfold run, step, coord_step. simpl. rewrite Hp, Hc. simpl.
    rewrite Hp. destruct (Z.gtb_spec (errLooped s) 0); [lia|]. simpl.
    rewrite Hp, Hti. simpl. rewrite <- !app_assoc. simpl. split; reflexivity.
Qed.

End GateProperties.

(** ** The retry budget *)

Section BudgetProperties.

Context {W B : Type} {OW : OutputType W} {OB : BackOffType B}.

Lemma run_app (es1 es2 : list Event) (s : System W B) (tr : list Action) :
  run (es1 ++ es2) s tr
  = match run es1 s tr with
    | Some (s', tr') => run es2 s' tr'
    | None => None
    end.
Proof.
  revert s tr. induction es1 as [|e es1 IH]; intros s tr; simpl; [reflexivity|].
  destruct (step e s) as [[s1 acts]|]; [apply IH|reflexivity].
Qed.

(** The instance a worker calls at its next failure, and what the call
    returns, in terms of the failures the worker has seen. *)
Lemma next_backoff_call (r0 : Retry W B) (s : System W B) (tr : list Action)
    (i : nat) (w : Worker B) :
  execution (started r0) s tr -> workers s !! i = Some w ->
  NextBackOff (match backOff w with
               | Some b => b
               | None => backoffCtor (retry s) ()
               end)
  = (nth_backoff (failures i tr) (backoffCtor r0 ()),
     after_calls (S (failures i tr)) (backoffCtor r0 ())).
Proof.
  intros Hex Hw.
  destruct (workers_invariant r0 s tr Hex) as (Hb & _ & Hinv & _).
  destruct (Hinv i w Hw) as [_ _ _ _ Hbo _ _ _ _ _ _].
  rewrite Hbo, Hb. unfold nth_backoff. simpl.
  destruct (failures i tr); simpl;
    destruct (NextBackOff _); reflexivity.
Qed.





End BudgetProperties.

(** ** Where transactions and responses go *)

Lemma pulled_app (a b : list Action) : pulled (a ++ b) = pulled a ++ pulled b.
Proof.
  induction a as [|x a IH]; simpl; [reflexivity|].
  destruct x; simpl; congruence.
Qed.

Lemma deliveries_app (i : nat) (a b : list Action) :
  deliveries i (a ++ b) = deliveries i a ++ deliveries i b.
Proof.
  induction a as [|x a IH]; simpl; [reflexivity|].
  destruct x as [j [| | | | |p|]|t|p rc| | | | | | | | |]; simpl; auto;
    match goal with |- context [Nat.eqb ?x ?y] => destruct (Nat.eqb x y) end;
    simpl; congruence.
Qed.

Lemma written_app (i : nat) (a b : list Action) :
  written i (a ++ b) = written i a ++ written i b.
Proof.
  induction a as [|x a IH]; simpl; [reflexivity|].
  destruct x as [j [| | | | | |ch res]| | | | | | | | | | |]; simpl; auto.
  destruct (Nat.eqb j i); simpl; congruence.
Qed.

Section RoutingProperties.

Context {W B : Type} {OW : OutputType W} {OB : BackOffType B}.

Lemma worker_step_routed (j : nat) (e : WEvent) (s s' : System W B)
    (acts tr : list Action) (w : Worker B) :
  worker_step j e s = Some (s', acts) ->
  workers s !! j = Some w ->
  worker_stage (running (retry s)) (closeChan (retry s)) j w tr ->
  routed j w tr ->
  (exists p, s' = set_panicked (Some p) s /\ acts = [APanic p])
  \/ (exists w',
        workers s' = <[j := w']> (workers s)
        /\ ts w' = ts w
        /\ routed j w' (tr ++ acts)
        /\ wg s' + Z.of_nat (live_flag w) = wg s + Z.of_nat (live_flag w')
        /\ pulled acts = []
        /\ (forall i, i <> j ->
              untouched i acts /\ deliveries i acts = [] /\ written i acts = [])).
Proof.
  intros Hs Hw Hst (Hrc & Hdl & Hbd & Hwr). unfold worker_step in Hs.
  rewrite Hw in Hs. destruct w as [t rc bo ro iel pc]. simpl in Hs.
  unfold worker_exit in Hs. unfold worker_stage in Hst. simpl in *.
  destruct pc, e; try discriminate; simpl in Hs;
    repeat case_match; simplify_eq;
    try (left; eexists; split; reflexivity); right;
    (eexists; split; [reflexivity|]); (split; [reflexivity|]);
    (split; [|split; [unfold live_flag, one_if; simpl; lia|split; [reflexivity|]]]);
    try (intros i Hne; apply Nat.eqb_neq in Hne; rewrite Nat.eqb_sym in Hne;
         unfold untouched, dispatches; simpl; rewrite ?Hne; simpl; auto).
  all: unfold routed, resubmissions, failures in *; simpl;
    rewrite ?count_app, ?deliveries_app, ?written_app; simpl;
    rewrite ?Nat.eqb_refl; simpl; rewrite ?app_nil_r, ?Nat.add_0_r;
    repeat match goal with
           | H : _ /\ _ |- _ => destruct H
           end;
    repeat split; auto; try lia;
    try (apply Forall_app; split; auto);
    try (rewrite Hwr; simpl; auto).
Qed.

Lemma routed_frame (i : nat) (w : Worker B) (tr acts : list Action) :
  routed i w tr ->
  untouched i acts -> deliveries i acts = [] -> written i acts = [] ->
  routed i w (tr ++ acts).
Proof.
  intros (Hrc & Hdl & Hbd & Hwr) (Hc & _ & _) Hd Hw.
  unfold routed, resubmissions, failures in *.
  rewrite !count_app, !Hc, deliveries_app, written_app, Hd, Hw, !app_nil_r, !Nat.add_0_r.
  auto.
Qed.

Lemma map_ts_insert (ws : list (Worker B)) (j : nat) (w w' : Worker B) :
  ws !! j = Some w -> ts w' = ts w -> map ts (<[j := w']> ws) = map ts ws.
Proof.
  revert j. induction ws as [|x ws IH]; intros [|j] Hj Ht; simpl in *;
    try discriminate.
  - inversion Hj; subst. congruence.
  - f_equal. apply IH; auto.
Qed.

Lemma routing_inv_step (r0 : Retry W B) (s s' : System W B)
    (tr acts : list Action) (e : Event) :
  execution (started r0) s tr -> routing_inv s tr ->
  step e s = Some (s', acts) -> routing_inv s' (tr ++ acts).
Proof.
  intros Hex (Hwg & (rest & Hpl & Hpe) & Hro & Hab) Hs.
  destruct (workers_invariant r0 s tr Hex) as (_ & _ & Hinv & Hun).
  unfold step in Hs. destruct (panicked s) eqn:Hp; [discriminate|].
  assert (Hquiet : forall s1 : System W B,
             wg s1 = wg s -> workers s1 = workers s ->
             pending (coord s1) rest ->
             pulled acts = [] ->
             (forall i, untouched i acts /\ deliveries i acts = []
                        /\ written i acts = []) ->
             routing_inv s1 (tr ++ acts)).
  { intros s1 E1 E2 E3 E4 E5. unfold routing_inv.
    rewrite E1, E2, pulled_app, E4, app_nil_r.
    split; [exact Hwg|]. split; [exists rest; auto|]. split.
    - intros i w Hi. destruct (E5 i) as (Q1 & Q2 & Q3).
      apply routed_frame; auto.
    - intros i Hi. destruct (E5 i) as (_ & Q2 & Q3).
      destruct (Hab i Hi) as (A1 & A2).
      rewrite deliveries_app, written_app, Q2, Q3, A1, A2. auto. }
  destruct e as [ce|j we| |j].
  - (* the coordinator *)
    unfold coord_step in Hs.
    destruct (coord s) eqn:Hc; destruct ce; try discriminate; simpl in Hpe;
      repeat case_match; simplify_eq;
      try (apply Hquiet; simpl; auto; try (rewrite Hc; exact Hpe);
           try (simpl; lia); intros i; repeat split).
    + (* a transaction is pulled *)
      rewrite app_nil_r in Hpl. unfold routing_inv. simpl.
      rewrite pulled_app, Hpl. simpl.
      split; [exact Hwg|]. split; [exists [t0]; split; reflexivity|]. split.
      * intros i w Hi. apply routed_frame; auto; repeat split.
      * intros i Hi. destruct (Hab i Hi) as (A1 & A2).
        rewrite deliveries_app, written_app, A1, A2. auto.
    + (* a worker is started *)
      unfold routing_inv. simpl.
      rewrite pulled_app, Hpl, total_app, length_app, map_app. simpl.
      split; [lia|].
      split; [exists []; split; reflexivity|]. split.
      * intros i w Hi. apply lookup_snoc_Some in Hi.
        destruct Hi as [[Hlt Hi]|[-> <-]].
        -- assert (Hne : (length (workers s) =? i)%nat = false)
             by (apply Nat.eqb_neq; lia).
           apply routed_frame; auto.
           ++ apply untouched_quiet_dispatch. lia.
           ++ simpl. rewrite Hne. reflexivity.
        -- destruct (Hab (length (workers s))) as (A1 & A2); [lia|].
           destruct (Hun (length (workers s))) as (Hc1 & _ & _); [lia|].
           unfold routed, resubmissions, failures. simpl.
           rewrite !count_app, !Hc1, deliveries_app, written_app, A1, A2. simpl.
           rewrite Nat.eqb_refl. repeat split; auto.
      * intros i Hi.
        assert (Hne : (length (workers s) =? i)%nat = false)
          by (apply Nat.eqb_neq; lia).
        destruct (Hab i) as (A1 & A2); [lia|].
        rewrite deliveries_app, written_app, A1, A2. simpl. rewrite Hne. auto.
    + (* the dispatch panics *)
      apply Hquiet; auto; try (intros i; repeat split).
      simpl. rewrite Hc. reflexivity.
  - (* a worker *)
    destruct (workers s !! j) as [w|] eqn:Hj;
      [|unfold worker_step in Hs; rewrite Hj in Hs; discriminate].
    pose proof (worker_step_frame _ _ _ _ _ Hs) as
      (_ & _ & _ & _ & _ & _ & _ & _ & Hco & _).
    destruct (Hinv j w Hj) as [_ _ _ _ _ _ _ _ _ _ Hst].
    destruct (worker_step_routed _ _ _ _ _ tr w Hs Hj Hst (Hro j w Hj))
      as [(p & -> & ->)|(w' & Hw1 & Hts & Hro' & Hwg' & Hpl' & Hq)].
    + apply Hquiet; auto. intros i. repeat split.
    + pose proof (lookup_lt_Some _ _ _ Hj) as Hlt.
      pose proof (total_insert live_flag _ _ _ w' Hj) as Htot.
      unfold routing_inv.
      rewrite Hw1, pulled_app, Hpl', app_nil_r, length_insert.
      rewrite (map_ts_insert _ _ w w' Hj Hts).
      split; [lia|]. split; [|split].
      * exists rest. split; [exact Hpl|].
        destruct Hco as [->|[Hc1 ->]]; [exact Hpe|].
        rewrite Hc1 in Hpe. exact Hpe.
      * intros i wi Hi. apply list_lookup_insert_Some in Hi.
        destruct Hi as [(<- & <- & _)|[Hne Hi]]; [exact Hro'|].
        destruct (Hq i) as (Q1 & Q2 & Q3); [congruence|].
        apply routed_frame; auto.
      * intros i Hi. destruct (Hq i) as (_ & Q2 & Q3); [lia|].
        destruct (Hab i Hi) as (A1 & A2).
        rewrite deliveries_app, written_app, Q2, Q3, A1, A2. auto.
  - inversion Hs; subst; clear Hs. apply Hquiet; auto.
    intros i. repeat split.
  - unfold closer_step, CompareAndSwap_running, close_closeChan in Hs.
    destruct (closers s !! j) as [[| |]|]; try discriminate;
      [destruct (running (retry s) =? 1)|destruct (closeChan (retry s))];
      inversion Hs; subst; clear Hs; apply Hquiet; auto; intros i; repeat split.
Qed.

Lemma routing_invariant (r0 : Retry W B) (s : System W B) (tr : list Action) :
  execution (started r0) s tr -> routing_inv s tr.
Proof.
  intros Hex.
  apply (execution_invariant routing_inv (started r0)); [| |exact Hex].
  - unfold routing_inv; simpl. split; [reflexivity|].
    split; [exists []; auto|]. split; [|auto].
    intros i w Hi. rewrite lookup_nil in Hi. discriminate.
  - intros s1 tr1 e s2 acts Hex1 Hi Hs. eapply routing_inv_step; eauto.
Qed.

Lemma no_live_worker (ws : list (Worker B)) :
  total live_flag ws = 0%nat <-> Forall (fun w => wpc w = WDone) ws.
Proof.
  induction ws as [|w ws IH]; simpl; [split; auto|].
  unfold live_flag at 1. split.
  - intros Hz. destruct (wpc w) eqn:Hpc; simpl in Hz; try lia.
    constructor; [exact Hpc|]. apply IH. lia.
  - intros Hall. inversion Hall as [|? ? Hd Hr]; subst. rewrite Hd. simpl.
    apply IH. exact Hr.
Qed.

Lemma lookup_map_ts (ws : list (Worker B)) (rest : list Transaction)
    (i : nat) (w : Worker B) :
  ws !! i = Some w -> (map ts ws ++ rest) !! i = Some (ts w).
Proof.
  revert i. induction ws as [|x ws IH]; intros [|i] Hi; simpl in *;
    try discriminate.
  - inversion Hi; subst. reflexivity.
  - apply IH. exact Hi.
Qed.

Lemma pending_at_most_one (pc : CoordPc) (rest : list Transaction) :
  pending pc rest -> (length rest <= 1)%nat.
Proof.
  destruct pc; simpl; intros Hp; subst; simpl; auto.
Qed.

Lemma deliveries_length (i : nat) (tr : list Action) :
  length (deliveries i tr) = (dispatches i tr + resubmissions i tr)%nat.
Proof.
  unfold dispatches, resubmissions.
  induction tr as [|x tr IH]; simpl; [reflexivity|].
  destruct x as [j [| | | | |p|]|t|p rc| | | | | | | | |]; simpl; auto;
    match goal with |- context [Nat.eqb ?x ?y] => destruct (Nat.eqb x y) end;
    simpl; lia.
Qed.

Lemma written_responses (i : nat) (tr : list Action) :
  map snd (written i tr) = responses i tr.
Proof.
  induction tr as [|x tr IH]; simpl; [reflexivity|].
  destruct x as [j [| | | | | |ch res]| | | | | | | | | | |]; simpl; auto.
  destruct (Nat.eqb j i); simpl; congruence.
Qed.

(** X10. The wait group counts exactly the workers that have not returned:
    it is never negative, it is zero exactly when every worker started so
    far has returned, and [wg.Wait()] lets the coordinator through only
    then. *)
Theorem wait_group_accounting (r0 : Retry W B) (s : System W B) (tr : list Action) :
  execution (started r0) s tr ->
  wg s = Z.of_nat (total live_flag (workers s))
  /\ 0 <= wg s
  /\ (wg s = 0 <-> Forall (fun w => wpc w = WDone) (workers s))
  /\ (forall s' acts, coord s = CWgWait ->
         step (ECoord CTau) s = Some (s', acts) ->
         Forall (fun w => wpc w = WDone) (workers s)).
Proof.
  intros Hex. destruct (routing_invariant r0 s tr Hex) as (Hwg & _).
  split; [exact Hwg|]. split; [lia|]. split.
  - rewrite <- no_live_worker. lia.
  - intros s' acts Hc Hs. unfold step, coord_step in Hs.
    destruct (panicked s); [discriminate|]. rewrite Hc in Hs.
    destruct (Z.eqb_spec (wg s) 0); [|discriminate].
    apply no_live_worker. lia.
Qed.

(** X11. Workers are started in the order in which their transactions were
    pulled: worker [i] answers for the [i]-th transaction pulled and
    listens on response channel [i], and at most one pulled transaction
    is without a worker. Everything delivered to the child for worker [i]
    carries the payload of that transaction: one dispatch and one
    delivery per resubmission; and resubmissions follow failures, never
    exceeding them and lagging by at most one. *)
Theorem deliveries_carry_the_payload (r0 : Retry W B) (s : System W B)
    (tr : list Action) (i : nat) (w : Worker B) :
  execution (started r0) s tr -> workers s !! i = Some w ->
  pulled tr !! i = Some (ts w)
  /\ resChan w = i
  /\ (length (workers s) <= length (pulled tr) <= S (length (workers s)))%nat
  /\ deliveries i tr = repeat (Payload (ts w)) (S (resubmissions i tr))
  /\ (resubmissions i tr <= failures i tr <= S (resubmissions i tr))%nat.
Proof.
  intros Hex Hi.
  destruct (routing_invariant r0 s tr Hex) as (_ & (rest & Hpl & Hpe) & Hro & _).
  destruct (workers_invariant r0 s tr Hex) as (_ & _ & Hinv & _).
  destruct (Hinv i w Hi) as [Hd _ _ _ _ _ _ _ _ _ _].
  destruct (Hro i w Hi) as (Hrc & Hdl & Hbd & _).
  apply pending_at_most_one in Hpe.
  split; [rewrite Hpl; apply lookup_map_ts; exact Hi|]. split; [exact Hrc|].
  split; [rewrite Hpl, length_app, length_map; lia|]. split; [|exact Hbd].
  pose proof (deliveries_length i tr) as Hlen. rewrite Hd in Hlen.
  change (S (resubmissions i tr)) with (1 + resubmissions i tr)%nat.
  rewrite <- Hlen. clear Hlen.
  induction Hdl as [|p l -> _ IH]; simpl; congruence.
Qed.

(** X12. A worker writes only to the response channel of the transaction it
    was started for, the [i]-th one pulled, only the value of its
    [resOut], at most once, and it has returned when it has. *)
Theorem responses_go_to_the_transaction (r0 : Retry W B) (s : System W B)
    (tr : list Action) (i : nat) (w : Worker B) :
  execution (started r0) s tr -> workers s !! i = Some w ->
  exists t,
    pulled tr !! i = Some t
    /\ (forall ch res, In (ch, res) (written i tr) ->
           ch = ResponseChan t /\ res = resOut w /\ wpc w = WDone)
    /\ (length (written i tr) <= 1)%nat
    /\ map snd (written i tr) = responses i tr.
Proof.
  intros Hex Hi.
  destruct (routing_invariant r0 s tr Hex) as (_ & (rest & Hpl & _) & Hro & _).
  destruct (Hro i w Hi) as (_ & _ & _ & Hwr).
  exists (ts w). split; [rewrite Hpl; apply lookup_map_ts; exact Hi|].
  split; [|split; [|apply written_responses]].
  - intros ch res Hin.
    destruct (wpc w); try (rewrite Hwr in Hin; contradiction).
    destruct Hwr as [Hwr|Hwr]; rewrite Hwr in Hin; [contradiction|].
    destruct Hin as [Heq|[]]. inversion Heq; subst. auto.
  - destruct (wpc w); try (rewrite Hwr; simpl; lia).
    destruct Hwr as [Hwr|Hwr]; rewrite Hwr; simpl; lia.
Qed.

Lemma transactionsIn_unchanged (r0 : Retry W B) (s : System W B) (tr : list Action) :
  execution (started r0) s tr -> transactionsIn (retry s) = transactionsIn r0.
Proof.
  intros Hex.
  refine (execution_invariant
            (fun s _ => transactionsIn (retry s) = transactionsIn r0)
            (started r0) _ _ s tr Hex); [reflexivity|].
  clear. intros s tr e s' acts _ Hin Hs. unfold step in Hs.
  destruct (panicked s); [discriminate|]. destruct e as [ce|j we| |j].
  - unfold coord_step in Hs.
    repeat match type of Hs with
           | context [match ?x with _ => _ end] => destruct x eqn:?
           end; simplify_eq; simpl; auto; try congruence.
  - apply worker_step_frame in Hs. destruct Hs as (_ & _ & _ & _ & Ht & _). congruence.
  - inversion Hs; subst. exact Hin.
  - unfold closer_step, CompareAndSwap_running, close_closeChan in Hs.
    destruct (closers s !! j) as [[| |]|]; try discriminate;
      [destruct (running (retry s) =? 1)|destruct (closeChan (retry s))];
      inversion Hs; subst; simpl; auto.
Qed.

(** X13. Panics of an output that was wired with a non-nil channel, is
    fed transactions with non-nil payloads, and whose response channels
    upstream keeps open; the operations concerned are the sends on and
    closes of [transactionsOut], the closes of [closeChan] and
    [closedChan], and [res.Error()]. Every further [Consume] is refused
    with the already-started error and changes nothing, so that no
    second [loop] is ever started on the struct. When an execution has
    panicked, then either a worker has received a nil response from the
    child, on which [res.Error()] panics, or a worker's resubmission has
    sent on [transactionsOut] after the coordinator left its loop and
    closed it. In particular none of these channels is closed twice, and
    nothing but a nil response panics while the coordinator is in its
    loop. *)
Theorem panics_are_nil_response_or_late_resubmission (r0 : Retry W B)
    (s : System W B) (tr : list Action) :
  fresh r0 -> transactionsIn r0 <> None -> execution (started r0) s tr ->
  (forall ts, Consume ts (retry s) = (retry s, false, Some ErrAlreadyStarted))
  /\ (forall p, panicked s = Some p ->
        (p = NilResponse
         /\ exists i w, workers s !! i = Some w /\ wpc w = WAwait)
        \/ (p = SendOnClosedChannel
            /\ transactionsOut (retry s) = Closed
            /\ in_loop (coord s) = false
            /\ exists i w, workers s !! i = Some w /\ wpc w = WResubmit)).
Proof.
  intros Hfresh Hin Hex. split.
  { intros ts1. unfold Consume. rewrite (transactionsIn_unchanged r0 s tr Hex).
    destruct (transactionsIn r0); [reflexivity|congruence]. }
  intros p Hp.
  inversion Hex as [|s1 tr1 e s2 acts Hex1 Hs]; subst.
  { simpl in Hp. discriminate. }
  pose proof (lifecycle_coord_invariant r0 s1 tr1 Hfresh Hex1) as
    [_ (_ & Hout1 & Hcl1 & _)].
  unfold step in Hs. destruct (panicked s1) eqn:Hp1; [discriminate|].
  destruct e as [ce|j we| |j].
  - exfalso. unfold coord_step in Hs.
    destruct (coord s1) eqn:Hc; destruct ce; try discriminate;
      simpl in Hout1, Hcl1;
      repeat match type of Hs with
             | context [match ?x with _ => _ end] => destruct x eqn:?
             end;
      simplify_eq; simpl in *; congruence.
  - unfold worker_step, worker_exit in Hs.
    destruct (workers s1 !! j) as [w|] eqn:Hj; [|discriminate].
    destruct (wpc w) eqn:Hpc; destruct we; try discriminate;
      repeat match type of Hs with
             | context [match ?x with _ => _ end] => destruct x eqn:?
             end;
      simplify_eq; simpl in *; try congruence; inversion Hp; subst p.
    + left. split; [reflexivity|]. exists j, w. auto.
    + right. split; [reflexivity|]. split; [assumption|]. split.
      * destruct (in_loop (coord s1)); [congruence|reflexivity].
      * exists j, w. auto.
  - inversion Hs; subst. simpl in Hp. congruence.
  - exfalso. unfold closer_step, CompareAndSwap_running, close_closeChan in Hs.
    pose proof (lifecycle_coord_invariant r0 _ _ Hfresh Hex) as
      [_ (_ & _ & _ & Hnc)].
    destruct (closers s1 !! j) as [[| |]|]; try discriminate;
      [destruct (running (retry s1) =? 1)|destruct (closeChan (retry s1)) eqn:Hcc];
      inversion Hs; subst; simpl in *; congruence.
Qed.

End RoutingProperties.

(** ** Intake after a stop request *)

Lemma after_swap_none (tr : list Action) : swaps tr = 0%nat -> after_swap tr = [].
Proof.
  unfold swaps. induction tr as [|x tr IH]; simpl; [reflexivity|].
  destruct x as [| | | | | | | | |j [|]| |]; simpl; intros Hz; try lia; auto.
Qed.

Lemma after_swap_app (tr acts : list Action) :
  after_swap (tr ++ acts)
  = if Nat.eqb (swaps tr) 0 then after_swap acts else after_swap tr ++ acts.
Proof.
  unfold swaps. induction tr as [|x tr IH]; simpl; [reflexivity|].
  destruct x as [| | | | | | | | |j [|]| |]; simpl; auto.
Qed.

Section IntakeProperties.

Context {W B : Type} {OW : OutputType W} {OB : BackOffType B}.

(** X14. After the call of [CloseAsync] that clears the running flag, the
    coordinator pulls at most one more transaction from upstream, and
    having pulled it does not come back to the acquire select. *)
Theorem at_most_one_pull_after_stop (r0 : Retry W B) (s : System W B)
    (tr : list Action) :
  fresh r0 -> execution (started r0) s tr ->
  (pulls (after_swap tr) <= 1)%nat
  /\ (pulls (after_swap tr) = 1%nat -> past_acquire (coord s)).
Proof.
  intros Hfresh Hex.
  refine (execution_invariant
            (fun s tr => (pulls (after_swap tr) <= 1)%nat
                         /\ (pulls (after_swap tr) = 1%nat -> past_acquire (coord s)))
            (started r0) _ _ s tr Hex).
  { simpl. split; [unfold pulls; simpl; lia|]. unfold pulls. simpl. discriminate. }
  clear s tr Hex. intros s tr e s' acts Hex (Hle & Hpa) Hs.
  destruct (lifecycle_coord_invariant r0 s tr Hfresh Hex) as [Hl _].
  assert (Hrun : swaps tr <> 0%nat -> running (retry s) = 0).
  { intros Hsw. destruct Hl as [(_&_&Hz&_)|[(Hr&_)|(Hr&_)]]; [contradiction|auto..]. }
  assert (Hzero : running (retry s) = 1 -> swaps tr = 0%nat).
  { intros Hr. destruct Hl as [(_&_&Hz&_)|[(Hr'&_)|(Hr'&_)]]; [auto|lia..]. }
  rewrite after_swap_app. unfold step in Hs.
  destruct (panicked s); [discriminate|].
  destruct (Nat.eqb_spec (swaps tr) 0) as [Hsw|Hsw].
  - (* the flag has not been cleared before this step *)
    assert (Hacts : pulls (after_swap acts) = 0%nat).
    { unfold pulls. destruct e as [ce|j we| |j].
      - unfold coord_step in Hs.
        repeat case_match; simplify_eq; reflexivity.
      - unfold worker_step, worker_exit in Hs.
        repeat case_match; simplify_eq; reflexivity.
      - inversion Hs; subst. reflexivity.
      - unfold closer_step, CompareAndSwap_running, close_closeChan in Hs.
        repeat case_match; simplify_eq; reflexivity. }
    rewrite Hacts. split; [lia|discriminate].
  - (* it has *)
    specialize (Hrun Hsw). unfold pulls in *. rewrite count_app.
    destruct e as [ce|j we| |j].
    + unfold coord_step in Hs.
      destruct (coord s) eqn:Hc; destruct ce; try discriminate;
        simpl in Hpa;
        repeat match type of Hs with
               | context [match ?x with _ => _ end] => destruct x eqn:?
               end;
        simplify_eq; simpl; rewrite ?Hc; simpl;
        try (apply Z.eqb_eq in Heqb; lia);
        split; try lia; try (intros; exact I); try (intros Hx; apply Hpa; lia).
    + pose proof (worker_step_frame _ _ _ _ _ Hs) as
        (_ & _ & _ & _ & _ & _ & _ & _ & Hco & _ & _ & Hpl & _).
      unfold pulls in Hpl. rewrite Hpl, Nat.add_0_r. split; [exact Hle|].
      intros H1. specialize (Hpa H1).
      destruct Hco as [->|[Hc1 Hc2]]; [exact Hpa|].
      rewrite Hc1 in Hpa. destruct Hpa.
    + inversion Hs; subst. simpl. rewrite Nat.add_0_r. auto.
    + unfold closer_step, CompareAndSwap_running, close_closeChan in Hs.
      destruct (closers s !! j) as [[| |]|]; try discriminate;
        [destruct (running (retry s) =? 1)|destruct (closeChan (retry s))];
        inversion Hs; subst; simpl; rewrite Nat.add_0_r; auto.
Qed.

End IntakeProperties.

(** ** Winding down after cancellation *)

Section WindDownProperties.

Context {W B : Type} {OW : OutputType W} {OB : BackOffType B}.

(** With the cancellation channel closed, a worker can return from
    wherever it stands, touching neither the struct nor the others. *)
Lemma worker_can_return (s : System W B) (tr : list Action) (i : nat) (w : Worker B) :
  panicked s = None -> closeChan (retry s) = Closed -> running (retry s) <> 1 ->
  workers s !! i = Some w ->
  exists es s' tr' w',
    run es s tr = Some (s', tr')
    /\ retry s' = retry s /\ panicked s' = None
    /\ workers s' = <[i := w']> (workers s) /\ wpc w' = WDone
    /\ in_loop (coord s') = in_loop (coord s).
Proof.
  intros Hp Hc Hr Hi. pose proof (lookup_lt_Some _ _ _ Hi) as Hlt.
  apply Z.eqb_neq in Hr.
  assert (Hin : forall pc, in_loop (interrupted pc) = in_loop pc)
    by (intros pc; destruct pc; reflexivity).
  destruct w as [t rc bo ro iel pc].
  destruct pc.
  - (* at the loop head *)
    exists [EWorker i WTau; EWorker i WClosed].
    unfold run, step, worker_step, worker_exit. rewrite Hp, Hi. simpl.
    rewrite Hr. simpl. rewrite Hp.
    rewrite list_lookup_insert_eq by exact Hlt. simpl. rewrite Hc. simpl.
    destruct iel; eexists _, _, _; (split; [reflexivity|]); simpl;
      rewrite ?Hin; (split; [reflexivity|]); (split; [exact Hp|]);
      (split; [apply list_insert_insert_eq|]); split; reflexivity.
  - exists [EWorker i WClosed].
    unfold run, step, worker_step, worker_exit. rewrite Hp, Hi. simpl.
    rewrite Hc. simpl.
    destruct iel; eexists _, _, _; (split; [reflexivity|]); simpl;
      rewrite ?Hin; (split; [reflexivity|]); (split; [exact Hp|]);
      (split; [reflexivity|]); split; reflexivity.
  - exists [EWorker i WClosed].
    unfold run, step, worker_step, worker_exit. rewrite Hp, Hi. simpl.
    rewrite Hc. simpl.
    destruct iel; eexists _, _, _; (split; [reflexivity|]); simpl;
      rewrite ?Hin; (split; [reflexivity|]); (split; [exact Hp|]);
      (split; [reflexivity|]); split; reflexivity.
  - exists [EWorker i WClosed].
    unfold run, step, worker_step, worker_exit. rewrite Hp, Hi. simpl.
    rewrite Hc. simpl.
    destruct iel; eexists _, _, _; (split; [reflexivity|]); simpl;
      rewrite ?Hin; (split; [reflexivity|]); (split; [exact Hp|]);
      (split; [reflexivity|]); split; reflexivity.
  - exists [EWorker i WClosed].
    unfold run, step, worker_step, worker_exit. rewrite Hp, Hi. simpl.
    rewrite Hc. simpl.
    destruct iel; eexists _, _, _; (split; [reflexivity|]); simpl;
      rewrite ?Hin; (split; [reflexivity|]); (split; [exact Hp|]);
      (split; [reflexivity|]); split; reflexivity.
  - (* returned already *)
    exists [], s, tr, (mkWorker t rc bo ro iel WDone). simpl.
    repeat split; auto. symmetry. apply list_insert_id. exact Hi.
Qed.

Lemma workers_can_return (n : nat) :
  forall (s : System W B) (tr : list Action),
    panicked s = None -> closeChan (retry s) = Closed -> running (retry s) <> 1 ->
    (n <= length (workers s))%nat ->
    exists es s' tr',
      run es s tr = Some (s', tr')
      /\ retry s' = retry s /\ panicked s' = None
      /\ length (workers s') = length (workers s)
      /\ (forall j w', (j < n)%nat -> workers s' !! j = Some w' -> wpc w' = WDone)
      /\ in_loop (coord s') = in_loop (coord s).
Proof.
  induction n as [|n IH]; intros s tr Hp Hc Hr Hn.
  - exists [], s, tr. simpl. repeat split; auto. intros j w' Hj. lia.
  - destruct (IH s tr Hp Hc Hr) as (es1 & s1 & tr1 & Hrun1 & Hre1 & Hp1 & Hlen1 & Hd1 & Hin1);
      [lia|].
    destruct (lookup_lt_is_Some_2 (workers s1) n) as [w Hw]; [lia|].
    destruct (worker_can_return s1 tr1 n w) as
      (es2 & s2 & tr2 & w' & Hrun2 & Hre2 & Hp2 & Hws2 & Hpc2 & Hin2);
      auto; try congruence.
    exists (es1 ++ es2), s2, tr2. rewrite run_app, Hrun1.
    split; [exact Hrun2|]. split; [congruence|]. split; [exact Hp2|].
    split; [rewrite Hws2, length_insert; exact Hlen1|]. split; [|congruence].
    intros j wj Hj Hlk. rewrite Hws2 in Hlk.
    apply list_lookup_insert_Some in Hlk.
    destruct Hlk as [(_ & <- & _)|[Hne Hlk]]; [exact Hpc2|].
    apply (Hd1 j wj); [lia|exact Hlk].
Qed.

(** With the cancellation channel closed and every worker returned, the
    coordinator leaves its loop from wherever it stands. *)
Lemma coordinator_can_leave (s : System W B) (tr : list Action) :
  panicked s = None -> closeChan (retry s) = Closed -> running (retry s) <> 1 ->
  wg s = 0 -> errLooped s <= 0 -> in_loop (coord s) = true ->
  exists es s' tr',
    run es s tr = Some (s', tr')
    /\ coord s' = CDefCloseOut /\ panicked s' = None
    /\ workers s' = workers s
    /\ wrapped (retry s') = wrapped (retry s)
    /\ transactionsOut (retry s') = transactionsOut (retry s)
    /\ closedChan (retry s') = closedChan (retry s).
Proof.
  intros Hp Hc Hr Hwg Hel Hin. apply Z.eqb_neq in Hr.
  assert (Hg : (errLooped s >? 0) = false)
    by (destruct (Z.gtb_spec (errLooped s) 0); [lia|reflexivity]).
  destruct (coord s) eqn:Hpc; try discriminate.
  - exists [ECoord CTau; ECoord CTau; ECoord CTau].
    unfold run, step, coord_step. rewrite Hp, Hpc. simpl. rewrite Hp, Hr. simpl.
    rewrite Hp, Hwg. simpl. eexists _, _. split; [reflexivity|]. repeat split; auto.
  - exists [ECoord CTau; ECoord CTau].
    unfold run, step, coord_step. rewrite Hp, Hpc, Hr. simpl.
    rewrite Hp, Hwg. simpl. eexists _, _. split; [reflexivity|]. repeat split; auto.
  - exists [ECoord CTau; ECoord CClosed].
    unfold run, step, coord_step. rewrite Hp, Hpc, Hg. simpl.
    rewrite Hp, Hc. simpl. eexists _, _. split; [reflexivity|]. repeat split; auto.
  - exists [ECoord CTau; ECoord CClosed].
    unfold run, step, coord_step. rewrite Hp, Hpc. simpl.
    rewrite Hp, Hc. simpl. eexists _, _. split; [reflexivity|]. repeat split; auto.
  - exists [ECoord CClosed].
    unfold run, step, coord_step. rewrite Hp, Hpc, Hc. simpl.
    eexists _, _. split; [reflexivity|]. repeat split; auto.
  - exists [ECoord CClosed].
    unfold run, step, coord_step. rewrite Hp, Hpc, Hc. simpl.
    eexists _, _. split; [reflexivity|]. repeat split; auto.
  - exists [ECoord CClosed].
    unfold run, step, coord_step. rewrite Hp, Hpc, Hc. simpl.
    eexists _, _. split; [reflexivity|]. repeat split; auto.
  - exists [ECoord CTau].
    unfold run, step, coord_step. rewrite Hp, Hpc, Hwg. simpl.
    eexists _, _. split; [reflexivity|]. repeat split; auto.
Qed.

Lemma polls_wind_up (k : nat) :
  forall (s : System W B) (tr : list Action),
    panicked s = None -> coord s = CDefWait -> closedChan (retry s) = Open ->
    closes_after k (wrapped (retry s)) ->
    exists s' tr',
      run (repeat (ECoord CTau) (2 + k)) s tr = Some (s', tr')
      /\ coord s' = CExited /\ closedChan (retry s') = Closed
      /\ panicked s' = None /\ workers s' = workers s.
Proof.
  induction k as [|k IH]; intros s tr Hp Hc Hcl Hk; simpl in Hk.
  - destruct (wWaitForClose (wrapped (retry s)) Second) as [w' err] eqn:Hw.
    simpl in Hk. subst err. simpl repeat.
    erewrite run_cons_step;
      [|unfold step, coord_step; rewrite Hp, Hc, Hw; reflexivity].
    erewrite run_cons_step;
      [|unfold step, coord_step; simpl; rewrite Hp, Hcl; reflexivity].
    eexists _, _. split; [reflexivity|]. simpl. repeat split; auto.
  - destruct Hk as [Herr Hk].
    destruct (wWaitForClose (wrapped (retry s)) Second) as [w' [e|]] eqn:Hw;
      [|simpl in Herr; congruence].
    simpl in Hk.
    change (repeat (ECoord CTau) (2 + S k))
      with (ECoord CTau :: repeat (ECoord CTau) (2 + k)).
    erewrite run_cons_step;
      [|unfold step, coord_step; rewrite Hp, Hc, Hw; reflexivity].
    destruct (IH (set_coord CDefWait (set_retry (set_wrapped w' (retry s)) s))
                (tr ++ [AWrappedWait Second (Some e)]))
      as (s' & tr' & Hrun & H1 & H2 & H3 & H4); simpl; auto.
    exists s', tr'. auto.
Qed.

(** X15. Cancellation reaches every goroutine. From any point of an
    execution at which [CloseAsync] has closed the cancellation channel,
    nothing has panicked and the coordinator is still in its loop, the
    program can wind down: every worker returns from the select or the
    loop head it stands at, the coordinator leaves its loop and runs its
    deferred function, and, provided the child reports closed after some
    number of polls, the closed signal is fired. *)
Theorem cancellation_winds_down (r0 : Retry W B) (s : System W B)
    (tr : list Action) (k : nat) :
  fresh r0 -> execution (started r0) s tr ->
  panicked s = None -> closeChan (retry s) = Closed ->
  in_loop (coord s) = true ->
  closes_after k (wCloseAsync (wrapped (retry s))) ->
  exists es s' tr',
    run es s tr = Some (s', tr')
    /\ coord s' = CExited /\ closedChan (retry s') = Closed
    /\ Forall (fun w => wpc w = WDone) (workers s')
    /\ panicked s' = None.
Proof.
  intros Hfresh Hex Hp Hc Hin Hk.
  destruct (lifecycle_coord_invariant r0 s tr Hfresh Hex) as [Hl _].
  assert (Hr : running (retry s) <> 1).
  { destruct Hl as [(_ & Ho & _)|[(Hr & _)|(Hr & _)]]; [congruence|lia..]. }
  destruct (workers_can_return (length (workers s)) s tr Hp Hc Hr)
    as (es1 & s1 & tr1 & Hrun1 & Hre1 & Hp1 & Hlen1 & Hd1 & Hin1); [lia|].
  assert (Hex1 : execution (started r0) s1 tr1)
    by (eapply run_execution; eauto).
  assert (Hall : Forall (fun w => wpc w = WDone) (workers s1)).
  { apply Forall_lookup. intros j w Hj. apply (Hd1 j w); [|exact Hj].
    rewrite <- Hlen1. eapply lookup_lt_Some; eauto. }
  destruct (routing_invariant r0 s1 tr1 Hex1) as (Hwg & _).
  destruct (workers_invariant r0 s1 tr1 Hex1) as (_ & Hel & _).
  destruct (lifecycle_coord_invariant r0 s1 tr1 Hfresh Hex1) as [_ (_ & Hout & Hcl & _)].
  assert (Hlive : total live_flag (workers s1) = 0%nat)
    by (apply no_live_worker; exact Hall).
  assert (Herr : total err_flag (workers s1) = 0%nat).
  { clear -Hall. induction Hall as [|w ws Hd _ IH]; simpl; [reflexivity|].
    unfold err_flag at 1. rewrite Hd, andb_false_r. simpl. exact IH. }
  destruct (coordinator_can_leave s1 tr1)
    as (es2 & s2 & tr2 & Hrun2 & Hc2 & Hp2 & Hw2 & Hwr2 & Ho2 & Hcl2);
    try congruence; try lia.
  rewrite Hin1 in Hout. rewrite Hin in Hout.
  assert (Hcl' : closedChan (retry s1) = Open).
  { rewrite Hcl. destruct (coord s1) eqn:E; try reflexivity.
    simpl in Hin1. congruence. }
  destruct (polls_wind_up k
              (set_coord CDefWait
                 (set_retry (set_wrapped (wCloseAsync (wrapped (retry
                    (set_coord CDefCloseAsync
                       (set_retry (set_transactionsOut Closed (retry s2)) s2)))))
                    (retry (set_coord CDefCloseAsync
                       (set_retry (set_transactionsOut Closed (retry s2)) s2))))
                    (set_coord CDefCloseAsync
                       (set_retry (set_transactionsOut Closed (retry s2)) s2))))
              ((tr2 ++ [ACloseOut]) ++ [AWrappedCloseAsync]))
    as (s3 & tr3 & Hrun3 & Hc3 & Hcl3 & Hp3 & Hw3); simpl; auto.
  { congruence. }
  { rewrite Hwr2, Hre1. exact Hk. }
  exists (es1 ++ es2 ++ ECoord CTau :: ECoord CTau :: repeat (ECoord CTau) (2 + k)),
    s3, tr3.
  rewrite run_app, Hrun1, run_app, Hrun2.
  erewrite run_cons_step;
    [|unfold step, coord_step; rewrite Hp2, Hc2, Ho2, Hout; reflexivity].
  erewrite run_cons_step;
    [|unfold step, coord_step; simpl; rewrite Hp2; reflexivity].
  split; [exact Hrun3|]. split; [exact Hc3|]. split; [exact Hcl3|].
  split; [|exact Hp3]. rewrite Hw3. simpl. rewrite Hw2. exact Hall.
Qed.

End WindDownProperties.

(** ** What a worker's outcome says *)

Section WorkerProperties.

Context {W B : Type} {OW : OutputType W} {OB : BackOffType B}.

(** X8. A worker's [resOut] tells what it has received: it is an ack
    exactly when the worker has received a success response, of which
    there is never more than one, and a noack exactly when it has counted
    an end of retries, also at most once and never together with a
    success; in the latter case the last call of [NextBackOff] returned
    [Stop]. Whatever the worker has written upstream is its [resOut], and
    the worker has then returned. *)
Theorem outcome_reflects_responses (r0 : Retry W B) (s : System W B)
    (tr : list Action) (i : nat) (w : Worker B) :
  execution (started r0) s tr -> workers s !! i = Some w ->
  (successes i tr = 1%nat <-> resOut w = ResAck)
  /\ (end_of_retries i tr = 1%nat <-> resOut w = ResNoack)
  /\ (successes i tr + end_of_retries i tr <= 1)%nat
  /\ (resOut w = ResNoack ->
      exists k, failures i tr = S k /\ nth_backoff k (backoffCtor r0 ()) = Stop)
  /\ (forall res, In res (responses i tr) -> res = resOut w /\ wpc w = WDone).
Proof.
  intros Hex Hi.
  destruct (workers_invariant r0 s tr Hex) as (_ & _ & Hw & _).
  destruct (Hw i w Hi) as [_ _ _ _ _ _ Hla Hno Hsu Heo Hst].
  rewrite Hsu, Heo. split; [|split; [|split; [|split]]].
  - destruct (resOut w); simpl; split; congruence.
  - destruct (resOut w); simpl; split; congruence.
  - destruct (resOut w); simpl; lia.
  - intros Hr. destruct (failures i tr) as [|k] eqn:Hk;
      [exfalso; apply Hno; auto|].
    exists k. split; [reflexivity|]. apply (Hla k); auto.
  - intros res Hin. unfold worker_stage in Hst.
    destruct (wpc w); try (destruct Hst as (Hre & _); rewrite Hre in Hin; contradiction).
    + destruct Hst as (_ & Hre & _). rewrite Hre in Hin. contradiction.
    + destruct Hst as (_ & Hre & _). rewrite Hre in Hin. contradiction.
    + destruct Hst as (_ & Hre & _). rewrite Hre in Hin. contradiction.
    + destruct Hst as (_ & Hre & _). rewrite Hre in Hin. contradiction.
    + destruct Hst as [(Hre & _)|(Hre & _)]; rewrite Hre in Hin; simpl in Hin;
        [contradiction|]. destruct Hin as [<-|[]]. auto.
Qed.

(** X9. Each worker has its own backoff instance, made by the constructor
    at the worker's first failure and advanced by one call of
    [NextBackOff] at every failure: a worker that has not failed has no
    instance and is not in its error loop, and the instance of a worker
    that has failed [k] times is the constructor's instance after [k]
    calls, all of which but possibly the last returned a wait. *)
Theorem backoff_instance_per_worker (r0 : Retry W B) (s : System W B)
    (tr : list Action) (i : nat) (w : Worker B) :
  execution (started r0) s tr -> workers s !! i = Some w ->
  (backOff w = None <-> failures i tr = 0%nat)
  /\ (inErrLoop w = false <-> failures i tr = 0%nat)
  /\ (forall b, backOff w = Some b ->
         b = after_calls (failures i tr) (backoffCtor r0 ()))
  /\ (forall j, (S j < failures i tr)%nat ->
         nth_backoff j (backoffCtor r0 ()) <> Stop)
  /\ backoffCtor (retry s) = backoffCtor r0.
Proof.
  intros Hex Hi.
  destruct (workers_invariant r0 s tr Hex) as (Hb & _ & Hw & _).
  destruct (Hw i w Hi) as [_ Hf _ _ Hbo Hwa _ _ _ _ _].
  rewrite Hbo, Hf. split; [|split; [|split; [|split]]]; auto.
  - destruct (failures i tr); split; congruence.
  - destruct (failures i tr); simpl; split; congruence.
  - intros b Hb'. destruct (failures i tr); congruence.
Qed.

End WorkerProperties.

(** ** The deferred function, from the exit of the loop to the closed signal *)

Section ShutdownProperties.

Context {W B : Type} {OW : OutputType W} {OB : BackOffType B}.

Lemma shutdown_steps_sequence (errs : list error) :
  shutdown_steps (shutdown_sequence errs) = shutdown_sequence errs.
Proof.
  unfold shutdown_steps, shutdown_sequence. simpl. f_equal. f_equal.
  rewrite List.filter_app. simpl. f_equal.
  induction errs as [|e errs IH]; simpl; [reflexivity|]. rewrite IH. reflexivity.
Qed.

Lemma polls_in_order (k : nat) :
  forall (s : System W B) (tr : list Action),
    panicked s = None -> coord s = CDefWait -> closedChan (retry s) = Open ->
    closes_after k (wrapped (retry s)) ->
    exists s' errs,
      run (repeat (ECoord CTau) (2 + k)) s tr
      = Some (s', tr ++ map poll_failed errs
                     ++ [AWrappedWait Second None; AClosedSignal])
      /\ length errs = k
      /\ coord s' = CExited /\ closedChan (retry s') = Closed
      /\ transactionsOut (retry s') = transactionsOut (retry s)
      /\ panicked s' = None.
Proof.
  induction k as [|k IH]; intros s tr Hp Hc Hcl Hk; simpl in Hk.
  - destruct (wWaitForClose (wrapped (retry s)) Second) as [w' err] eqn:Hw.
    simpl in Hk. subst err. simpl repeat.
    erewrite run_cons_step;
      [|unfold step, coord_step; rewrite Hp, Hc, Hw; reflexivity].
    erewrite run_cons_step;
      [|unfold step, coord_step; simpl; rewrite Hp, Hcl; reflexivity].
    eexists _, []. simpl. rewrite <- app_assoc. simpl.
    split; [reflexivity|]. repeat split; auto.
  - destruct Hk as [Herr Hk].
    destruct (wWaitForClose (wrapped (retry s)) Second) as [w' [e|]] eqn:Hw;
      [|simpl in Herr; congruence].
    simpl in Hk.
    change (repeat (ECoord CTau) (2 + S k))
      with (ECoord CTau :: repeat (ECoord CTau) (2 + k)).
    erewrite run_cons_step;
      [|unfold step, coord_step; rewrite Hp, Hc, Hw; reflexivity].
    edestruct (IH (set_coord CDefWait (set_retry (set_wrapped w' (retry s)) s))
                (tr ++ [AWrappedWait Second (Some e)]))
      as (s' & errs & Hrun & Hlen & Hco & Hcd & Hto & Hp'); simpl; auto.
    exists s', (e :: errs). split; [|simpl; repeat split; auto].
    replace (tr ++ map poll_failed (e :: errs)
                ++ [AWrappedWait Second None; AClosedSignal])
      with ((tr ++ [AWrappedWait Second (Some e)]) ++ map poll_failed errs
              ++ [AWrappedWait Second None; AClosedSignal])
      by (rewrite <- app_assoc; reflexivity).
    exact Hrun.
Qed.

(** C9. However [loop] is left, the steps of its deferred function come
    in one order: the child's input is closed, the child is asked to
    stop, the child's [WaitForClose] is called with one second again and
    again as long as it returns an error, and after the call that
    returns nil the closed signal is fired. At every point of an
    execution the steps done so far are the part of that sequence that
    matches the coordinator's position; the signal has fired exactly when
    the coordinator has returned; and every step that takes the
    coordinator out of the loop body takes it to the start of the
    deferred function. From there the deferred function does run: with a
    child that reports closed at poll [k + 1], its [4 + k] steps are
    taken by the coordinator alone, they add exactly that sequence, with
    [k] failed polls, to what was done before, and they end with the
    child's input and the closed signal both closed, [loop] returned and
    nothing panicked. *)
Theorem deferred_shutdown_order (r0 : Retry W B) (s : System W B) (tr : list Action) :
  fresh r0 -> execution (started r0) s tr ->
  shutdown_stage (coord s) (shutdown_steps tr)
  /\ (closedChan (retry s) = Closed <-> coord s = CExited)
  /\ (closedChan (retry s) = Closed ->
      exists errs, shutdown_steps tr = shutdown_sequence errs)
  /\ (forall e s' acts, step e s = Some (s', acts) ->
        in_loop (coord s) = true -> in_loop (coord s') = false ->
        coord s' = CDefCloseOut /\ acts = [])
  /\ (forall k, panicked s = None -> coord s = CDefCloseOut ->
        closes_after k (wCloseAsync (wrapped (retry s))) ->
        exists s' errs,
          run (deferred_steps k) s tr = Some (s', tr ++ shutdown_sequence errs)
          /\ length errs = k
          /\ shutdown_steps (tr ++ shutdown_sequence errs) = shutdown_sequence errs
          /\ coord s' = CExited
          /\ transactionsOut (retry s') = Closed
          /\ closedChan (retry s') = Closed
          /\ panicked s' = None).
Proof.
  intros Hfresh Hex.
  destruct (shutdown_so_far r0 s tr Hfresh Hex) as (H1 & H2 & H3 & H4).
  split; [exact H1|]. split; [exact H2|]. split; [exact H3|]. split; [exact H4|].
  intros k Hp Hc Hk.
  destruct (lifecycle_coord_invariant r0 s tr Hfresh Hex) as [_ (Hst & Hout & Hcl & _)].
  rewrite Hc in Hst, Hout, Hcl. simpl in Hst, Hout, Hcl.
  unfold deferred_steps.
  change (repeat (ECoord CTau) (4 + k))
    with (ECoord CTau :: ECoord CTau :: repeat (ECoord CTau) (2 + k)).
  erewrite run_cons_step;
    [|unfold step, coord_step; rewrite Hp, Hc, Hout; reflexivity].
  erewrite run_cons_step;
    [|unfold step, coord_step; simpl; rewrite Hp; reflexivity].
  edestruct (polls_in_order k
               (set_coord CDefWait
                  (set_retry
                     (set_wrapped (wCloseAsync (wrapped (retry s)))
                        (set_transactionsOut Closed (retry s)))
                     (set_coord CDefCloseAsync
                        (set_retry (set_transactionsOut Closed (retry s)) s))))
               ((tr ++ [ACloseOut]) ++ [AWrappedCloseAsync]))
    as (s' & errs & Hrun & Hlen & Hco & Hcd & Hto & Hp'); simpl; auto.
  exists s', errs. split; [|split; [exact Hlen|split]].
  - replace (tr ++ shutdown_sequence errs)
      with (((tr ++ [ACloseOut]) ++ [AWrappedCloseAsync]) ++ map poll_failed errs
              ++ [AWrappedWait Second None; AClosedSignal])
      by (rewrite <- !app_assoc; reflexivity).
    exact Hrun.
  - rewrite shutdown_steps_app, Hst, shutdown_steps_sequence. reflexivity.
  - simpl in Hto. repeat split; auto.
Qed.

End ShutdownProperties.

(** ** The calls of [CloseAsync], from the first to the last *)

Section CallProperties.

Context {W B : Type} {OW : OutputType W} {OB : BackOffType B}.

(** A call that has been made returns by its own steps, at most two. *)
Lemma call_can_return (r0 : Retry W B) (s : System W B) (tr : list Action)
    (j : nat) (c : CloserPc) :
  fresh r0 -> execution (started r0) s tr -> panicked s = None ->
  closers s !! j = Some c ->
  exists es s' tr',
    run es s tr = Some (s', tr')
    /\ Forall of_calls es
    /\ panicked s' = None
    /\ closers s' = <[j := ClReturned]> (closers s).
Proof.
  intros Hfresh Hex Hp Hj. pose proof (lookup_lt_Some _ _ _ Hj) as Hlt.
  destruct (lifecycle_coord_invariant r0 s tr Hfresh Hex) as [Hl _].
  pose proof (total_lookup_le closing _ _ _ Hj) as Hle.
  destruct c.
  - destruct (running (retry s) =? 1) eqn:Hr.
    + assert (Hc : closeChan (retry s) = Open).
      { apply Z.eqb_eq in Hr.
        destruct Hl as [(_ & Ho & _)|[(Hr0 & _)|(Hr0 & _)]]; [exact Ho|lia..]. }
      exists [ECloser j; ECloser j]. eexists _, _.
      unfold run, step, closer_step, CompareAndSwap_running, close_closeChan.
      rewrite Hp, Hj, Hr. simpl. rewrite Hp.
      rewrite list_lookup_insert_eq by exact Hlt. simpl. rewrite Hc.
      split; [reflexivity|]. simpl.
      split; [repeat constructor; eexists; reflexivity|].
      split; [exact Hp|]. apply list_insert_insert_eq.
    + exists [ECloser j]. eexists _, _.
      unfold run, step, closer_step, CompareAndSwap_running.
      rewrite Hp, Hj, Hr. split; [reflexivity|]. simpl.
      split; [repeat constructor; eexists; reflexivity|].
      split; [exact Hp|reflexivity].
  - assert (Hc : closeChan (retry s) = Open).
    { simpl in Hle.
      destruct Hl as [(_ & _ & _ & _ & Hf)|[(_ & Ho & _)|(_ & _ & _ & _ & Hz)]];
        [|exact Ho|lia].
      apply no_call_closing in Hf. lia. }
    exists [ECloser j]. eexists _, _.
    unfold run, step, closer_step, close_closeChan.
    rewrite Hp, Hj, Hc. split; [reflexivity|]. simpl.
    split; [repeat constructor; eexists; reflexivity|].
    split; [exact Hp|reflexivity].
  - exists [], s, tr. simpl. split; [reflexivity|]. split; [constructor|].
    split; [exact Hp|]. symmetry. apply list_insert_id. exact Hj.
Qed.

Lemma calls_can_return (r0 : Retry W B) (n : nat) :
  fresh r0 ->
  forall (s : System W B) (tr : list Action),
    execution (started r0) s tr -> panicked s = None ->
    (n <= length (closers s))%nat ->
    exists es s' tr',
      run es s tr = Some (s', tr')
      /\ Forall of_calls es
      /\ panicked s' = None
      /\ length (closers s') = length (closers s)
      /\ (forall j, (j < n)%nat -> closers s' !! j = Some ClReturned).
Proof.
  intros Hfresh. induction n as [|n IH]; intros s tr Hex Hp Hn.
  - exists [], s, tr. simpl. repeat split; auto. intros j Hj. lia.
  - destruct (IH s tr Hex Hp) as (es1 & s1 & tr1 & Hrun1 & Hes1 & Hp1 & Hlen1 & Hd1);
      [lia|].
    destruct (lookup_lt_is_Some_2 (closers s1) n) as [c Hc]; [lia|].
    pose proof (run_execution _ _ _ _ _ _ Hex Hrun1) as Hex1.
    destruct (call_can_return r0 s1 tr1 n c Hfresh Hex1 Hp1 Hc)
      as (es2 & s2 & tr2 & Hrun2 & Hes2 & Hp2 & Hcl2).
    exists (es1 ++ es2), s2, tr2. rewrite run_app, Hrun1.
    split; [exact Hrun2|]. split; [apply Forall_app; split; assumption|].
    split; [exact Hp2|]. split; [rewrite Hcl2, length_insert; exact Hlen1|].
    intros j Hj. rewrite Hcl2.
    destruct (decide (j = n)) as [->|Hne].
    + apply list_lookup_insert_eq. lia.
    + rewrite list_lookup_insert_ne by congruence. apply Hd1. lia.
Qed.

(** C5. Whatever the number of calls of [CloseAsync] and however they
    interleave with each other and with the rest: at most one call swaps
    the running flag, the cancellation channel is closed at most once and
    only after a swap, and no close of a closed channel ever panics. As
    soon as some call has gone past its compare-and-swap, exactly one
    swap has happened and the flag is 0; once every call made (at least
    one) has returned, the channel has been closed exactly once. A call
    that finds the flag cleared changes nothing in the struct. And the
    calls do their work: a call that finds the flag at 1 swaps it to 0
    and, with its next step, closes the cancellation channel, the two
    steps together being [CloseAsync] on the struct; the call that has
    swapped can always take its second step, which closes the channel
    and does not panic; and from any point at which at least one call
    has been made, the calls alone can all return, with then exactly one
    swap and one close done, the flag 0 and the channel closed. *)
Theorem CloseAsync_idempotent (r0 : Retry W B) (s : System W B) (tr : list Action) :
  fresh r0 -> execution (started r0) s tr ->
  (swaps tr <= 1)%nat /\ (cancels tr <= swaps tr)%nat
  /\ panicked s <> Some CloseOfClosedChannel
  /\ (forall j c, closers s !! j = Some c -> c <> ClCas ->
        swaps tr = 1%nat /\ running (retry s) = 0)
  /\ (closers s <> [] -> Forall (fun c => c = ClReturned) (closers s) ->
        swaps tr = 1%nat /\ cancels tr = 1%nat
        /\ running (retry s) = 0 /\ closeChan (retry s) = Closed)
  /\ (forall j s' acts, running (retry s) <> 1 ->
        closers s !! j = Some ClCas -> step (ECloser j) s = Some (s', acts) ->
        retry s' = retry s /\ acts = [ACas j false]
        /\ closers s' = <[j := ClReturned]> (closers s))
  /\ (forall j, panicked s = None -> closers s !! j = Some ClCas ->
        running (retry s) = 1 ->
        exists s1 s2,
          step (ECloser j) s = Some (s1, [ACas j true])
          /\ running (retry s1) = 0 /\ closeChan (retry s1) = Open
          /\ closers s1 = <[j := ClClose]> (closers s)
          /\ step (ECloser j) s1 = Some (s2, [ACloseCancel j])
          /\ retry s2 = set_closeChan Closed (set_running 0 (retry s))
          /\ CloseAsync (retry s) = Some (retry s2)
          /\ closers s2 = <[j := ClReturned]> (closers s))
  /\ (forall j, panicked s = None -> closers s !! j = Some ClClose ->
        exists s',
          step (ECloser j) s = Some (s', [ACloseCancel j])
          /\ running (retry s') = 0 /\ closeChan (retry s') = Closed
          /\ panicked s' = None
          /\ closers s' = <[j := ClReturned]> (closers s))
  /\ (panicked s = None -> closers s <> [] ->
        exists es s' tr',
          run es s tr = Some (s', tr')
          /\ Forall of_calls es
          /\ length (closers s') = length (closers s)
          /\ Forall (fun c => c = ClReturned) (closers s')
          /\ swaps tr' = 1%nat /\ cancels tr' = 1%nat
          /\ running (retry s') = 0 /\ closeChan (retry s') = Closed
          /\ panicked s' = None).
Proof.
  intros Hfresh Hex.
  destruct (calls_so_far r0 s tr Hfresh Hex) as (H1 & H2 & H3 & H4 & H5 & H6).
  destruct (lifecycle_coord_invariant r0 s tr Hfresh Hex) as [Hl _].
  split; [exact H1|]. split; [exact H2|]. split; [exact H3|]. split; [exact H4|].
  split; [exact H5|]. split; [exact H6|]. split; [|split].
  - (* the call that swaps *)
    intros j Hp Hj Hr. pose proof (lookup_lt_Some _ _ _ Hj) as Hlt.
    assert (Hc : closeChan (retry s) = Open).
    { destruct Hl as [(_ & Ho & _)|[(Hr0 & _)|(Hr0 & _)]]; [exact Ho|lia..]. }
    exists (put_closer j ClClose (set_retry (set_running 0 (retry s)) s)).
    exists (put_closer j ClReturned
              (set_retry (set_closeChan Closed (set_running 0 (retry s)))
                 (put_closer j ClClose (set_retry (set_running 0 (retry s)) s)))).
    split.
    { unfold step, closer_step, CompareAndSwap_running.
      rewrite Hp, Hj, Hr. reflexivity. }
    split; [reflexivity|]. split; [exact Hc|]. split; [reflexivity|]. split.
    { unfold step, closer_step, close_closeChan. simpl. rewrite Hp.
      rewrite list_lookup_insert_eq by exact Hlt. simpl. rewrite Hc. reflexivity. }
    split; [reflexivity|]. split.
    { unfold CloseAsync, CompareAndSwap_running, close_closeChan.
      rewrite Hr. simpl. rewrite Hc. reflexivity. }
    simpl. apply list_insert_insert_eq.
  - (* the second step of the call that has swapped *)
    intros j Hp Hj.
    destruct (H4 j ClClose Hj) as [_ Hr]; [discriminate|].
    pose proof (total_lookup_le closing _ _ _ Hj) as Hle. simpl in Hle.
    assert (Hc : closeChan (retry s) = Open).
    { destruct Hl as [(_ & _ & _ & _ & Hf)|[(_ & Ho & _)|(_ & _ & _ & _ & Hz)]];
        [|exact Ho|lia].
      apply no_call_closing in Hf. lia. }
    eexists. unfold step, closer_step, close_closeChan. rewrite Hp, Hj, Hc.
    split; [reflexivity|]. simpl. repeat split; auto.
  - (* every call returns *)
    intros Hp Hne.
    destruct (calls_can_return r0 (length (closers s)) Hfresh s tr Hex Hp)
      as (es & s' & tr' & Hrun & Hes & Hp' & Hlen & Hd); [lia|].
    pose proof (run_execution _ _ _ _ _ _ Hex Hrun) as Hex'.
    assert (Hall : Forall (fun c => c = ClReturned) (closers s')).
    { apply Forall_lookup. intros j c Hj.
      pose proof (lookup_lt_Some _ _ _ Hj) as Hlt.
      rewrite Hd in Hj by lia. congruence. }
    destruct (calls_so_far r0 s' tr' Hfresh Hex') as (_ & _ & _ & _ & H5' & _).
    destruct H5' as (Hs & Hc & Hr & Hcc); [|exact Hall|].
    { intros Hnil. rewrite Hnil in Hlen. simpl in Hlen.
      destruct (closers s); [congruence|discriminate]. }
    exists es, s', tr'. repeat split; auto.
Qed.

End CallProperties.

(** ** Workers, from any point to their return *)

Section ReturnProperties.

Context {W B : Type} {OW : OutputType W} {OB : BackOffType B}.

(** What remains of [returns_by] once the run and the counter are known:
    the tally of the worker's additions and subtractions. *)
Lemma returned_tally (r0 : Retry W B) (s s' : System W B) (tr tr' : list Action)
    (es : list Event) (i : nat) (w w' : Worker B) (res : ResOut) :
  execution (started r0) s tr ->
  run es s tr = Some (s', tr') ->
  workers s' !! i = Some w' -> wpc w' = WDone -> resOut w' = res ->
  errLooped s' = errLooped s - Z.of_nat (err_flag w) ->
  returns_by i es s tr w res.
Proof.
  intros Hex Hrun Hw' Hpc Hres He.
  exists s', tr', w'. split; [exact Hrun|]. split; [exact Hw'|].
  split; [exact Hpc|]. split; [exact Hres|]. split; [exact He|].
  pose proof (run_execution _ _ _ _ _ _ Hex Hrun) as Hex'.
  destruct (errLooped_so_far r0 s' tr' Hex') as (_ & _ & Hacc).
  destruct (Hacc i w' Hw') as (Hinc & Hdec & _).
  rewrite Hpc in Hdec. simpl in Hdec. split; [exact Hdec|exact Hinc].
Qed.

(** A worker that receives a success returns once upstream has taken its
    ack. *)
Lemma success_returns (r0 : Retry W B) (s : System W B) (tr : list Action)
    (i : nat) (w : Worker B) :
  execution (started r0) s tr -> panicked s = None ->
  workers s !! i = Some w -> wpc w = WAwait ->
  returns_by i [EWorker i (WRecv None); EWorker i WTaken] s tr w ResAck.
Proof.
  intros Hex Hp Hw Hpc.
  pose proof (lookup_lt_Some _ _ _ Hw) as Hlt.
  assert (Hrun : exists s' tr' w',
             run [EWorker i (WRecv None); EWorker i WTaken] s tr = Some (s', tr')
             /\ workers s' !! i = Some w' /\ wpc w' = WDone /\ resOut w' = ResAck
             /\ errLooped s' = errLooped s - Z.of_nat (err_flag w)).
  { destruct w as [t rc bo ro iel pc]. simpl in *. subst pc.
    destruct s as [r el g c ws cl p]. simpl in *. subst p.
    unfold run, step, worker_step, worker_exit; simpl.
    rewrite Hw; simpl.
    rewrite list_lookup_insert_eq by exact Hlt. simpl.
    destruct iel; simpl;
      (eexists _, _, _; split; [reflexivity|]); simpl;
      (split; [apply list_lookup_insert_eq; rewrite !length_insert; exact Hlt|]);
      (split; [reflexivity|]); (split; [reflexivity|]);
      unfold err_flag; simpl; lia. }
  destruct Hrun as (s' & tr' & w' & Hrun & Hw' & Hd & Hres & He).
  eapply returned_tally; eauto.
Qed.

(** A worker whose budget is exhausted by the next failure returns once
    upstream has taken its noack. *)
Lemma stop_returns (r0 : Retry W B) (s : System W B) (tr : list Action)
    (i : nat) (w : Worker B) (err : error) :
  execution (started r0) s tr -> panicked s = None ->
  workers s !! i = Some w -> wpc w = WAwait ->
  nth_backoff (failures i tr) (backoffCtor r0 ()) = Stop ->
  returns_by i [EWorker i (WRecv (Some err)); EWorker i WTaken] s tr w ResNoack.
Proof.
  intros Hex Hp Hw Hpc Hstop.
  pose proof (next_backoff_call r0 s tr i w Hex Hw) as Hnb.
  pose proof (lookup_lt_Some _ _ _ Hw) as Hlt.
  apply Z.eqb_eq in Hstop.
  assert (Hrun : exists s' tr' w',
             run [EWorker i (WRecv (Some err)); EWorker i WTaken] s tr = Some (s', tr')
             /\ workers s' !! i = Some w' /\ wpc w' = WDone /\ resOut w' = ResNoack
             /\ errLooped s' = errLooped s - Z.of_nat (err_flag w)).
  { destruct w as [t rc bo ro iel pc]. simpl in *. subst pc.
    destruct s as [r el g c ws cl p]. simpl in *. subst p.
    unfold run, step, worker_step, worker_exit; simpl.
    rewrite Hw; simpl. rewrite Hnb, Hstop.
    destruct iel; simpl;
      (rewrite list_lookup_insert_eq by exact Hlt); simpl;
      (eexists _, _, _; split; [reflexivity|]); simpl;
      (split; [apply list_lookup_insert_eq; rewrite !length_insert; exact Hlt|]);
      (split; [reflexivity|]); (split; [reflexivity|]);
      unfold err_flag; simpl; lia. }
  destruct Hrun as (s' & tr' & w' & Hrun & Hw' & Hd & Hres & He).
  eapply returned_tally; eauto.
Qed.

(** A worker that finds the cancellation channel closed in one of its
    selects returns at once. *)
Lemma cancel_returns (r0 : Retry W B) (s : System W B) (tr : list Action)
    (i : nat) (w : Worker B) :
  execution (started r0) s tr -> panicked s = None ->
  workers s !! i = Some w -> wpc w <> WLoop -> wpc w <> WDone ->
  closeChan (retry s) = Closed ->
  returns_by i [EWorker i WClosed] s tr w (resOut w).
Proof.
  intros Hex Hp Hw Hl Hd Hc.
  pose proof (lookup_lt_Some _ _ _ Hw) as Hlt.
  assert (Hrun : exists s' tr' w',
             run [EWorker i WClosed] s tr = Some (s', tr')
             /\ workers s' !! i = Some w' /\ wpc w' = WDone /\ resOut w' = resOut w
             /\ errLooped s' = errLooped s - Z.of_nat (err_flag w)).
  { destruct w as [t rc bo ro iel pc]. simpl in *.
    destruct s as [r el g c ws cl p]. simpl in *. subst p.
    unfold run, step, worker_step, worker_exit; simpl.
    rewrite Hw; simpl.
    destruct pc; try congruence; simpl; rewrite Hc; simpl;
      destruct iel; simpl;
      (eexists _, _, _; split; [reflexivity|]); simpl;
      (split; [apply list_lookup_insert_eq; exact Hlt|]);
      (split; [reflexivity|]); (split; [reflexivity|]);
      unfold err_flag; simpl; lia. }
  destruct Hrun as (s' & tr' & w' & Hrun & Hw' & Hd' & Hres & He).
  eapply returned_tally; eauto.
Qed.

(** A worker that has left its retry loop, or that finds the running
    flag cleared at the head of the loop, returns once upstream has taken
    its response. *)
Lemma respond_returns (r0 : Retry W B) (s : System W B) (tr : list Action)
    (i : nat) (w : Worker B) :
  execution (started r0) s tr -> panicked s = None ->
  workers s !! i = Some w ->
  (wpc w = WRespond -> returns_by i [EWorker i WTaken] s tr w (resOut w))
  /\ (wpc w = WLoop -> running (retry s) <> 1 ->
      returns_by i [EWorker i WTau; EWorker i WTaken] s tr w (resOut w)).
Proof.
  intros Hex Hp Hw.
  pose proof (lookup_lt_Some _ _ _ Hw) as Hlt.
  split.
  - intros Hpc.
    assert (Hrun : exists s' tr' w',
               run [EWorker i WTaken] s tr = Some (s', tr')
               /\ workers s' !! i = Some w' /\ wpc w' = WDone /\ resOut w' = resOut w
               /\ errLooped s' = errLooped s - Z.of_nat (err_flag w)).
    { destruct w as [t rc bo ro iel pc]. simpl in *. subst pc.
      destruct s as [r el g c ws cl p]. simpl in *. subst p.
      unfold run, step, worker_step, worker_exit; simpl.
      rewrite Hw; simpl.
      destruct iel; simpl;
        (eexists _, _, _; split; [reflexivity|]); simpl;
        (split; [apply list_lookup_insert_eq; exact Hlt|]);
        (split; [reflexivity|]); (split; [reflexivity|]);
        unfold err_flag; simpl; lia. }
    destruct Hrun as (s' & tr' & w' & Hrun & Hw' & Hd & Hres & He).
    eapply returned_tally; eauto.
  - intros Hpc Hr. apply Z.eqb_neq in Hr.
    assert (Hrun : exists s' tr' w',
               run [EWorker i WTau; EWorker i WTaken] s tr = Some (s', tr')
               /\ workers s' !! i = Some w' /\ wpc w' = WDone /\ resOut w' = resOut w
               /\ errLooped s' = errLooped s - Z.of_nat (err_flag w)).
    { destruct w as [t rc bo ro iel pc]. simpl in *. subst pc.
      destruct s as [r el g c ws cl p]. simpl in *. subst p.
      unfold run, step, worker_step, worker_exit; simpl.
      rewrite Hw; simpl. rewrite Hr; simpl.
      rewrite list_lookup_insert_eq by exact Hlt. simpl.
      destruct iel; simpl;
        (eexists _, _, _; split; [reflexivity|]); simpl;
        (split; [apply list_lookup_insert_eq; rewrite !length_insert; exact Hlt|]);
        (split; [reflexivity|]); (split; [reflexivity|]);
        unfold err_flag; simpl; lia. }
    destruct Hrun as (s' & tr' & w' & Hrun & Hw' & Hd & Hres & He).
    eapply returned_tally; eauto.
Qed.

(** Each step of worker [i] changes [errLooped] by the additions and
    subtractions it is seen to make. *)
Lemma counter_follows_worker (r0 : Retry W B) (s s' : System W B)
    (tr acts : list Action) (i : nat) (e : WEvent) :
  execution (started r0) s tr ->
  step (EWorker i e) s = Some (s', acts) ->
  errLooped s' = errLooped s + Z.of_nat (increments i acts)
                 - Z.of_nat (decrements i acts).
Proof.
  intros Hex Hs. unfold step in Hs.
  destruct (panicked s); [discriminate|].
  destruct (workers s !! i) as [w|] eqn:Hw;
    [|unfold worker_step in Hs; rewrite Hw in Hs; discriminate].
  destruct (workers_invariant r0 s tr Hex) as (Hb & _ & Hinv & _).
  specialize (Hinv i w Hw).
  destruct (worker_step_own (backoffCtor r0 tt) _ _ _ _ _ tr w Hs Hw)
    as [(p & -> & ->)|(w' & Hw1 & _ & Hinv' & He1)];
    [rewrite Hb; reflexivity|exact Hinv| |].
  - simpl. unfold increments, decrements. simpl. lia.
  - destruct Hinv as [_ _ Hi Hd _ _ _ _ _ _ _].
    destruct Hinv' as [_ _ Hi' Hd' _ _ _ _ _ _ _].
    unfold increments, decrements in *. rewrite count_app in Hi', Hd'.
    unfold err_flag, one_if in *.
    destruct (inErrLoop w), (inErrLoop w'), (is_done (wpc w)), (is_done (wpc w'));
      simpl in *; lia.
Qed.

(** C4. Along every execution, [errLooped] is the number of workers that
    are in their error loop and have not returned, hence never negative.
    Each worker has added 1 to it exactly once if it has received a
    failure response and never otherwise, the addition being made when
    the first failure is received; and it has subtracted 1 exactly once
    if it has returned after such an addition, and never otherwise. The
    counter moves with these additions and subtractions and with nothing
    else: a step of a worker changes it by what the worker adds and
    subtracts in that step, every other step leaves it alone. And each
    terminal outcome does return the worker and settle its account: a
    worker that receives a success, a worker whose backoff answers its
    next failure with [Stop], a worker that finds the cancellation
    channel closed in a select, a worker that finds the running flag
    cleared at the head of its loop, and a worker whose response is
    taken each return, the counter going down by one exactly when the
    worker counted in it. *)
Theorem errLooped_accounting (r0 : Retry W B) (s : System W B) (tr : list Action) :
  execution (started r0) s tr ->
  0 <= errLooped s
  /\ errLooped s = Z.of_nat (total err_flag (workers s))
  /\ (forall i w, workers s !! i = Some w ->
       increments i tr = Nat.min 1 (failures i tr)
       /\ decrements i tr = (if is_done (wpc w) then increments i tr else 0%nat)
       /\ err_flag w = (increments i tr - decrements i tr)%nat)
  /\ (forall i e s' acts, step (EWorker i e) s = Some (s', acts) ->
       errLooped s' = errLooped s + Z.of_nat (increments i acts)
                      - Z.of_nat (decrements i acts))
  /\ (forall e s' acts, step e s = Some (s', acts) ->
       (forall i x, e <> EWorker i x) -> errLooped s' = errLooped s)
  /\ (forall i w, panicked s = None -> workers s !! i = Some w ->
       (wpc w = WAwait ->
        returns_by i [EWorker i (WRecv None); EWorker i WTaken] s tr w ResAck)
       /\ (wpc w = WAwait ->
           nth_backoff (failures i tr) (backoffCtor r0 ()) = Stop ->
           forall err,
             returns_by i [EWorker i (WRecv (Some err)); EWorker i WTaken]
               s tr w ResNoack)
       /\ (wpc w <> WLoop -> wpc w <> WDone -> closeChan (retry s) = Closed ->
           returns_by i [EWorker i WClosed] s tr w (resOut w))
       /\ (wpc w = WLoop -> running (retry s) <> 1 ->
           returns_by i [EWorker i WTau; EWorker i WTaken] s tr w (resOut w))
       /\ (wpc w = WRespond ->
           returns_by i [EWorker i WTaken] s tr w (resOut w))).
Proof.
  intros Hex.
  destruct (errLooped_so_far r0 s tr Hex) as (H1 & H2 & H3).
  split; [exact H1|]. split; [exact H2|]. split; [exact H3|].
  split; [|split].
  - intros i e s' acts Hs. eapply counter_follows_worker; eauto.
  - intros e s' acts Hs Hne. unfold step in Hs.
    destruct (panicked s); [discriminate|]. destruct e as [ce|i we| |j].
    + apply coord_step_workers in Hs. tauto.
    + exfalso. apply (Hne i we). reflexivity.
    + inversion Hs; subst. reflexivity.
    + apply closer_step_workers in Hs. tauto.
  - intros i w Hp Hw.
    destruct (respond_returns r0 s tr i w Hex Hp Hw) as [Hre Hlo].
    split; [|split; [|split; [|split]]].
    + intros Hpc. eapply success_returns; eauto.
    + intros Hpc Hstop err. eapply stop_returns; eauto.
    + intros Hl Hd Hc. eapply cancel_returns; eauto.
    + exact Hlo.
    + exact Hre.
Qed.

(** While the output runs, a worker can go on to its return by its own
    steps, the child acknowledging the delivery and upstream taking the
    response. A worker that is about to resubmit needs the child's input
    open for that. *)
Lemma worker_can_finish (s : System W B) (tr : list Action) (i : nat) (w : Worker B) :
  panicked s = None -> running (retry s) = 1 ->
  workers s !! i = Some w -> wpc w <> WDone ->
  (wpc w = WResubmit \/ (exists d, wpc w = WSleep d) ->
   transactionsOut (retry s) = Open) ->
  exists es s' tr' w',
    run es s tr = Some (s', tr')
    /\ Forall (of_worker i) es
    /\ running (retry s') = 1
    /\ workers s' !! i = Some w' /\ wpc w' = WDone.
Proof.
  intros Hp Hr Hw Hd Ho.
  pose proof (lookup_lt_Some _ _ _ Hw) as Hlt.
  assert (Hown : forall es, Forall (fun e => exists x, e = EWorker i x) es ->
                            Forall (of_worker i) es) by (intros es H; exact H).
  destruct w as [t rc bo ro iel pc]. simpl in *.
  destruct s as [r el g c ws cl p]. simpl in *. subst p.
  destruct pc; [| | | | |congruence].
  - exists [EWorker i WTau; EWorker i (WRecv None); EWorker i WTaken].
    unfold run, step, worker_step, worker_exit; simpl.
    rewrite Hw; simpl. rewrite Hr; simpl.
    rewrite list_lookup_insert_eq by exact Hlt. simpl.
    rewrite list_lookup_insert_eq by (rewrite length_insert; exact Hlt). simpl.
    destruct iel; simpl;
      (eexists _, _, _; split; [reflexivity|]); simpl;
      (split; [apply Hown; repeat constructor; eexists; reflexivity|]);
      (split; [exact Hr|]);
      (split; [apply list_lookup_insert_eq; rewrite !length_insert; exact Hlt|]);
      reflexivity.
  - exists [EWorker i (WRecv None); EWorker i WTaken].
    unfold run, step, worker_step, worker_exit; simpl.
    rewrite Hw; simpl.
    rewrite list_lookup_insert_eq by exact Hlt. simpl.
    destruct iel; simpl;
      (eexists _, _, _; split; [reflexivity|]); simpl;
      (split; [apply Hown; repeat constructor; eexists; reflexivity|]);
      (split; [exact Hr|]);
      (split; [apply list_lookup_insert_eq; rewrite !length_insert; exact Hlt|]);
      reflexivity.
  - exists [EWorker i WTimer; EWorker i WSent; EWorker i WTau;
            EWorker i (WRecv None); EWorker i WTaken].
    unfold run, step, worker_step, worker_exit; simpl.
    rewrite Hw; simpl.
    rewrite list_lookup_insert_eq by exact Hlt. simpl.
    rewrite Ho by (right; eexists; reflexivity). simpl.
    rewrite list_lookup_insert_eq by (rewrite !length_insert; exact Hlt). simpl.
    rewrite Hr; simpl.
    rewrite list_lookup_insert_eq by (rewrite !length_insert; exact Hlt). simpl.
    rewrite list_lookup_insert_eq by (rewrite !length_insert; exact Hlt). simpl.
    destruct iel; simpl;
      (eexists _, _, _; split; [reflexivity|]); simpl;
      (split; [apply Hown; repeat constructor; eexists; reflexivity|]);
      (split; [exact Hr|]);
      (split; [apply list_lookup_insert_eq; rewrite !length_insert; exact Hlt|]);
      reflexivity.
  - exists [EWorker i WSent; EWorker i WTau; EWorker i (WRecv None); EWorker i WTaken].
    unfold run, step, worker_step, worker_exit; simpl.
    rewrite Hw; simpl.
    rewrite Ho by (left; reflexivity). simpl.
    rewrite list_lookup_insert_eq by exact Hlt. simpl.
    rewrite Hr; simpl.
    rewrite list_lookup_insert_eq by (rewrite !length_insert; exact Hlt). simpl.
    rewrite list_lookup_insert_eq by (rewrite !length_insert; exact Hlt). simpl.
    destruct iel; simpl;
      (eexists _, _, _; split; [reflexivity|]); simpl;
      (split; [apply Hown; repeat constructor; eexists; reflexivity|]);
      (split; [exact Hr|]);
      (split; [apply list_lookup_insert_eq; rewrite !length_insert; exact Hlt|]);
      reflexivity.
  - exists [EWorker i WTaken].
    unfold run, step, worker_step, worker_exit; simpl.
    rewrite Hw; simpl.
    destruct iel; simpl;
      (eexists _, _, _; split; [reflexivity|]); simpl;
      (split; [apply Hown; repeat constructor; eexists; reflexivity|]);
      (split; [exact Hr|]);
      (split; [apply list_lookup_insert_eq; rewrite ?length_insert; exact Hlt|]);
      reflexivity.
Qed.

(** C1, amended. On the response channel of a transaction that was
    handed to a worker, at most one response is ever written, and none
    while the worker is still going. When the worker has returned and
    shutdown has not been requested (the running flag is still 1), exactly
    one response has been written, and it is an ack or a noack. The
    response does get written as long as nobody asks for shutdown: with
    the flag at 1 a worker can always go on, by its own steps, to write
    exactly one ack or noack and return, the child answering and upstream
    taking the response (a worker about to resubmit needs the child's
    input still open). The only way to return without a response is
    cancellation: a worker takes the [closeChan] case of a select only
    when the channel is closed, which it then always can; it returns
    with nothing written, then or ever; and a worker that has returned
    without a response did so with the channel closed. *)
Theorem at_most_one_response (r0 : Retry W B) (s : System W B)
    (tr : list Action) (i : nat) (w : Worker B) :
  fresh r0 -> execution (started r0) s tr -> workers s !! i = Some w ->
  (length (responses i tr) <= 1)%nat
  /\ (wpc w <> WDone -> responses i tr = [])
  /\ (wpc w = WDone -> running (retry s) = 1 ->
      responses i tr = [ResAck] \/ responses i tr = [ResNoack])
  /\ (panicked s = None -> running (retry s) = 1 -> wpc w <> WDone ->
      (wpc w = WResubmit \/ (exists d, wpc w = WSleep d) ->
       transactionsOut (retry s) = Open) ->
      exists es s' tr' w',
        run es s tr = Some (s', tr')
        /\ Forall (of_worker i) es
        /\ running (retry s') = 1
        /\ workers s' !! i = Some w' /\ wpc w' = WDone
        /\ (responses i tr' = [ResAck] \/ responses i tr' = [ResNoack]))
  /\ (wpc w = WDone -> responses i tr = [] -> closeChan (retry s) = Closed)
  /\ (forall s' acts, step (EWorker i WClosed) s = Some (s', acts) ->
        closeChan (retry s) = Closed
        /\ workers s' !! i = Some (set_wpc WDone w)
        /\ responses i (tr ++ acts) = []
        /\ forall s2 tr2, execution s' s2 tr2 -> responses i (tr ++ acts ++ tr2) = [])
  /\ (panicked s = None -> closeChan (retry s) = Closed ->
      wpc w <> WLoop -> wpc w <> WDone ->
      exists s' acts, step (EWorker i WClosed) s = Some (s', acts)).
Proof.
  intros Hfresh Hex Hw.
  destruct (responses_so_far r0 s tr i w Hfresh Hex Hw) as (H1 & H2 & H3 & H4).
  split; [exact H1|]. split; [exact H2|]. split; [exact H3|].
  split; [|split; [exact H4|split]].
  - (* the response gets written *)
    intros Hp Hr Hd Ho.
    destruct (worker_can_finish s tr i w Hp Hr Hw Hd Ho)
      as (es & s' & tr' & w' & Hrun & Hes & Hr' & Hw' & Hd').
    pose proof (run_execution _ _ _ _ _ _ Hex Hrun) as Hex'.
    destruct (responses_so_far r0 s' tr' i w' Hfresh Hex' Hw') as (_ & _ & H3' & _).
    exists es, s', tr', w'. repeat split; auto.
  - (* the closeChan case of a select *)
    intros s' acts Hs.
    assert (Hstep : closeChan (retry s) = Closed
                    /\ workers s' !! i = Some (set_wpc WDone w)
                    /\ responses i acts = [] /\ wpc w <> WDone).
    { pose proof (lookup_lt_Some _ _ _ Hw) as Hlt.
      unfold step in Hs. destruct (panicked s); [discriminate|].
      unfold worker_step, worker_exit in Hs. rewrite Hw in Hs.
      destruct (wpc w) eqn:Hpc; try discriminate;
        destruct (closeChan (retry s)); try discriminate; simpl in Hs;
        destruct (inErrLoop w); inversion Hs; subst; simpl;
        (split; [reflexivity|]);
        (split; [apply list_lookup_insert_eq; exact Hlt|]);
        split; try reflexivity; try discriminate;
        rewrite Nat.eqb_refl; reflexivity. }
    destruct Hstep as (Hc & Hw' & Hre & Hd).
    split; [exact Hc|]. split; [exact Hw'|].
    assert (Hnone : responses i (tr ++ acts) = [])
      by (rewrite responses_app, (H2 Hd), Hre; reflexivity).
    split; [exact Hnone|].
    intros s2 tr2 Hex2.
    assert (Hq : forall s3 tr3, execution s' s3 tr3 ->
                   (exists w3, workers s3 !! i = Some w3 /\ wpc w3 = WDone)
                   /\ responses i tr3 = []).
    { intros s3 tr3 Hex3. induction Hex3 as [|s3 tr3 e s4 acts4 Hex3 IH Hs3].
      - split; [eexists; split; [exact Hw'|reflexivity]|reflexivity].
      - destruct IH as ((w3 & Hw3 & Hd3) & Hre3).
        rewrite responses_app, Hre3. simpl.
        unfold step in Hs3. destruct (panicked s3); [discriminate|].
        destruct e as [ce|j we| |j].
        + apply coord_step_workers in Hs3.
          destruct Hs3 as (_ & _ & _ & _ & [[-> Hu]|(tran & -> & ->)]).
          * split; [eauto|]. apply (Hu i).
          * split; [|reflexivity].
            exists w3. split; [|exact Hd3]. apply lookup_app_l_Some. exact Hw3.
        + unfold worker_step, worker_exit in Hs3.
          destruct (workers s3 !! j) as [wj|] eqn:Hj; [|discriminate].
          destruct (decide (j = i)) as [->|Hne].
          * rewrite Hw3 in Hj. inversion Hj; subst wj.
            rewrite Hd3 in Hs3. destruct we; discriminate.
          * apply Nat.eqb_neq in Hne.
            repeat match type of Hs3 with
                   | context [match ?x with _ => _ end] => destruct x eqn:?
                   end; simplify_eq; simpl; rewrite ?Hne;
              (split; [|reflexivity]); exists w3; (split; [|exact Hd3]);
              rewrite ?list_lookup_insert_ne
                by (intros ->; rewrite Nat.eqb_refl in Hne; discriminate);
              exact Hw3.
        + inversion Hs3; subst. split; [eauto|reflexivity].
        + apply closer_step_workers in Hs3.
          destruct Hs3 as (_ & _ & _ & _ & -> & Hu). split; [eauto|]. apply (Hu i). }
    destruct (Hq s2 tr2 Hex2) as [_ Hre2].
    rewrite app_assoc, responses_app, Hnone, Hre2. reflexivity.
  - (* the case is ready once the channel is closed *)
    intros Hp Hc Hl Hd.
    unfold step, worker_step, worker_exit. rewrite Hp, Hw.
    destruct (wpc w); try congruence; rewrite Hc; simpl;
      destruct (inErrLoop w); eexists _, _; reflexivity.
Qed.

End ReturnProperties.

(** ** An output closed before it is wired *)

Section EarlyCloseProperties.

Context {W B : Type} {OW : OutputType W} {OB : BackOffType B}.

Lemma CloseAsync_times_closed (n : nat) (r : Retry W B) :
  running r = 0 -> CloseAsync_times n r = Some r.
Proof.
  intros Hr. induction n as [|n IH]; simpl; [reflexivity|].
  unfold CloseAsync, CompareAndSwap_running. rewrite Hr. simpl. exact IH.
Qed.

Lemma stopped_inv_step (s s' : System W B) (tr acts : list Action) (e : Event) :
  stopped_inv s tr -> step e s = Some (s', acts) -> stopped_inv s' (tr ++ acts).
Proof.
  intros (Hr & Hc & Hw & Hg & Hp & Hpl & Hcl & Hst) Hs.
  unfold step in Hs. rewrite Hp in Hs.
  unfold stopped_inv, pulls in *. rewrite count_app, Hpl.
  destruct e as [ce|i we| |j].
  - unfold coord_step in Hs.
    destruct (coord s) eqn:Hco; try contradiction;
      destruct ce; try discriminate; rewrite ?Hr, ?Hg in Hs; simpl in Hs;
      repeat match type of Hs with
             | context [match ?x with _ => _ end] => destruct x eqn:?
             end;
      simplify_eq; simpl; try (destruct Hst; congruence);
      repeat split; auto; try tauto; try congruence.
  - unfold worker_step in Hs. rewrite Hw, lookup_nil in Hs. discriminate.
  - inversion Hs; subst; clear Hs. simpl. repeat split; auto.
    apply Forall_app. split; [exact Hcl|]. repeat constructor. discriminate.
  - unfold closer_step, CompareAndSwap_running in Hs.
    destruct (closers s !! j) as [c|] eqn:Hj; [|discriminate].
    pose proof (proj1 (Forall_lookup _ _) Hcl j c Hj) as Hne.
    destruct c; [|congruence|discriminate].
    rewrite Hr in Hs. simpl in Hs. inversion Hs; subst; clear Hs. simpl.
    repeat split; auto. apply Forall_insert; [exact Hcl|discriminate].
Qed.

(** X3. An output on which [CloseAsync] was called, once or more, before
    it is wired. The calls do not panic and leave the running flag at 0
    and the cancellation channel closed. A [Consume] that then succeeds
    still stores the channel and starts [loop]; that [loop] never pulls a
    transaction, starts no worker and cannot panic, whatever else
    happens; and it goes through the test of the flag and [wg.Wait()]
    straight to its deferred function, which, with a child that reports
    closed at poll [k + 1], fires the closed signal after the [7 + k]
    steps of the coordinator. *)
Theorem closed_before_wired (New : Config -> W + error)
    (GetCtor : retries.Config -> (unit -> B) + error)
    (c : Config) (st : Metrics) (ts : option nat) (r : Retry W B) (n : nat) :
  NewRetry New GetCtor c st = inl r -> (0 < n)%nat ->
  CloseAsync_times n r = Some (set_closeChan Closed (set_running 0 r))
  /\ forall r1,
       Consume ts (set_closeChan Closed (set_running 0 r)) = (r1, true, None) ->
       transactionsIn r1 = ts /\ running r1 = 0 /\ closeChan r1 = Closed
       /\ (forall s tr, execution (started r1) s tr ->
             pulls tr = 0%nat /\ workers s = [] /\ panicked s = None)
       /\ (forall k, closes_after k (wCloseAsync (wrapped r1)) ->
             exists s' errs,
               run (stopped_loop_steps k) (started r1) []
               = Some (s', shutdown_sequence errs)
               /\ length errs = k
               /\ coord s' = CExited /\ closedChan (retry s') = Closed
               /\ panicked s' = None).
Proof.
  intros Hn Hpos.
  assert (Hr : running r = 1 /\ transactionsOut r = Open /\ closeChan r = Open
               /\ closedChan r = Open /\ transactionsIn r = None).
  { unfold NewRetry in Hn. repeat case_match; simplify_eq. simpl. repeat split. }
  destruct Hr as (Hrun & Hout & Hcc & Hcd & Hin).
  split.
  { destruct n as [|n]; [lia|]. simpl.
    destruct (CloseAsync_twice r Hrun Hcc) as [-> _].
    apply CloseAsync_times_closed. reflexivity. }
  intros r1 Hcons. unfold Consume in Hcons. simpl in Hcons. rewrite Hin in Hcons.
  destruct (wConsume (wrapped r)) as [w' [e|]] eqn:Hw; [discriminate|].
  inversion Hcons; subst r1; clear Hcons.
  split; [reflexivity|]. split; [reflexivity|]. split; [reflexivity|]. split.
  - intros s tr Hex.
    assert (Hinv : stopped_inv s tr).
    { refine (execution_invariant stopped_inv _ _ _ s tr Hex).
      - unfold stopped_inv. simpl. repeat split; auto.
      - intros s1 tr1 e s2 acts _ Hi Hs. eapply stopped_inv_step; eauto. }
    destruct Hinv as (_ & _ & Hws & _ & Hp & Hpl & _). auto.
  - intros k Hk. unfold stopped_loop_steps. rewrite run_app.
    set (r2 := set_transactionsIn ts (set_wrapped w' (set_closeChan Closed (set_running 0 r)))).
    set (s3 := set_coord CDefCloseOut
                 (set_coord CWgWait
                    (set_coord CLoop (upd_stats (incr_mRunning 1) (started r2))))).
    assert (H3 : run (repeat (ECoord CTau) 3) (started r2) [] = Some (s3, [])).
    { reflexivity. }
    rewrite H3. unfold deferred_steps.
    change (repeat (ECoord CTau) (4 + k))
      with (ECoord CTau :: ECoord CTau :: repeat (ECoord CTau) (2 + k)).
    erewrite run_cons_step;
      [|unfold step, coord_step; simpl; rewrite Hout; reflexivity].
    erewrite run_cons_step; [|unfold step, coord_step; simpl; reflexivity].
    edestruct (polls_in_order k
                 (set_coord CDefWait
                    (set_retry
                       (set_wrapped (wCloseAsync w')
                          (set_transactionsOut Closed (retry s3)))
                       (set_coord CDefCloseAsync
                          (set_retry (set_transactionsOut Closed (retry s3)) s3))))
                 (([] ++ [ACloseOut]) ++ [AWrappedCloseAsync]))
      as (s' & errs & Hrun' & Hlen & Hco & Hcl & _ & Hp'); simpl; auto.
    exists s', errs. split; [exact Hrun'|]. repeat split; auto.
Qed.

End EarlyCloseProperties.

(** ** Sample executions *)

Lemma sample_retry_fresh : fresh sample_retry.
Proof. repeat split. Qed.

Lemma outcome_execution (es : list Event) :
  execution (started sample_retry) (fst (outcome es)) (snd (outcome es)).
Proof.
  unfold outcome.
  destruct (run es (started sample_retry) []) as [[s tr]|] eqn:Hrun; simpl.
  - eapply run_execution; [apply exec_start|exact Hrun].
  - apply exec_start.
Qed.

(** C1, as stated, fails: a transaction is pulled and dispatched while the
    output is running, shutdown is then requested, and everything winds up
    (the worker has returned, the coordinator has fired the closed signal,
    nothing panicked) without any response written to the transaction's
    channel. *)
Lemma cancelled_transaction_gets_no_response :
  let s := fst (outcome cancelled_schedule) in
  let tr := snd (outcome cancelled_schedule) in
  pulls tr = 1%nat /\ dispatches 0 tr = 1%nat
  /\ coord s = CExited /\ workers s !! 0%nat = Some (set_wpc WDone first_worker)
  /\ panicked s = None /\ responses 0 tr = [].
Proof.
  vm_compute. repeat split.
Qed.

(** A shutdown that has cleared the flag and not yet closed the
    cancellation channel lets a worker send its nil [resOut]. *)
Remark nil_response_during_shutdown :
  responses 0 (snd (outcome nil_response_schedule)) = [ResNil].
Proof.
  vm_compute. reflexivity.
Qed.

Lemma at_most_one_response_witness :
  exists es s' tr' w',
    run es (fst after_dispatch) (snd after_dispatch) = Some (s', tr')
    /\ Forall (of_worker 0) es
    /\ running (retry s') = 1
    /\ workers s' !! 0%nat = Some w' /\ wpc w' = WDone
    /\ (responses 0 tr' = [ResAck] \/ responses 0 tr' = [ResNoack]).
Proof.
  refine (proj1 (proj2 (proj2 (proj2
            (at_most_one_response sample_retry (fst after_dispatch)
               (snd after_dispatch) 0 first_worker sample_retry_fresh
               (outcome_execution _) _)))) _ _ _ _).
  - vm_compute. reflexivity.
  - vm_compute. reflexivity.
  - vm_compute. reflexivity.
  - vm_compute. discriminate.
  - intros [H|[d H]]; vm_compute in H; discriminate.
Defined.

(** In the cancelled run the worker took the [closeChan] case of the
    select in which it waited for the child. *)
Example cancelled_worker_step :
  let s := fst (outcome (dispatch_first sample_tran
                           ++ [EWorker 0 WTau; ECall; ECloser 0; ECloser 0])) in
  step (EWorker 0 (WRecv None)) s <> None
  /\ option_map snd (step (EWorker 0 WClosed) s) = Some [].
Proof.
  vm_compute. split; [discriminate|reflexivity].
Qed.

Lemma errLooped_accounting_witness :
  errLooped (fst (outcome retrying_schedule)) = 1
  /\ returns_by 0 [EWorker 0 (WRecv (Some "boom"%string)); EWorker 0 WTaken]
       (fst (outcome retrying_schedule)) (snd (outcome retrying_schedule))
       (mkWorker sample_tran 0 (Some (mkMaxRetries (100 * Millisecond) 2 2))
          ResNil true WAwait)
       ResNoack.
Proof.
  split; [vm_compute; reflexivity|].
  refine (proj1 (proj2
            (proj2 (proj2 (proj2 (proj2 (proj2
               (errLooped_accounting sample_retry (fst (outcome retrying_schedule))
                  (snd (outcome retrying_schedule)) (outcome_execution _))))))
               0%nat _ _ _)) _ _ "boom"%string).
  - vm_compute. reflexivity.
  - vm_compute. reflexivity.
  - reflexivity.
  - vm_compute. reflexivity.
Defined.

(** The worker of that run after its third failure: returned, with one
    addition and one subtraction, and the counter back at zero. *)
Example exhausted_worker_account :
  let s := fst (outcome exhausted_schedule) in
  let tr := snd (outcome exhausted_schedule) in
  increments 0 tr = 1%nat /\ decrements 0 tr = 1%nat /\ errLooped s = 0
  /\ increments 0 (snd (outcome retrying_schedule)) = 1%nat
  /\ decrements 0 (snd (outcome retrying_schedule)) = 0%nat.
Proof.
  vm_compute. repeat split.
Qed.

Lemma CloseAsync_idempotent_witness :
  (swaps (snd (outcome two_calls_schedule)) = 1%nat
   /\ cancels (snd (outcome two_calls_schedule)) = 1%nat
   /\ running (retry (fst (outcome two_calls_schedule))) = 0
   /\ closeChan (retry (fst (outcome two_calls_schedule))) = Closed)
  /\ exists es s' tr',
       run es (fst (outcome two_calls_pending)) (snd (outcome two_calls_pending))
       = Some (s', tr')
       /\ Forall of_calls es
       /\ length (closers s') = length (closers (fst (outcome two_calls_pending)))
       /\ Forall (fun c => c = ClReturned) (closers s')
       /\ swaps tr' = 1%nat /\ cancels tr' = 1%nat
       /\ running (retry s') = 0 /\ closeChan (retry s') = Closed
       /\ panicked s' = None.
Proof.
  split.
  - refine (proj1 (proj2 (proj2 (proj2 (proj2
              (CloseAsync_idempotent sample_retry (fst (outcome two_calls_schedule))
                 (snd (outcome two_calls_schedule)) sample_retry_fresh
                 (outcome_execution _)))))) _ _).
    + vm_compute. discriminate.
    + vm_compute. repeat constructor.
  - refine (proj2 (proj2 (proj2 (proj2 (proj2 (proj2 (proj2 (proj2
              (CloseAsync_idempotent sample_retry (fst (outcome two_calls_pending))
                 (snd (outcome two_calls_pending)) sample_retry_fresh
                 (outcome_execution _))))))))) _ _).
    + vm_compute. reflexivity.
    + vm_compute. discriminate.
Defined.

Lemma deferred_shutdown_order_witness :
  exists s' errs,
    run (deferred_steps 1) (fst (outcome upstream_end_schedule))
      (snd (outcome upstream_end_schedule))
    = Some (s', snd (outcome upstream_end_schedule) ++ shutdown_sequence errs)
    /\ length errs = 1%nat
    /\ shutdown_steps (snd (outcome upstream_end_schedule) ++ shutdown_sequence errs)
       = shutdown_sequence errs
    /\ coord s' = CExited
    /\ transactionsOut (retry s') = Closed
    /\ closedChan (retry s') = Closed
    /\ panicked s' = None.
Proof.
  refine (proj2 (proj2 (proj2 (proj2
            (deferred_shutdown_order sample_retry (fst (outcome upstream_end_schedule))
               (snd (outcome upstream_end_schedule)) sample_retry_fresh
               (outcome_execution _))))) 1%nat _ _ _).
  - vm_compute. reflexivity.
  - vm_compute. reflexivity.
  - simpl. split; [discriminate|reflexivity].
Defined.


(** C3, as stated, fails: the coordinator has passed the gate with the
    counter at zero; the first delivery then fails, which raises the
    counter to 1; and the coordinator pulls the next transaction all the
    same. *)
Lemma pull_while_counter_positive :
  let s := fst (outcome late_failure_schedule) in
  errLooped s = 1
  /\ option_map snd (step (ECoord (CRecv (Some second_tran))) s)
     = Some [APull second_tran].
Proof.
  vm_compute. split; reflexivity.
Qed.

(** The shutdown of the cancelled run, step by step. *)
Example cancelled_run_shutdown :
  shutdown_steps (snd (outcome cancelled_schedule))
  = shutdown_sequence [ErrTimeout]
  /\ closers (fst (outcome two_calls_schedule)) = [ClReturned; ClReturned]
  /\ swaps (snd (outcome two_calls_schedule)) = 1%nat
  /\ cancels (snd (outcome two_calls_schedule)) = 1%nat.
Proof.
  vm_compute. repeat split.
Qed.

Lemma gate_semantics_witness :
  exists s',
    run [ECoord CTimeout; ECoord CTau; ECoord (CRecv (Some second_tran))]
      (fst (outcome missed_interrupt_schedule)) []
    = Some (s', [] ++ [AGateTimeout (100 * Millisecond);
                       AGateRead (errLooped (fst (outcome missed_interrupt_schedule)));
                       APull second_tran])
    /\ coord s' = CDispatch second_tran.
Proof.
  refine (proj2 (proj2 (proj2 (proj2 (proj2
            (gate_semantics (fst (outcome missed_interrupt_schedule)))))))
            _ _ _ _ second_tran []).
  - vm_compute. reflexivity.
  - vm_compute. reflexivity.
  - vm_compute. discriminate.
  - vm_compute. discriminate.
Defined.

(** In that run the worker returned before the coordinator started to
    wait: the counter is back at zero, no interrupt was received, and the
    coordinator waits in the gate for its timer. *)
Example missed_interrupt_leaves_the_timer :
  coord (fst (outcome missed_interrupt_schedule)) = CGateWait
  /\ errLooped (fst (outcome missed_interrupt_schedule)) = 0
  /\ responses 0 (snd (outcome missed_interrupt_schedule)) = [ResAck].
Proof.
  vm_compute. repeat split.
Qed.

(** A resubmission after the coordinator has closed the child's input
    panics. *)
Example resubmission_after_upstream_close :
  panicked (fst (outcome upstream_closed_schedule)) = Some SendOnClosedChannel.
Proof.
  vm_compute. reflexivity.
Qed.

(** ** The further properties on the samples *)

Lemma closed_before_wired_witness :
  CloseAsync_times 2 built_retry
  = Some (set_closeChan Closed (set_running 0 built_retry))
  /\ exists s' errs,
       run (stopped_loop_steps 0) (started closed_then_wired) []
       = Some (s', shutdown_sequence errs)
       /\ length errs = 0%nat
       /\ coord s' = CExited /\ closedChan (retry s') = Closed
       /\ panicked s' = None.
Proof.
  destruct (closed_before_wired sample_New sample_GetCtor sample_retry_conf
              no_metrics (Some 7%nat) built_retry 2) as [Hcalls Hloop].
  - reflexivity.
  - lia.
  - split; [exact Hcalls|].
    refine (proj2 (proj2 (proj2 (proj2 (Hloop closed_then_wired _)))) 0%nat _).
    + reflexivity.
    + reflexivity.
Defined.

Lemma Consume_refused_leaves_unstarted_witness :
  false = false
  /\ wConsume (wrapped refused_retry) = (wrapped refused_retry, Some ErrAlreadyStarted)
  /\ refused_retry = set_wrapped (wrapped refused_retry) refused_retry
  /\ transactionsIn refused_retry = None
  /\ forall ts' w2,
       wConsume (wrapped refused_retry) = (w2, None) ->
       Consume ts' refused_retry
       = (set_transactionsIn ts' (set_wrapped w2 refused_retry), true, None).
Proof.
  apply (Consume_refused_leaves_unstarted refused_retry refused_retry (Some 7%nat)
           false ErrAlreadyStarted); reflexivity.
Defined.

Lemma metrics_follow_actions_witness :
  mEndOfRetries (stats (retry (fst (outcome exhausted_schedule))))
  = mEndOfRetries (stats sample_retry)
    + Z.of_nat (all_end_of_retries (snd (outcome exhausted_schedule))).
Proof.
  exact (proj2 (proj2 (proj2
           (metrics_follow_actions sample_retry (fst (outcome exhausted_schedule))
              (snd (outcome exhausted_schedule)) (outcome_execution _))))).
Defined.

Lemma gauge_and_parts_witness :
  mRunning (stats (retry (fst (outcome missed_interrupt_schedule))))
  = mRunning (stats sample_retry) + gauge (coord (fst (outcome missed_interrupt_schedule)))
  /\ mPartsSuccess (stats (retry (fst (outcome missed_interrupt_schedule))))
     = mPartsSuccess (stats sample_retry)
       + Z.of_nat (total acked_parts (workers (fst (outcome missed_interrupt_schedule)))).
Proof.
  exact (gauge_and_parts sample_retry (fst (outcome missed_interrupt_schedule))
           (snd (outcome missed_interrupt_schedule)) (outcome_execution _)).
Defined.

Lemma deferred_function_completes_witness :
  exists s' tr',
    run (deferred_steps 1) (fst (outcome upstream_end_schedule))
      (snd (outcome upstream_end_schedule)) = Some (s', tr')
    /\ coord s' = CExited /\ closedChan (retry s') = Closed.
Proof.
  apply (deferred_function_completes 1 (fst (outcome upstream_end_schedule))).
  - vm_compute. reflexivity.
  - vm_compute. reflexivity.
  - vm_compute. reflexivity.
  - vm_compute. reflexivity.
  - simpl. split; [discriminate|reflexivity].
Defined.

Lemma wait_group_accounting_witness :
  wg (fst (outcome cancel_pending_schedule)) = 1
  /\ wg (fst (outcome cancel_pending_schedule))
     = Z.of_nat (total live_flag (workers (fst (outcome cancel_pending_schedule)))).
Proof.
  split; [vm_compute; reflexivity|].
  exact (proj1 (wait_group_accounting sample_retry (fst (outcome cancel_pending_schedule))
                  (snd (outcome cancel_pending_schedule)) (outcome_execution _))).
Defined.

Lemma deliveries_carry_the_payload_witness :
  deliveries 0 (snd (outcome exhausted_schedule))
  = repeat (Payload sample_tran)
      (S (resubmissions 0 (snd (outcome exhausted_schedule)))).
Proof.
  refine (proj1 (proj2 (proj2 (proj2
           (deliveries_carry_the_payload sample_retry (fst (outcome exhausted_schedule))
              (snd (outcome exhausted_schedule)) 0
              (mkWorker sample_tran 0 (Some (mkMaxRetries (100 * Millisecond) 2 2))
                 ResNoack true WDone)
              (outcome_execution _) _))))).
  vm_compute. reflexivity.
Defined.

Lemma responses_go_to_the_transaction_witness :
  exists t,
    pulled (snd (outcome exhausted_schedule)) !! 0%nat = Some t
    /\ (forall ch res, In (ch, res) (written 0 (snd (outcome exhausted_schedule))) ->
           ch = ResponseChan t /\ res = ResNoack /\ WDone = WDone)
    /\ (length (written 0 (snd (outcome exhausted_schedule))) <= 1)%nat
    /\ map snd (written 0 (snd (outcome exhausted_schedule)))
       = responses 0 (snd (outcome exhausted_schedule)).
Proof.
  apply (responses_go_to_the_transaction sample_retry (fst (outcome exhausted_schedule))
           (snd (outcome exhausted_schedule)) 0
           (mkWorker sample_tran 0 (Some (mkMaxRetries (100 * Millisecond) 2 2))
              ResNoack true WDone)).
  - apply outcome_execution.
  - vm_compute. reflexivity.
Defined.

Lemma outcome_reflects_responses_witness :
  end_of_retries 0 (snd (outcome exhausted_schedule)) = 1%nat <-> ResNoack = ResNoack.
Proof.
  refine (proj1 (proj2
           (outcome_reflects_responses sample_retry (fst (outcome exhausted_schedule))
              (snd (outcome exhausted_schedule)) 0
              (mkWorker sample_tran 0 (Some (mkMaxRetries (100 * Millisecond) 2 2))
                 ResNoack true WDone)
              (outcome_execution _) _))).
  vm_compute. reflexivity.
Defined.

Lemma backoff_instance_per_worker_witness :
  mkMaxRetries (100 * Millisecond) 2 2
  = after_calls (failures 0 (snd (outcome exhausted_schedule)))
      (backoffCtor sample_retry ()).
Proof.
  refine (proj1 (proj2 (proj2
           (backoff_instance_per_worker sample_retry (fst (outcome exhausted_schedule))
              (snd (outcome exhausted_schedule)) 0
              (mkWorker sample_tran 0 (Some (mkMaxRetries (100 * Millisecond) 2 2))
                 ResNoack true WDone)
              (outcome_execution _) _))) _ eq_refl).
  vm_compute. reflexivity.
Defined.

Lemma panics_are_nil_response_or_late_resubmission_witness :
  (forall ts, Consume ts (retry (fst (outcome upstream_closed_schedule)))
              = (retry (fst (outcome upstream_closed_schedule)), false,
                 Some ErrAlreadyStarted))
  /\ panicked (fst (outcome upstream_closed_schedule)) = Some SendOnClosedChannel
  /\ transactionsOut (retry (fst (outcome upstream_closed_schedule))) = Closed
  /\ in_loop (coord (fst (outcome upstream_closed_schedule))) = false.
Proof.
  destruct (panics_are_nil_response_or_late_resubmission sample_retry
              (fst (outcome upstream_closed_schedule))
              (snd (outcome upstream_closed_schedule)) sample_retry_fresh)
    as [Hc Hp].
  - discriminate.
  - apply outcome_execution.
  - split; [exact Hc|]. split; [vm_compute; reflexivity|].
    destruct (Hp SendOnClosedChannel) as [[Hn _]|(_ & Ho & Hl & _)].
    + vm_compute. reflexivity.
    + discriminate.
    + exact (conj Ho Hl).
Defined.

(** A nil response from the child panics the worker that receives it. *)
Example nil_response_from_the_child :
  run (dispatch_first sample_tran ++ [EWorker 0 WTau; EWorker 0 WRecvNil])
    (started sample_retry) []
  = Some (set_panicked (Some NilResponse)
            (fst (outcome (dispatch_first sample_tran ++ [EWorker 0 WTau]))),
          snd (outcome (dispatch_first sample_tran)) ++ [APanic NilResponse]).
Proof.
  vm_compute. reflexivity.
Qed.

Lemma at_most_one_pull_after_stop_witness :
  pulls (after_swap (snd (outcome late_pull_schedule))) = 1%nat
  /\ (pulls (after_swap (snd (outcome late_pull_schedule))) <= 1)%nat
  /\ (pulls (after_swap (snd (outcome late_pull_schedule))) = 1%nat ->
      past_acquire (coord (fst (outcome late_pull_schedule)))).
Proof.
  split; [vm_compute; reflexivity|].
  exact (at_most_one_pull_after_stop sample_retry (fst (outcome late_pull_schedule))
           (snd (outcome late_pull_schedule)) sample_retry_fresh (outcome_execution _)).
Defined.

Lemma cancellation_winds_down_witness :
  exists es s' tr',
    run es (fst (outcome cancel_pending_schedule))
      (snd (outcome cancel_pending_schedule)) = Some (s', tr')
    /\ coord s' = CExited /\ closedChan (retry s') = Closed
    /\ Forall (fun w => wpc w = WDone) (workers s')
    /\ panicked s' = None.
Proof.
  apply (cancellation_winds_down sample_retry (fst (outcome cancel_pending_schedule))
           (snd (outcome cancel_pending_schedule)) 1).
  - apply sample_retry_fresh.
  - apply outcome_execution.
  - vm_compute. reflexivity.
  - vm_compute. reflexivity.
  - vm_compute. reflexivity.
  - simpl. split; [discriminate|reflexivity].
Defined.

(** The sanitised sample configuration: the "output" entry of the round
    trip is replaced, the other entry is kept. *)
Example sanitised_sample :
  sanitiseConfigFunc string "{}" sample_json_Marshal sample_json_Unmarshal
    sample_SanitiseConfig sample_retry_conf
  = inl (<["output"%string := "stdout"%string]>
           (<["output"%string := "null"%string]>
              {["initial_interval"%string := "100ms"%string]})).
Proof.
  reflexivity.
Qed.
